(** * LEPL matchers (lepl/match.py, lepl/support.py, lepl/custom.py)

    A shallow embedding of the matcher classes of [lepl.match], of
    [assert_type] and the two queues of [lepl.support], and of the
    [Namespace] of [lepl.custom], with the properties of the matcher
    protocol stated over it.

    A Python generator is embedded as the finite trace of what it yields
    together with the way the trace ends; a matcher is the function from
    a stream to the outcome of calling it.  Loops that the source writes
    with an explicit stack or queue are embedded as such, bounded by a
    number of iterations ([fuel]); a trace that ends in [Unfinished] says
    that the bound was reached, nothing more.

    Tags and log messages ([tag], [_warn], [_debug]) and the closing of
    abandoned generators do not change what a matcher yields and are left
    out.  [Commit] and [Trace] act on the core of [lepl.core], which is
    not part of the source tree, and are not embedded. *)

From Stdlib Require Import List String Ascii ZArith Lia Bool.
From Stdlib Require Import Sorted Permutation.
Import ListNotations.

Set Warnings "-register-all".

Open Scope Z_scope.
Open Scope list_scope.

(* ================================================================= *)
(** ** Python values, exceptions and generators *)

(** The exceptions that the embedded code raises or lets through.
    [StopIteration] is not one of them: it is the [Exhausted] end of a
    generator. *)
Inductive exn : Type :=
| TypeError
| ValueError
| AttributeError
| UnboundLocalError
| SyntaxError (message : string)
| UserError (code : nat).

(** Values that appear in result lists. *)
Inductive value : Type :=
| VNone
| VInt (z : Z)
| VStr (s : string)
| VPair (name : string) (v : value)
| VList (items : list value).

(** Arguments of constructors, before any type check.  A Python [bool]
    is an [int] ([isinstance(True, int)] holds), so it is a [PInt]. *)
Inductive pyarg : Type :=
| PNone
| PInt (z : Z)
| PStr (s : string)
| PFloat (mantissa : Z) (exponent : Z).

Inductive pytype : Type := int | str.

Definition isinstance (v : pyarg) (t : pytype) : bool :=
  match v, t with
  | PInt _, int => true
  | PStr _, str => true
  | _, _ => false
  end.

Definition is_None (v : pyarg) : bool :=
  match v with PNone => true | _ => false end.

(** [result + extra] on values. *)
Definition py_add (a b : value) : exn + value :=
  match a, b with
  | VStr x, VStr y => inr (VStr (x ++ y)%string)
  | VList x, VList y => inr (VList (x ++ y))
  | VInt x, VInt y => inr (VInt (x + y))
  | _, _ => inl TypeError
  end.

(** How a generator's trace ends: by returning ([StopIteration] for the
    caller), by an exception, or not within the bound of the model. *)
Inductive finish : Type :=
| Exhausted
| Raises (e : exn)
| Unfinished.

Record generator (A : Type) : Type := Gen {
  yielded : list A;
  finish_of : finish
}.
Arguments Gen {A} _ _.
Arguments yielded {A} _.
Arguments finish_of {A} _.

(** What one [next(generator)] gives. *)
Inductive event (A : Type) : Type :=
| Item (a : A)
| StopIteration
| Throw (e : exn)
| Hang.
Arguments Item {A} _.
Arguments StopIteration {A}.
Arguments Throw {A} _.
Arguments Hang {A}.

(** [next]: the event, and the generator afterwards.  A generator that
    has raised is finished: a later [next] gives [StopIteration]. *)
Definition next {A} (g : generator A) : event A * generator A :=
  match yielded g with
  | a :: rest => (Item a, Gen rest (finish_of g))
  | [] =>
      match finish_of g with
      | Exhausted => (StopIteration, g)
      | Raises e => (Throw e, Gen [] Exhausted)
      | Unfinished => (Hang, g)
      end
  end.

(** The result of calling a Python callable where a generator is
    expected: the call raises, or returns an object. *)
Inductive called (A : Type) : Type :=
| Raised (e : exn)
| Returned (g : generator A).
Arguments Raised {A} _.
Arguments Returned {A} _.

Definition exhausted {A} : generator A := Gen [] Exhausted.
Definition raising {A} (e : exn) : generator A := Gen [] (Raises e).
Definition unfinished {A} : generator A := Gen [] Unfinished.

(** An object that is no iterator: [next] on it, or a [for] over it,
    raises [TypeError] and nothing else can be had from it. *)
Definition not_an_iterator {A} : generator A := raising TypeError.

(** [yield a] followed by the rest of the generator body. *)
Definition yield_then {A} (a : A) (k : generator A) : generator A :=
  Gen (a :: yielded k) (finish_of k).

(** Sequencing of two parts of a generator body: the second part runs
    only if the first one returns. *)
Definition then_ {A} (g k : generator A) : generator A :=
  match finish_of g with
  | Exhausted => Gen (yielded g ++ yielded k) (finish_of k)
  | f => Gen (yielded g) f
  end.

(** The generator that a generator function sees when it iterates over
    the result of a call made inside its own body: an exception of the
    call is an exception of the body at that point. *)
Definition iter {A} (c : called A) : generator A :=
  match c with
  | Raised e => raising e
  | Returned g => g
  end.

(** A small error monad for constructors. *)
Definition bind {A B} (x : exn + A) (f : A -> exn + B) : exn + B :=
  match x with
  | inl e => inl e
  | inr a => f a
  end.
Notation "'do' x <- c1 ; c2" := (bind c1 (fun x => c2))
  (at level 10, x name, c1 at level 100, c2 at level 200).

(* ================================================================= *)
(** ** Streams *)

(** Modelled from the spec: the stream of [lepl.stream] and the core of
    [lepl.core] are not in the source tree.  The stream contract asks
    for an emptiness test, the prefix slice [stream[0:n]], the advance
    [stream[n:]] and an ambient [core] attribute that is absent for a
    plain string; a stream is taken to be its remaining text together
    with the core, if it has one, and slicing keeps the core. *)
Inductive core_handle : Type := Core (id : nat).

Record stream : Type := Stream {
  text : string;
  core : option core_handle
}.

Definition plain (s : string) : stream := Stream s None.

(** [stream.core]: an attribute error on a stream without a core. *)
Definition getattr_core (s : stream) : exn + core_handle :=
  match core s with
  | Some c => inr c
  | None => inl AttributeError
  end.

Fixpoint drop_chars (n : nat) (s : string) : string :=
  match n, s with
  | O, _ => s
  | S n', String _ s' => drop_chars n' s'
  | S _, EmptyString => EmptyString
  end.

Fixpoint take_chars (n : nat) (s : string) : string :=
  match n, s with
  | O, _ => EmptyString
  | S n', String c s' => String c (take_chars n' s')
  | S _, EmptyString => EmptyString
  end.

(** [bool(stream)] *)
Definition nonempty (s : stream) : bool :=
  match text s with EmptyString => false | String _ _ => true end.

(** [stream[n:]] *)
Definition from (n : nat) (s : stream) : stream :=
  Stream (drop_chars n (text s)) (core s).

(** [stream[0:n]] *)
Definition upto (n : nat) (s : stream) : string :=
  take_chars n (text s).

(** [c in restrict] for a one-character [c] and a string [restrict]. *)
Fixpoint char_in (c : ascii) (restrict : string) : bool :=
  match restrict with
  | EmptyString => false
  | String d rest => if Ascii.eqb c d then true else char_in c rest
  end.

Definition result : Type := list value.
Definition attempt : Type := (result * stream)%type.

(** The generator of a matcher. *)
Definition attempts : Type := generator attempt.

(** A matcher, as the rest of the code uses it: something that is called
    with a stream. *)
Definition matcher : Type := stream -> called attempt.

(** Modelled from the spec: the decorator [managed] of [lepl.resources]
    is not in the source tree.  By the match protocol a matcher applied
    to a stream gives the lazy sequence of its attempts; the decorator is
    taken to hand on what the decorated [__call__] does. *)
Definition managed (call : matcher) : matcher := call.

(** [s'] is what is left of [s] after some tokens. *)
Definition suffix_of (s' s : stream) : Prop :=
  exists n : nat, s' = from n s.

(* ================================================================= *)
(** ** lepl.support *)

(** [assert_type(name, value, type_, none_ok=False)] *)
Definition assert_type (v : pyarg) (type_ : pytype) (none_ok : bool)
  : exn + unit :=
  if none_ok && is_None v then inr tt
  else if isinstance v type_ then inr tt
  else inl TypeError.

(* ================================================================= *)
(** ** Terminal matchers *)

(** [coerce]'s argument: a string or anything else (a matcher). *)
Inductive marg : Type :=
| Text (s : string)
| Match (m : matcher).

(** [not self.__restrict]: true for [None] and for an empty collection. *)
Definition not_restrict (restrict : option string) : bool :=
  match restrict with
  | None => true
  | Some EmptyString => true
  | Some (String _ _) => false
  end.

(** [Any.__call__] *)
Definition Any (restrict : option string) : matcher :=
  managed (fun stream =>
    Returned
      match text stream with
      | String head _ =>
          if not_restrict restrict
             || match restrict with
                | Some allowed => char_in head allowed
                | None => false
                end
          then yield_then ([VStr (String head EmptyString)], from 1 stream)
                          exhausted
          else exhausted
      | EmptyString => exhausted
      end).

(** [Literal.__call__] *)
Definition Literal (text_ : string) : matcher :=
  managed (fun stream =>
    Returned
      (if String.eqb text_ (upto (String.length text_) stream)
       then yield_then ([VStr text_], from (String.length text_) stream)
                       exhausted
       else exhausted)).

(** [Empty.__call__] *)
Definition Empty : matcher :=
  managed (fun stream => Returned (yield_then ([], stream) exhausted)).

(** [coerce(arg, function=Literal)] *)
Definition coerce_with (function : string -> matcher) (arg : marg) : matcher :=
  match arg with
  | Text s => function s
  | Match m => m
  end.

Definition coerce : marg -> matcher := coerce_with Literal.

(* ================================================================= *)
(** ** Lookahead, Or, And *)

(** [Lookahead.__call__]: the [for] is left at its first item. *)
Definition Lookahead_call (matcher_ : matcher) (negated : bool) : matcher :=
  managed (fun stream =>
    Returned
      match fst (next (iter (matcher_ stream))) with
      | Item _ =>
          if negated then exhausted
          else yield_then ([], stream) exhausted
      | StopIteration =>
          if negated then yield_then ([], stream) exhausted
          else exhausted
      | Throw e => raising e
      | Hang => unfinished
      end).

(** [Lookahead.__init__] *)
Definition Lookahead (matcher_ : marg) (negated : bool) : matcher :=
  Lookahead_call (coerce matcher_) negated.

(** [Lookahead.__invert__] *)
Definition Lookahead_invert (matcher_ : matcher) (negated : bool) : matcher :=
  Lookahead (Match matcher_) (negb negated).

(** [Or.__call__]: one child after the other, each on the stream that
    [Or] was given. *)
Fixpoint Or_call_from (matchers : list matcher) (stream : stream)
  : generator attempt :=
  match matchers with
  | [] => exhausted
  | match_ :: rest => then_ (iter (match_ stream)) (Or_call_from rest stream)
  end.

Definition Or_call (matchers : list matcher) : matcher :=
  managed (fun stream => Returned (Or_call_from matchers stream)).

(** [Or.__init__] *)
Definition Or (matchers : list marg) : matcher :=
  Or_call (map coerce matchers).

(** A frame of the stack of [And.__call__]:
    [(result, generator, matchers)]. *)
Definition And_frame : Type :=
  (result * generator attempt * list matcher)%type.

(** The [while stack:] loop of [And.__call__].  The head of the list is
    the top of the stack ([stack[-1]]).  The [finally] clause closes the
    generators left on the stack; it yields nothing. *)
Fixpoint And_loop (fuel : nat) (stack : list And_frame) : generator attempt :=
  match fuel with
  | O => unfinished
  | S fuel' =>
      match stack with
      | [] => exhausted
      | (result, generator, matchers) :: stack' =>
          match next generator with
          | (Item (value, stream), generator') =>
              let stack1 := (result, generator', matchers) :: stack' in
              match matchers with
              | next_matcher :: others =>
                  match next_matcher stream with
                  | Returned g =>
                      And_loop fuel' ((result ++ value, g, others) :: stack1)
                  | Raised e => raising e
                  end
              | [] =>
                  yield_then (result ++ value, stream) (And_loop fuel' stack1)
              end
          | (StopIteration, _) => And_loop fuel' stack'
          | (Throw e, _) => raising e
          | (Hang, _) => unfinished
          end
      end
  end.

(** [And.__call__] *)
Definition And_call (fuel : nat) (matchers : list matcher) : matcher :=
  managed (fun stream =>
    Returned
      match matchers with
      | first :: others =>
          match first stream with
          | Returned g => And_loop fuel [([], g, others)]
          | Raised e => raising e
          end
      | [] => exhausted
      end).

(** [And.__init__] *)
Definition And (fuel : nat) (matchers : list marg) : matcher :=
  And_call fuel (map coerce matchers).

(* ================================================================= *)
(** ** Apply, KApply, Regexp, Delayed *)

(** A Python function, called with positional arguments. *)
Definition callable (R : Type) : Type := list value -> exn + R.

(** Iteration over a value ([map(f, results)] inside a function given to
    [Apply]). *)
Fixpoint chars_of (s : string) : list value :=
  match s with
  | EmptyString => []
  | String c rest => VStr (String c EmptyString) :: chars_of rest
  end.

Definition py_iter (v : value) : exn + list value :=
  match v with
  | VList items => inr items
  | VStr s => inr (chars_of s)
  | VPair name x => inr [VStr name; x]
  | VNone | VInt _ => inl TypeError
  end.

(** The body of a [for] loop that yields one value per item and may
    raise, over the items of a generator. *)
Fixpoint for_yield {A B} (body : A -> exn + B) (items : list A) (fin : finish)
  : generator B :=
  match items with
  | [] => Gen [] fin
  | a :: rest =>
      match body a with
      | inl e => raising e
      | inr b => yield_then b (for_yield body rest fin)
      end
  end.

Definition for_in {A B} (g : generator A) (body : A -> exn + B) : generator B :=
  for_yield body (yielded g) (finish_of g).

(** What the function given to [Apply] returns: a list when [raw], any
    value otherwise. *)
Definition Apply_returns (raw : bool) : Type :=
  if raw then result else value.

(** [Apply.__init__]: the function kept in [self.__function].  The two
    lambdas take one parameter. *)
Definition Apply_function (raw : bool)
    (function : string + callable (Apply_returns raw)) : callable result :=
  match function with
  | inl name =>
      fun arguments =>
        match arguments with
        | [results] => do items <- py_iter results; inr (map (VPair name) items)
        | _ => inl TypeError
        end
  | inr f =>
      match raw return callable (Apply_returns raw) -> callable result with
      | true => fun f => f
      | false => fun f arguments =>
          match arguments with
          | [results] => do v <- f [results]; inr [v]
          | _ => inl TypeError
          end
      end f
  end.

(** [Apply.__call__] *)
Definition Apply_call (matcher_ : matcher) (function : callable result)
    (args : bool) : matcher :=
  managed (fun stream =>
    Returned
      (for_in (iter (matcher_ stream))
         (fun '(results, stream') =>
            do r <- (if args then function results
                     else function [VList results]);
            inr (r, stream')))).

Definition Apply (matcher_ : marg) (raw : bool)
    (function : string + callable (Apply_returns raw)) (args : bool) : matcher :=
  Apply_call (coerce matcher_) (Apply_function raw function) args.

(** The keyword arguments of the function given to [KApply]. *)
Record kargs : Type := Kargs {
  stream_in : stream;
  karg_core : option core_handle;
  stream_out : stream;
  results : result
}.

(** What the function given to [KApply] returns: an attempt when [raw],
    any value otherwise. *)
Definition KApply_returns (raw : bool) : Type :=
  if raw then attempt else value.

(** [KApply.__call__] *)
Definition KApply_call (matcher_ : matcher) (raw : bool)
    (function : kargs -> exn + KApply_returns raw) : matcher :=
  managed (fun stream_in =>
    let core_ :=
      match getattr_core stream_in with
      | inr c => Some c
      | inl _ => None
      end in
    Returned
      (for_in (iter (matcher_ stream_in))
         (fun '(results, stream_out) =>
            let k := Kargs stream_in core_ stream_out results in
            match raw return (kargs -> exn + KApply_returns raw) -> exn + attempt with
            | true => fun function => function k
            | false => fun function => do v <- function k; inr ([v], stream_out)
            end function))).

Definition KApply (matcher_ : marg) (raw : bool)
    (function : kargs -> exn + KApply_returns raw) : matcher :=
  KApply_call (coerce matcher_) raw function.

(** A compiled pattern of the [re] module: [pattern.match(text)] gives
    nothing or a match object with [group()] and [groups()]. *)
Record re_match : Type := ReMatch {
  group : string;
  groups : list value
}.

Definition pattern : Type := string -> option re_match.

(** [Regexp.__call__] *)
Definition Regexp (pattern_ : pattern) : matcher :=
  managed (fun stream =>
    Returned
      match pattern_ (text stream) with
      | Some match_ =>
          let eaten := String.length (group match_) in
          match groups match_ with
          | _ :: _ => yield_then (groups match_, from eaten stream) exhausted
          | [] => yield_then ([VStr (group match_)], from eaten stream) exhausted
          end
      | None => exhausted
      end).

(** [Delayed]: the placeholder holds no matcher or one. *)
Definition Delayed : Type := option matcher.

Definition Delayed_init : Delayed := None.

(** [Delayed.__call__] is no generator function: unbound, the call
    itself raises. *)
Definition Delayed_call (self : Delayed) : matcher :=
  managed (fun stream =>
    match self with
    | Some matcher_ => matcher_ stream
    | None => Raised ValueError
    end).

(** [Delayed.__iadd__] *)
Definition Delayed_iadd (self : Delayed) (matcher_ : marg) : exn + Delayed :=
  match self with
  | Some _ => inl ValueError
  | None => inr (Some (coerce matcher_))
  end.

(** A recursive grammar, [d = Delayed(); d += body(d)]: calling [d] calls
    the matcher that was built from [d].  The calls are followed to a
    given depth; below it the generator is [Unfinished]. *)
Fixpoint Delayed_recursive (depth : nat) (body : matcher -> marg) : matcher :=
  match depth with
  | O => fun _ => Returned unfinished
  | S depth' =>
      Delayed_call (Some (coerce (body (Delayed_recursive depth' body))))
  end.

(* ================================================================= *)
(** ** Repeat *)

Record Repeat_obj : Type := RepeatObj {
  first_ : matcher;
  second_ : matcher;
  _start : Z;
  _stop : option Z;
  _direction : Z
}.

(** [Repeat.__init__] *)
Definition Repeat_init (fuel : nat) (matcher_ : marg)
    (start stop direction : pyarg) (separator : option marg)
  : exn + Repeat_obj :=
  let first := coerce matcher_ in
  let second :=
    match separator with
    | None => first
    | Some separator_ => And fuel [separator_; matcher_]
    end in
  let start := if is_None start then PInt 0 else start in
  do _ <- assert_type start int false;
  do _ <- assert_type stop int true;
  do _ <- assert_type direction int false;
  match start, direction with
  | PInt start, PInt direction =>
      if start <? 0 then inl ValueError
      else if negb (is_None stop)
              && match stop with PInt stop => stop <? start | _ => false end
      then inl ValueError
      else if Z.abs direction >? 1 then inl ValueError
      else inr (RepeatObj first second start
                  (match stop with PInt stop => Some stop | _ => None end)
                  direction)
  | _, _ => inl TypeError
  end.

(** [Repeat.__matcher] *)
Definition Repeat_matcher (self : Repeat_obj) (count : Z) : matcher :=
  if 0 =? count then first_ self else second_ self.

(** [count2 >= self._start and (self._stop == None or count2 <= self._stop)] *)
Definition within (self : Repeat_obj) (count : Z) : bool :=
  (_start self <=? count)
  && match _stop self with None => true | Some stop => count <=? stop end.

(** [self._stop == None or count < self._stop] *)
Definition below_stop (self : Repeat_obj) (count : Z) : bool :=
  match _stop self with None => true | Some stop => count <? stop end.

(** What [__with_depth] yields and queues: [(count, acc, stream)]. *)
Definition counted : Type := (Z * result * stream)%type.

(** The [for] loop of [__with_depth] over the attempts of the child:
    what it yields, and the queue after it. *)
Fixpoint Repeat_with_depth_for (self : Repeat_obj) (count2 : Z) (acc1 : result)
    (attempts : list attempt) (queue : list counted)
  : list counted * list counted :=
  match attempts with
  | [] => ([], queue)
  | (value, stream2) :: rest =>
      let acc2 := acc1 ++ value in
      let now := if within self count2 then [(count2, acc2, stream2)] else [] in
      let queue :=
        if below_stop self count2 then queue ++ [(count2, acc2, stream2)]
        else queue in
      let (later, queue') :=
        Repeat_with_depth_for self count2 acc1 rest queue in
      (now ++ later, queue')
  end.

(** The [while queue:] loop of [__with_depth]; the head of the list is
    the left end of the deque. *)
Fixpoint Repeat_with_depth_loop (fuel : nat) (self : Repeat_obj)
    (queue : list counted) : generator counted :=
  match fuel with
  | O => unfinished
  | S fuel' =>
      match queue with
      | [] => exhausted
      | (count1, acc1, stream1) :: queue =>
          let count2 := count1 + 1 in
          let g := iter (Repeat_matcher self count1 stream1) in
          let (now, queue) :=
            Repeat_with_depth_for self count2 acc1 (yielded g) queue in
          then_ (Gen now (finish_of g))
                (Repeat_with_depth_loop fuel' self queue)
      end
  end.

(** [Repeat.__with_depth] *)
Definition Repeat_with_depth (fuel : nat) (self : Repeat_obj) (stream : stream)
  : generator counted :=
  then_ (Gen (if 0 =? _start self then [(0, [], stream)] else []) Exhausted)
        (Repeat_with_depth_loop fuel self [(0, [], stream)]).

(** [Repeat.__breadth_first] *)
Definition Repeat_breadth_first (fuel : nat) (self : Repeat_obj)
    (stream : stream) : generator attempt :=
  for_in (Repeat_with_depth fuel self stream)
         (fun '(_depth, results, stream) => inr (results, stream)).

(** The dictionary [all] of [__exhaustive], in the order in which its
    keys were inserted: [all[depth].append(found)], after
    [all[depth] = []] for a new key. *)
Fixpoint all_append (all : list (Z * list attempt)) (depth : Z) (found : attempt)
  : list (Z * list attempt) :=
  match all with
  | [] => [(depth, [found])]
  | (key, values) :: rest =>
      if key =? depth then (key, values ++ [found]) :: rest
      else (key, values) :: all_append rest depth found
  end.

(** The first loop of [__exhaustive]. *)
Definition Repeat_collect (found : list counted) : list (Z * list attempt) :=
  fold_left (fun all '(depth, results, stream) =>
               all_append all depth (results, stream))
            found [].

(** [Repeat.__exhaustive]: nothing is yielded before [__with_depth] has
    returned. *)
Definition Repeat_exhaustive (fuel : nat) (self : Repeat_obj) (stream : stream)
  : generator attempt :=
  let g := Repeat_with_depth fuel self stream in
  match finish_of g with
  | Exhausted =>
      Gen (flat_map snd (rev (Repeat_collect (yielded g)))) Exhausted
  | Raises e => raising e
  | Unfinished => unfinished
  end.

(** A frame of the stack of [__depth_first]:
    [(count, acc, stream, generator)]. *)
Definition Repeat_frame : Type :=
  (Z * result * stream * generator attempt)%type.

(** The [while stack:] loop of [__depth_first]; the head of the list is
    the top of the stack.  [count2] is the local variable of that name:
    [None] as long as nothing was assigned to it.  The bare [except:]
    swallows whatever [next] or the call of the child raises; the
    [finally] closes the generators left on the stack and yields
    nothing. *)
Fixpoint Repeat_depth_first_loop (fuel : nat) (self : Repeat_obj)
    (stack : list Repeat_frame) (count2 : option Z) : generator attempt :=
  match fuel with
  | O => unfinished
  | S fuel' =>
      match stack with
      | [] => exhausted
      | (count1, acc1, stream1, generator) :: below =>
          let not_extended (generator_ : attempts) (count2 : option Z) :=
            match count2 with
            | None => raising UnboundLocalError
            | Some c2 =>
                if within self c2
                then yield_then (acc1, stream1)
                       (Repeat_depth_first_loop fuel' self below count2)
                else Repeat_depth_first_loop fuel' self
                       ((count1, acc1, stream1, generator_) :: below) count2
            end in
          if below_stop self count1 then
            let c2 := count1 + 1 in
            match next generator with
            | (Item (value, stream2), generator') =>
                let acc2 := acc1 ++ value in
                match Repeat_matcher self c2 stream2 with
                | Returned g2 =>
                    Repeat_depth_first_loop fuel' self
                      ((c2, acc2, stream2, g2)
                         :: (count1, acc1, stream1, generator') :: below)
                      (Some c2)
                | Raised _ => not_extended generator' (Some c2)
                end
            | (StopIteration, generator') => not_extended generator' (Some c2)
            | (Throw _, generator') => not_extended generator' (Some c2)
            | (Hang, _) => unfinished
            end
          else not_extended generator count2
      end
  end.

(** [Repeat.__depth_first] *)
Definition Repeat_depth_first (fuel : nat) (self : Repeat_obj) (stream : stream)
  : generator attempt :=
  match Repeat_matcher self 0 stream with
  | Returned g => Repeat_depth_first_loop fuel self [(0, [], stream, g)] None
  | Raised e => raising e
  end.

(** [Repeat.__call__] *)
Definition Repeat_call (fuel : nat) (self : Repeat_obj) : matcher :=
  managed (fun stream =>
    Returned
      (if _direction self >? 0 then Repeat_breadth_first fuel self stream
       else if _direction self =? 0 then Repeat_depth_first fuel self stream
       else Repeat_exhaustive fuel self stream)).

(** [Repeat(matcher, start, stop, direction, separator)] *)
Definition Repeat (fuel : nat) (matcher_ : marg)
    (start stop direction : pyarg) (separator : option marg) : exn + matcher :=
  do self <- Repeat_init fuel matcher_ start stop direction separator;
  inr (Repeat_call fuel self).

(* ================================================================= *)
(** ** Functions of the module and operators of [BaseMatch] *)

(** [bool(value)] *)
Definition truthy (v : value) : bool :=
  match v with
  | VNone => false
  | VInt z => negb (z =? 0)
  | VStr EmptyString => false
  | VStr (String _ _) => true
  | VPair _ _ => true
  | VList [] => false
  | VList (_ :: _) => true
  end.

(** The loop of [add]: [for extra in results[1:]: result = result + extra]. *)
Fixpoint add_loop (result_ : value) (extras : list value) : exn + value :=
  match extras with
  | [] => inr result_
  | extra :: rest => do r <- py_add result_ extra; add_loop r rest
  end.

(** The local function [add] of [Add]. *)
Definition add : callable result := fun arguments =>
  match arguments with
  | [results] =>
      if truthy results then
        do items <- py_iter results;
        match items with
        | first :: extras => do r <- add_loop first extras; inr [r]
        | [] => inl TypeError
        end
      else inr []
  | _ => inl TypeError
  end.

(** [Add(matcher)] *)
Definition Add (matcher_ : marg) : matcher :=
  Apply matcher_ true (inr add) false.

(** [Drop(matcher)] *)
Definition Drop (matcher_ : marg) : matcher :=
  Apply matcher_ true
    (inr (fun arguments =>
            match arguments with [_] => inr [] | _ => inl TypeError end))
    false.

(** [Identity(matcher)] *)
Definition Identity (matcher_ : marg) : matcher := coerce matcher_.

(** [BaseMatch.__add__] and [BaseMatch.__radd__] *)
Definition add_ (fuel : nat) (self : matcher) (other : marg) : matcher :=
  Add (Match (And fuel [Match self; other])).

Definition radd_ (fuel : nat) (self : matcher) (other : marg) : matcher :=
  Add (Match (And fuel [other; Match self])).

(** [BaseMatch.__and__], [BaseMatch.__or__], [BaseMatch.__invert__] *)
Definition and_ (fuel : nat) (self : matcher) (other : marg) : matcher :=
  And fuel [Match self; other].

Definition or_ (self : matcher) (other : marg) : matcher :=
  Or [Match self; other].

Definition invert_ (self : matcher) : matcher := Drop (Match self).

(** An index of [self[...]]: an integer, a slice, the ellipsis, or
    anything else (a separator). *)
Inductive index : Type :=
| IInt (i : Z)
| ISlice (start stop step : pyarg)
| IEllipsis
| IOther (separator : marg).

Record getitem_state : Type := GetitemState {
  gi_start : pyarg;
  gi_stop : pyarg;
  gi_step : pyarg;
  gi_separator : option matcher;
  gi_add : bool
}.

(** The [for index in indices:] loop of [BaseMatch.__getitem__]. *)
Fixpoint getitem_loop (indices : list index) (st : getitem_state)
  : exn + getitem_state :=
  match indices with
  | [] => inr st
  | IInt i :: rest =>
      getitem_loop rest
        (GetitemState (PInt i) (PInt i) (PInt (-1))
                      (gi_separator st) (gi_add st))
  | ISlice start stop step :: rest =>
      getitem_loop rest
        (GetitemState (if is_None start then PInt 0 else start)
                      stop
                      (if is_None step then PInt 0 else step)
                      (gi_separator st) (gi_add st))
  | IEllipsis :: rest =>
      getitem_loop rest
        (GetitemState (gi_start st) (gi_stop st) (gi_step st)
                      (gi_separator st) true)
  | IOther separator :: rest =>
      match gi_separator st with
      | None =>
          getitem_loop rest
            (GetitemState (gi_start st) (gi_stop st) (gi_step st)
                          (Some (coerce separator)) (gi_add st))
      | Some _ => inl TypeError
      end
  end.

(** [BaseMatch.__getitem__] *)
Definition getitem (fuel : nat) (self : matcher) (indices : list index)
  : exn + matcher :=
  do st <- getitem_loop indices
             (GetitemState (PInt 0) PNone (PInt 0) None false);
  do repeat_ <- Repeat fuel (Match self) (gi_start st) (gi_stop st) (gi_step st)
                  (option_map Match (gi_separator st));
  inr ((if gi_add st then Add else Identity) (Match repeat_)).

(** [Optional], [Star], [Plus] *)
Definition Optional (fuel : nat) (matcher_ : marg) : exn + matcher :=
  getitem fuel (coerce matcher_) [ISlice (PInt 0) (PInt 1) PNone].

Definition Star (fuel : nat) (matcher_ : marg) : exn + matcher :=
  getitem fuel (coerce matcher_) [ISlice PNone PNone PNone].

Definition Plus (fuel : nat) (matcher_ : marg) : exn + matcher :=
  getitem fuel (coerce matcher_) [ISlice (PInt 1) PNone PNone].

(** [Eof]: [~Lookahead(Any())], with the [__invert__] of [Lookahead]. *)
Definition Eof : matcher := Lookahead_invert (Any None) false.

(** [string.digits] *)
Definition digits : string := "0123456789".

Definition Digit : matcher := Any (Some digits).

(** [UnsignedInteger]: [Digit()[1:,...]] *)
Definition UnsignedInteger (fuel : nat) : exn + matcher :=
  getitem fuel Digit [ISlice (PInt 1) PNone PNone; IEllipsis].

(** [SignedInteger]: [Any('+-')[0:1] + UnsignedInteger()] *)
Definition SignedInteger (fuel : nat) : exn + matcher :=
  do sign <- getitem fuel (Any (Some "+-"%string))
               [ISlice (PInt 0) (PInt 1) PNone];
  do number <- UnsignedInteger fuel;
  inr (add_ fuel sign (Match number)).

(** [UnsignedFloat(decimal='.')] *)
Definition UnsignedFloat (fuel : nat) (decimal : option string) : exn + matcher :=
  do whole <- UnsignedInteger fuel;
  do point <- Optional fuel (Match (Any decimal));
  do whole' <- UnsignedInteger fuel;
  do maybe_whole <- getitem fuel whole' [ISlice (PInt 0) (PInt 1) PNone];
  do fraction <- UnsignedInteger fuel;
  inr (or_ (add_ fuel whole (Match point))
           (Match (add_ fuel (add_ fuel maybe_whole (Match (Any decimal)))
                        (Match fraction)))).

(** [SignedFloat(decimal='.')] *)
Definition SignedFloat (fuel : nat) (decimal : option string) : exn + matcher :=
  do sign <- getitem fuel (Any (Some "+-"%string))
               [ISlice (PInt 0) (PInt 1) PNone];
  do number <- UnsignedFloat fuel decimal;
  inr (add_ fuel sign (Match number)).

(** A function of the module that builds a matcher from one argument,
    put where a matcher is expected: calling it with the stream builds
    and returns a matcher, which is no iterator. *)
Definition function_object (function : option string -> exn + matcher)
  : matcher :=
  fun stream =>
    match function (Some (text stream)) with
    | inl e => Raised e
    | inr _ => Returned not_an_iterator
    end.

(** [SignedEFloat(decimal='.', exponent='eE')]:
    [SignedFloat + (Any(exponent) + SignedInteger())[0:1]], where
    [SignedFloat] is the function, so that [+] is the [__radd__] of the
    right operand. *)
Definition SignedEFloat (fuel : nat) (decimal exponent : option string)
  : exn + matcher :=
  do number <- SignedInteger fuel;
  do tail <- getitem fuel (add_ fuel (Any exponent) (Match number))
               [ISlice (PInt 0) (PInt 1) PNone];
  inr (radd_ fuel tail (Match (function_object (SignedFloat fuel)))).

(** The matcher that the docstring of [SignedEFloat] and the
    specification describe:
    [SignedFloat() + Optional(Any(exponent) + SignedInteger())]. *)
Definition SignedEFloat_spec (fuel : nat) (decimal exponent : option string)
  : exn + matcher :=
  do mantissa <- SignedFloat fuel decimal;
  do number <- SignedInteger fuel;
  do tail <- Optional fuel (Match (add_ fuel (Any exponent) (Match number)));
  inr (add_ fuel mantissa (Match tail)).

(** [string.ascii_letters] *)
Definition ascii_letters : string :=
  "abcdefghijklmnopqrstuvwxyzABCDEFGHIJKLMNOPQRSTUVWXYZ".

Definition Letter : matcher := Any (Some ascii_letters).

(** The attempts of a matcher on a stream, and how they end. *)
Definition run (m : matcher) (s : stream) : attempts := iter (m s).

Definition run_of (m : exn + matcher) (s : stream) : exn + attempts :=
  do m' <- m; inr (run m' s).

(* ================================================================= *)
(** ** Notions used to state the properties *)

(** The first attempt of a matcher on a plain string, as [parse] takes
    it. *)
Definition first_attempt (m : exn + matcher) (s : string)
  : exn + option attempt :=
  do g <- run_of m (plain s); inr (hd_error (yielded g)).

(** The value of a call that did not raise. *)
Definition returned_value (r : exn + value) : value :=
  match r with inr v => v | inl _ => VNone end.

(** The integer that an argument stands for: itself, or the default
    when it is omitted. *)
Definition int_of (v : pyarg) (default : Z) : Z :=
  match v with PInt z => z | _ => default end.

(** The parameters of [Repeat] that the specification calls invalid:
    [start], [stop] or [direction] of the wrong type, [start < 0],
    [stop] present and [stop < start], or [|direction| > 1]. *)
Definition Repeat_wrong_type (start stop direction : pyarg) : bool :=
  negb (is_None start || isinstance start int)
  || negb (is_None stop || isinstance stop int)
  || negb (isinstance direction int).

Definition Repeat_invalid (start stop direction : pyarg) : bool :=
  Repeat_wrong_type start stop direction
  || (int_of start 0 <? 0)
  || match stop with PInt stop => stop <? int_of start 0 | _ => false end
  || (Z.abs (int_of direction 0) >? 1).

(** Every attempt of [m] leaves a suffix of the stream it was given. *)
Definition suffix_preserving (m : matcher) : Prop :=
  forall s r s', In (r, s') (yielded (run m s)) -> suffix_of s' s.

(** The attempts of a generator all leave a suffix of [s0]. *)
Definition within_stream (s0 : stream) (g : attempts) : Prop :=
  forall r s', In (r, s') (yielded g) -> suffix_of s' s0.

(** The invariant of the stack of [And.__call__]: what the generators on
    the stack still yield is within the stream, and the matchers still to
    come preserve suffixes. *)
Definition And_frame_ok (s0 : stream) (frame : And_frame) : Prop :=
  let '(_, generator_, matchers) := frame in
  within_stream s0 generator_ /\ Forall suffix_preserving matchers.

(** The invariant of the stack of [Repeat.__depth_first]. *)
Definition Repeat_frame_ok (s0 : stream) (frame : Repeat_frame) : Prop :=
  let '(_, _, stream1, generator_) := frame in
  suffix_of stream1 s0 /\ within_stream s0 generator_.

(** The stream of what [__with_depth] yields or queues is within [s0]. *)
Definition counted_within (s0 : stream) (c : counted) : Prop :=
  suffix_of (snd c) s0.

(** What [__with_depth] builds from one attempt of the child. *)
Definition extend (count2 : Z) (acc1 : result) (found : attempt) : counted :=
  (count2, acc1 ++ fst found, snd found).

(** The number of occurrences of what [__with_depth] yields, and the
    attempt that [__breadth_first] and [__exhaustive] make of it. *)
Definition count_of (c : counted) : Z := fst (fst c).

Definition counts (found : list counted) : list Z := map count_of found.

Definition strip (c : counted) : attempt := (snd (fst c), snd c).

(** The entries of the dictionary [all], key by key, each attempt with
    the key it is filed under. *)
Definition tagged (all : list (Z * list attempt)) : list counted :=
  flat_map (fun '(depth, values) =>
              map (fun a : attempt => (depth, fst a, snd a)) values)
           all.

(** A function given to [KApply] with [raw=True] returns the attempt
    itself; it keeps within the stream when the stream it returns is a
    suffix of [stream_out]. *)
Definition raw_keeps_suffix (function : kargs -> exn + attempt) : Prop :=
  forall k r s', function k = inr (r, s') -> suffix_of s' (stream_out k).

(** The matchers built from the classes of the module: [Any], [Literal],
    [Empty], [Regexp], [And], [Or], [Repeat], [Lookahead], [Apply],
    [KApply] and [Delayed], with any functions and parameters, except
    that a function given to [KApply] with [raw=True] keeps within the
    stream.  The functions of the module build their matchers from these
    classes. *)
Inductive library_matcher : matcher -> Prop :=
| lib_Any restrict : library_matcher (Any restrict)
| lib_Literal text_ : library_matcher (Literal text_)
| lib_Empty : library_matcher Empty
| lib_Regexp pattern_ : library_matcher (Regexp pattern_)
| lib_And fuel ms :
    (forall a, In a ms -> library_matcher (coerce a)) ->
    library_matcher (And fuel ms)
| lib_Or ms :
    (forall a, In a ms -> library_matcher (coerce a)) ->
    library_matcher (Or ms)
| lib_Repeat fuel m start stop direction separator repeat_ :
    library_matcher (coerce m) ->
    (forall a, separator = Some a -> library_matcher (coerce a)) ->
    Repeat fuel m start stop direction separator = inr repeat_ ->
    library_matcher repeat_
| lib_Lookahead m negated :
    library_matcher (coerce m) ->
    library_matcher (Lookahead m negated)
| lib_Apply m raw function args :
    library_matcher (coerce m) ->
    library_matcher (Apply m raw function args)
| lib_KApply m function :
    library_matcher (coerce m) ->
    library_matcher (KApply m false function)
| lib_KApply_raw m function :
    library_matcher (coerce m) ->
    raw_keeps_suffix function ->
    library_matcher (KApply m true function)
| lib_Delayed_unbound : library_matcher (Delayed_call Delayed_init)
| lib_Delayed_bound m bound :
    library_matcher (coerce m) ->
    Delayed_iadd Delayed_init m = inr bound ->
    library_matcher (Delayed_call bound).

(* ================================================================= *)
(** ** lepl.support: FastFifo and CircularFifo *)

(** The exceptions of list indexing and of [%]. *)
Inductive support_error : Type :=
| IndexError
| ZeroDivisionError.

(** [l.pop(-1)]: the last element and the list without it. *)
Definition list_pop_last (l : list value)
  : support_error + (value * list value) :=
  match rev l with
  | [] => inl IndexError
  | last_ :: others => inr (last_, rev others)
  end.

(** The position that [l[i]] reads or writes: a negative index counts
    from the end, and an index outside the list is an [IndexError]. *)
Definition list_position (l : list value) (i : Z) : support_error + nat :=
  let n := Z.of_nat (List.length l) in
  let j := if i <? 0 then i + n else i in
  if (0 <=? j) && (j <? n) then inr (Z.to_nat j) else inl IndexError.

(** [l[i]] *)
Definition list_getitem (l : list value) (i : Z) : support_error + value :=
  match list_position l i with
  | inl e => inl e
  | inr j => inr (nth j l VNone)
  end.

Fixpoint list_update (j : nat) (v : value) (l : list value) : list value :=
  match l, j with
  | [], _ => []
  | _ :: rest, O => v :: rest
  | x :: rest, S j' => x :: list_update j' v rest
  end.

(** [l[i] = v] *)
Definition list_setitem (l : list value) (i : Z) (v : value)
  : support_error + list value :=
  match list_position l i with
  | inl e => inl e
  | inr j => inr (list_update j v l)
  end.

(** [a % b] *)
Definition py_mod (a b : Z) : support_error + Z :=
  if b =? 0 then inl ZeroDivisionError else inr (a mod b).

(** [FastFifo]: the two lists [__front] and [__back]. *)
Record FastFifo : Type := FastFifoObj {
  ff_front : list value;
  ff_back : list value
}.

(** [FastFifo.__init__] *)
Definition FastFifo_init : FastFifo := FastFifoObj [] [].

(** [FastFifo.append] *)
Definition FastFifo_append (self : FastFifo) (value_ : value) : FastFifo :=
  FastFifoObj (ff_front self ++ [value_]) (ff_back self).

(** [FastFifo.pop]: the value and the queue afterwards.  When it raises
    for an empty queue, both lists are empty, as they were. *)
Definition FastFifo_pop (self : FastFifo) (index : Z)
  : support_error + (value * FastFifo) :=
  if negb (index =? 0) then inl IndexError
  else
    let self :=
      match ff_back self with
      | [] => FastFifoObj [] (rev (ff_front self))
      | _ :: _ => self
      end in
    match list_pop_last (ff_back self) with
    | inl e => inl e
    | inr (popped, back) => inr (popped, FastFifoObj (ff_front self) back)
    end.

(** [FastFifo.__len__] *)
Definition FastFifo_len (self : FastFifo) : Z :=
  Z.of_nat (List.length (ff_front self)) + Z.of_nat (List.length (ff_back self)).

(** What a [FastFifo] holds, the oldest value first. *)
Definition FastFifo_contents (self : FastFifo) : list value :=
  rev (ff_back self) ++ ff_front self.

(** [CircularFifo]: [__size], [__next] and [__buffer]. *)
Record CircularFifo : Type := CircularFifoObj {
  cf_size : Z;
  cf_next : Z;
  cf_buffer : list value
}.

(** What a method of [CircularFifo] does: it raises or returns, and
    leaves the object in some state. *)
Inductive cf_outcome (A : Type) : Type :=
| CfRaise (e : support_error) (self : CircularFifo)
| CfReturn (a : A) (self : CircularFifo).
Arguments CfRaise {A} _ _.
Arguments CfReturn {A} _ _.

(** [CircularFifo.__init__]: [[None] * size] is empty for a negative
    size. *)
Definition CircularFifo_init (size : Z) : CircularFifo :=
  CircularFifoObj 0 0 (repeat VNone (Z.to_nat size)).

(** [CircularFifo.append] *)
Definition CircularFifo_append (self : CircularFifo) (value_ : value)
  : cf_outcome value :=
  let capacity := Z.of_nat (List.length (cf_buffer self)) in
  let after_test :=
    if cf_size self =? capacity then
      match list_getitem (cf_buffer self) (cf_next self) with
      | inl e => inl e
      | inr dropped => inr (dropped, self)
      end
    else
      inr (VNone,
           CircularFifoObj (cf_size self + 1) (cf_next self) (cf_buffer self)) in
  match after_test with
  | inl e => CfRaise e self
  | inr (dropped, self) =>
      match list_setitem (cf_buffer self) (cf_next self) value_ with
      | inl e => CfRaise e self
      | inr buffer =>
          let self := CircularFifoObj (cf_size self) (cf_next self) buffer in
          match py_mod (cf_next self + 1) capacity with
          | inl e => CfRaise e self
          | inr next_ =>
              CfReturn dropped (CircularFifoObj (cf_size self) next_ buffer)
          end
      end
  end.

(** [CircularFifo.pop] *)
Definition CircularFifo_pop (self : CircularFifo) (index : Z)
  : cf_outcome value :=
  if negb (index =? 0) then CfRaise IndexError self
  else if cf_size self <? 1 then CfRaise IndexError self
  else
    match py_mod (cf_next self - cf_size self)
                 (Z.of_nat (List.length (cf_buffer self))) with
    | inl e => CfRaise e self
    | inr i =>
        match list_getitem (cf_buffer self) i with
        | inl e => CfRaise e self
        | inr popped =>
            CfReturn popped
              (CircularFifoObj (cf_size self - 1) (cf_next self)
                               (cf_buffer self))
        end
    end.

(** [CircularFifo.__len__] *)
Definition CircularFifo_len (self : CircularFifo) : Z :=
  Z.of_nat (List.length (cf_buffer self)).

(** The [for _ in range(self.__size)] loop of [CircularFifo.__iter__]:
    what it yields and the exception that ends it, if any. *)
Fixpoint CircularFifo_iter_loop (count : nat) (buffer : list value)
    (capacity index : Z) : list value * option support_error :=
  match count with
  | O => ([], None)
  | S count' =>
      match list_getitem buffer index with
      | inl e => ([], Some e)
      | inr v =>
          match py_mod (index + 1) capacity with
          | inl e => ([v], Some e)
          | inr index' =>
              let (later, e) :=
                CircularFifo_iter_loop count' buffer capacity index' in
              (v :: later, e)
          end
      end
  end.

(** [CircularFifo.__iter__], run to its end on an object that is not
    changed meanwhile. *)
Definition CircularFifo_iter (self : CircularFifo)
  : list value * option support_error :=
  let capacity := Z.of_nat (List.length (cf_buffer self)) in
  match py_mod (cf_next self - cf_size self) capacity with
  | inl e => ([], Some e)
  | inr index =>
      CircularFifo_iter_loop (Z.to_nat (cf_size self)) (cf_buffer self)
                             capacity index
  end.

(** The appends of a list of values, one after the other; [None] when
    one of them raises. *)
Fixpoint CircularFifo_appends (self : CircularFifo) (values : list value)
  : option CircularFifo :=
  match values with
  | [] => Some self
  | v :: rest =>
      match CircularFifo_append self v with
      | CfReturn _ self' => CircularFifo_appends self' rest
      | CfRaise _ _ => None
      end
  end.

(** The state that the methods of [CircularFifo] keep, from a
    construction with a positive size on: the indices are within the
    buffer and the size is at most the capacity. *)
Definition CircularFifo_ok (self : CircularFifo) : Prop :=
  let capacity := Z.of_nat (List.length (cf_buffer self)) in
  0 < capacity
  /\ 0 <= cf_next self < capacity
  /\ 0 <= cf_size self <= capacity.

(** What a [CircularFifo] holds, the oldest value first: the [__size]
    slots of the buffer that end before [__next]. *)
Definition CircularFifo_slot (self : CircularFifo) (i : nat) : value :=
  nth (Z.to_nat ((cf_next self - cf_size self + Z.of_nat i)
                 mod Z.of_nat (List.length (cf_buffer self))))
      (cf_buffer self) VNone.

Definition CircularFifo_contents (self : CircularFifo) : list value :=
  map (CircularFifo_slot self) (seq 0 (Z.to_nat (cf_size self))).

(** The last [n] elements of a list. *)
Definition last_n (n : nat) (l : list value) : list value :=
  skipn (List.length l - n) l.

(* ================================================================= *)
(** ** And as nested loops *)

(** What [And] yields through one frame [(result, generator, matchers)],
    written as nested loops: for each attempt of the generator, in order,
    what the remaining matchers yield on the stream it leaves, the
    results put end to end. *)
Fixpoint And_frame_attempts (matchers : list matcher) (result_ : result)
    (g : attempts) {struct matchers} : attempts :=
  (fix over (found : list attempt) : attempts :=
     match found with
     | [] => Gen [] (finish_of g)
     | (value_, stream_) :: rest =>
         then_
           match matchers with
           | [] => Gen [(result_ ++ value_, stream_)] Exhausted
           | next_matcher :: others =>
               match next_matcher stream_ with
               | Raised e => raising e
               | Returned g' =>
                   And_frame_attempts others (result_ ++ value_) g'
               end
           end
           (over rest)
     end) (yielded g).

(** The number of passes of the [while stack:] loop that a frame takes. *)
Fixpoint And_frame_steps (matchers : list matcher) (g : attempts)
    {struct matchers} : nat :=
  (fix over (found : list attempt) : nat :=
     match found with
     | [] => 1%nat
     | (_, stream_) :: rest =>
         (1 + match matchers with
              | [] => 0
              | next_matcher :: others =>
                  match next_matcher stream_ with
                  | Raised _ => 0
                  | Returned g' => And_frame_steps others g'
                  end
              end
          + over rest)%nat
     end) (yielded g).

Fixpoint And_stack_attempts (stack : list And_frame) : attempts :=
  match stack with
  | [] => exhausted
  | (result_, generator_, matchers) :: below =>
      then_ (And_frame_attempts matchers result_ generator_)
            (And_stack_attempts below)
  end.

Fixpoint And_stack_steps (stack : list And_frame) : nat :=
  match stack with
  | [] => 0%nat
  | (_, generator_, matchers) :: below =>
      (And_frame_steps matchers generator_ + And_stack_steps below)%nat
  end.

(** [And(m1, ..., mk)] on a stream, as nested loops over the attempts of
    [m1], of [m2] on what each of them leaves, and so on. *)
Definition And_attempts (matchers : list matcher) (stream : stream)
  : attempts :=
  match matchers with
  | [] => exhausted
  | first :: others =>
      match first stream with
      | Raised e => raising e
      | Returned g => And_frame_attempts others [] g
      end
  end.

Definition And_steps (matchers : list matcher) (stream : stream) : nat :=
  match matchers with
  | [] => 0%nat
  | first :: others =>
      match first stream with
      | Raised _ => 0%nat
      | Returned g => And_frame_steps others g
      end
  end.

(** The string of a value that is one, and the strings of a result put
    together, as [Add] joins them. *)
Definition text_of (v : value) : string :=
  match v with VStr s => s | _ => EmptyString end.

Definition joined (r : result) : result :=
  match r with
  | [] => []
  | _ :: _ => [VStr (fold_right String.append EmptyString (map text_of r))]
  end.

Definition is_VStr (v : value) : bool :=
  match v with VStr _ => true | _ => false end.

(** An object that cannot be called ([None] where a matcher is expected):
    calling it raises [TypeError]. *)
Definition not_callable : matcher := fun _ => Raised TypeError.

(** [AnyBut(exclude=None)]: [~Lookahead(coerce(exclude, Any)) + Any()].
    Without an argument, [coerce] hands [None] on to [Lookahead]. *)
Definition AnyBut (fuel : nat) (exclude : option marg) : matcher :=
  let excluded :=
    match exclude with
    | Some a => coerce_with (fun s => Any (Some s)) a
    | None => not_callable
    end in
  add_ fuel (Lookahead_invert (coerce (Match excluded)) false)
       (Match (Any None)).

(** [self._stop], when there is one, is not below [self._start], which
    is not negative, and [self._direction] is -1, 0 or 1. *)
Definition Repeat_obj_valid (self : Repeat_obj) : Prop :=
  0 <= _start self
  /\ (forall stop, _stop self = Some stop -> _start self <= stop)
  /\ Z.abs (_direction self) <= 1.

(** The chain that [__depth_first] follows when the child yields at most
    one attempt on each stream it is given: from the frame
    [(count, acc, stream)], the accumulated results and streams of the
    frames above it, the nearest first.  The chain ends where the child
    has no attempt. *)
Inductive Repeat_chain (self : Repeat_obj)
  : Z -> result -> stream -> list attempt -> Prop :=
| chain_end count acc s fin :
    Repeat_matcher self count s = Returned (Gen [] fin) ->
    fin <> Unfinished ->
    Repeat_chain self count acc s []
| chain_step count acc s value_ s' fin rest :
    Repeat_matcher self count s = Returned (Gen [(value_, s')] fin) ->
    fin <> Unfinished ->
    Repeat_chain self (count + 1) (acc ++ value_) s' rest ->
    Repeat_chain self count acc s ((acc ++ value_, s') :: rest).

(** The attempts of a chain of single tokens, the shortest first: after
    [taken], each further token of [tokens] in turn, with the stream
    that is left ([rest] follows the tokens). *)
Fixpoint token_chain (taken tokens rest : string) (c : option core_handle)
  : list attempt :=
  match tokens with
  | EmptyString => []
  | String head tokens' =>
      let taken' := (taken ++ String head EmptyString)%string in
      (chars_of taken', Stream (tokens' ++ rest) c)
        :: token_chain taken' tokens' rest c
  end.

(** The same attempts, the tokens of each joined into one string. *)
Fixpoint prefix_chain (taken tokens rest : string) (c : option core_handle)
  : list attempt :=
  match tokens with
  | EmptyString => []
  | String head tokens' =>
      let taken' := (taken ++ String head EmptyString)%string in
      ([VStr taken'], Stream (tokens' ++ rest) c)
        :: prefix_chain taken' tokens' rest c
  end.

(** Every token of [tokens] is in [allowed]. *)
Fixpoint all_in (allowed tokens : string) : bool :=
  match tokens with
  | EmptyString => true
  | String head tokens' => char_in head allowed && all_in allowed tokens'
  end.

(** [rest] does not start with a token of [allowed]. *)
Definition starts_outside (allowed rest : string) : bool :=
  match rest with
  | EmptyString => true
  | String head _ => negb (char_in head allowed)
  end.

(* ================================================================= *)
(** ** lepl.custom: Namespace *)

(** A dictionary with string keys, in the order of insertion. *)
Definition pydict : Type := list (string * value).

(** [d.get(name)] *)
Fixpoint dict_get (d : pydict) (name : string) : option value :=
  match d with
  | [] => None
  | (key, v) :: rest => if String.eqb key name then Some v else dict_get rest name
  end.

(** [d[name] = value] *)
Fixpoint dict_set (d : pydict) (name : string) (value_ : value) : pydict :=
  match d with
  | [] => [(name, value_)]
  | (key, v) :: rest =>
      if String.eqb key name then (key, value_) :: rest
      else (key, v) :: dict_set rest name value_
  end.

(** [Namespace]: the list [__stack] of dictionaries; the head of the
    list is the top of the stack ([__stack[-1]]).  [dict(...)] copies, so
    the frames share nothing. *)
Definition Namespace : Type := list pydict.

(** [Namespace.__init__] *)
Definition Namespace_init : Namespace := [[]].

(** [Namespace.current] *)
Definition Namespace_current (self : Namespace) : support_error + pydict :=
  match self with
  | [] => inl IndexError
  | top :: _ => inr top
  end.

(** [Namespace.set] *)
Definition Namespace_set (self : Namespace) (name : string) (value_ : value)
  : support_error + Namespace :=
  match self with
  | [] => inl IndexError
  | top :: below => inr (dict_set top name value_ :: below)
  end.

(** [Namespace.set_opt] *)
Definition Namespace_set_opt (self : Namespace) (name : string) (value_ : value)
  : support_error + Namespace :=
  match value_ with
  | VNone => inr self
  | _ => Namespace_set self name value_
  end.

(** The [for name in extra:] loop of [Namespace.push]. *)
Fixpoint Namespace_push_loop (self : Namespace) (extra : pydict)
    (names : list string) : support_error + Namespace :=
  match names with
  | [] => inr self
  | name :: rest =>
      match Namespace_set_opt self name
              (match dict_get extra name with Some v => v | None => VNone end)
      with
      | inl e => inl e
      | inr self' => Namespace_push_loop self' extra rest
      end
  end.

(** [Namespace.push] *)
Definition Namespace_push (self : Namespace) (extra : pydict)
  : support_error + Namespace :=
  match Namespace_current self with
  | inl e => inl e
  | inr top => Namespace_push_loop (top :: self) extra (map fst extra)
  end.

(** [Namespace.pop] *)
Definition Namespace_pop (self : Namespace) : support_error + Namespace :=
  match self with
  | [] => inl IndexError
  | _ :: below => inr below
  end.

(** [Namespace.get] *)
Definition Namespace_get (self : Namespace) (name : string) (default : value)
  : support_error + value :=
  match Namespace_current self with
  | inl e => inl e
  | inr top =>
      inr match dict_get top name with Some v => v | None => default end
  end.

(** Some calls of [set], one after the other. *)
Fixpoint Namespace_sets (self : Namespace) (updates : list (string * value))
  : support_error + Namespace :=
  match updates with
  | [] => inr self
  | (name, v) :: rest =>
      match Namespace_set self name v with
      | inl e => inl e
      | inr self' => Namespace_sets self' rest
      end
  end.

(** What [push(extra)] asks for under [name]: the value of [extra], when
    there is one and it is not [None]. *)
Definition requested (extra : pydict) (name : string) : option value :=
  match dict_get extra name with
  | Some VNone | None => None
  | Some v => Some v
  end.

(** What the loop of [__with_depth] makes of one entry of its queue: the
    attempts of the child on the stream of the entry, each with the count
    of the entry plus one and the results of the entry in front. *)
Definition Repeat_expand (self : Repeat_obj) (entry : counted) : list counted :=
  let '(count1, acc1, stream1) := entry in
  map (extend (count1 + 1) acc1)
      (yielded (iter (Repeat_matcher self count1 stream1))).

(** Those of them that are yielded, and those that are queued. *)
Definition Repeat_yields_of (self : Repeat_obj) (entry : counted)
  : list counted :=
  if within self (count_of entry + 1) then Repeat_expand self entry else [].

Definition Repeat_queues_of (self : Repeat_obj) (entry : counted)
  : list counted :=
  if below_stop self (count_of entry + 1) then Repeat_expand self entry else [].

(** The child comes to an end on the stream of the entry. *)
Definition Repeat_child_ends (self : Repeat_obj) (entry : counted) : Prop :=
  let '(count1, _, stream1) := entry in
  finish_of (iter (Repeat_matcher self count1 stream1)) = Exhausted.

(** Level by level: what is yielded in [levels] rounds from a queue, each
    round going through the whole queue, in order, and collecting the
    queue of the next round. *)
Fixpoint Repeat_levels (levels : nat) (self : Repeat_obj)
    (queue : list counted) : list counted :=
  match levels with
  | O => []
  | S levels' =>
      flat_map (Repeat_yields_of self) queue
      ++ Repeat_levels levels' self (flat_map (Repeat_queues_of self) queue)
  end.

(** The queue after [levels] rounds, the number of entries gone through,
    and the condition that the child ends on each of them. *)
Fixpoint Repeat_frontier (levels : nat) (self : Repeat_obj)
    (queue : list counted) : list counted :=
  match levels with
  | O => queue
  | S levels' =>
      Repeat_frontier levels' self (flat_map (Repeat_queues_of self) queue)
  end.

Fixpoint Repeat_visited (levels : nat) (self : Repeat_obj)
    (queue : list counted) : nat :=
  match levels with
  | O => 0%nat
  | S levels' =>
      (List.length queue
       + Repeat_visited levels' self (flat_map (Repeat_queues_of self) queue))%nat
  end.

Fixpoint Repeat_children_end (levels : nat) (self : Repeat_obj)
    (queue : list counted) : Prop :=
  match levels with
  | O => True
  | S levels' =>
      Forall (Repeat_child_ends self) queue
      /\ Repeat_children_end levels' self
           (flat_map (Repeat_queues_of self) queue)
  end.

(** [Word(chars, body=None)] for strings or matchers as arguments:
    [chars + body[0:,...]]. *)
Definition Word (fuel : nat) (chars : marg) (body : option marg)
  : exn + matcher :=
  let chars := coerce_with (fun s => Any (Some s)) chars in
  let body :=
    match body with
    | None => chars
    | Some b => coerce_with (fun s => Any (Some s)) b
    end in
  do rest <- getitem fuel body [ISlice (PInt 0) PNone PNone; IEllipsis];
  inr (add_ fuel chars (Match rest)).

(* ================================================================= *)
(** * Properties *)

(** ** Generators *)

Lemma then_exhausted_l {A} (k : generator A) : then_ exhausted k = k.
Proof. destruct k; reflexivity. Qed.

Lemma then_exhausted_r {A} (g : generator A) : then_ g exhausted = g.
Proof.
  destruct g as [ys [ | e | ]]; unfold then_; simpl;
    try rewrite app_nil_r; reflexivity.
Qed.

Lemma yielded_then_incl {A} (g k : generator A) (a : A) :
  In a (yielded (then_ g k)) -> In a (yielded g) \/ In a (yielded k).
Proof.
  unfold then_; destruct (finish_of g); simpl; intros H.
  - apply in_app_or in H; exact H.
  - left; exact H.
  - left; exact H.
Qed.

Lemma coerce_Match (m : matcher) : coerce (Match m) = m.
Proof. reflexivity. Qed.

Lemma map_coerce_Match (ms : list matcher) : map coerce (map Match ms) = ms.
Proof.
  induction ms as [ | m ms IH]; simpl; [reflexivity | now rewrite IH].
Qed.

(* ================================================================= *)
(** ** And with no children *)

(** C1, as the code has it: for every stream, [And()] yields no attempt;
    the body of [__call__] is guarded by [if self.__matchers:]. *)
Theorem And_empty_no_attempt (fuel : nat) (s : stream) :
  And fuel [] s = Returned exhausted
  /\ yielded (run (And fuel []) s) = []
  /\ finish_of (run (And fuel []) s) = Exhausted.
Proof. repeat split. Qed.

(** C1, as stated, fails: on the stream "abc", [And()] does not yield
    the one attempt [([], "abc")]. *)
Lemma And_empty_not_one_attempt :
  yielded (run (And 5 []) (plain "abc")) <> [([], plain "abc")].
Proof. simpl; discriminate. Qed.

(* ================================================================= *)
(** ** Any with an empty restriction *)

(** C9: on a stream that starts with the token [head], [Any('')] yields
    the one attempt [([head], stream[1:])], and on every stream [Any('')]
    does what [Any()] does. *)
Theorem Any_empty_restriction (head : ascii) (rest : string)
    (c : option core_handle) :
  run (Any (Some EmptyString)) (Stream (String head rest) c)
  = Gen [([VStr (String head EmptyString)], Stream rest c)] Exhausted
  /\ from 1 (Stream (String head rest) c) = Stream rest c
  /\ forall s : stream, Any (Some EmptyString) s = Any None s.
Proof.
  repeat split.
Qed.

(* ================================================================= *)
(** ** Lookahead *)

Lemma Lookahead_attempts_all (child : marg) (negated : bool) (s : stream)
    (r : result) (s' : stream) :
  In (r, s') (yielded (run (Lookahead child negated) s)) -> r = [] /\ s' = s.
Proof.
  unfold Lookahead, Lookahead_call, managed, run; simpl.
  destruct (iter (coerce child s)) as [ys fin]; unfold next; simpl.
  destruct ys; simpl; [destruct fin | ]; destruct negated; simpl;
    intros H; try contradiction; destruct H as [H | []];
    injection H as <- <-; split; reflexivity.
Qed.

(** C6: [Lookahead(child)] yields [([], s)] once if the child has an
    attempt on [s] and nothing if the child is exhausted without one;
    negated, it yields nothing in the first case and [([], s)] once in
    the second; whatever it yields leaves the stream as it was. *)
Theorem Lookahead_attempts (child : marg) (s : stream) :
  (yielded (run (coerce child) s) <> [] ->
     run (Lookahead child false) s = Gen [([], s)] Exhausted
     /\ run (Lookahead child true) s = Gen [] Exhausted)
  /\ (run (coerce child) s = Gen [] Exhausted ->
     run (Lookahead child false) s = Gen [] Exhausted
     /\ run (Lookahead child true) s = Gen [([], s)] Exhausted)
  /\ (forall negated r s',
        In (r, s') (yielded (run (Lookahead child negated) s)) ->
        r = [] /\ s' = s).
Proof.
  split; [ | split; [ | intros negated r s'; apply Lookahead_attempts_all]].
  all: unfold Lookahead, Lookahead_call, managed, run; simpl.
  all: destruct (iter (coerce child s)) as [ys fin] eqn:E.
  all: intros H; split.
  - destruct ys; simpl in *; [congruence | reflexivity].
  - destruct ys; simpl in *; [congruence | reflexivity].
  - injection H as -> ->; reflexivity.
  - injection H as -> ->; reflexivity.
Qed.

Lemma Lookahead_attempts_witness :
  run (Lookahead (Text "ab") false) (plain "abc") = Gen [([], plain "abc")] Exhausted
  /\ run (Lookahead (Text "ab") true) (plain "abc") = Gen [] Exhausted
  /\ run (Lookahead (Text "x") false) (plain "abc") = Gen [] Exhausted
  /\ run (Lookahead (Text "x") true) (plain "abc") = Gen [([], plain "abc")] Exhausted.
Proof.
  destruct (Lookahead_attempts (Text "ab") (plain "abc")) as [Hsome _].
  destruct (Lookahead_attempts (Text "x") (plain "abc")) as [_ [Hnone _]].
  destruct Hsome as [H1 H2]; [simpl; discriminate | ].
  destruct Hnone as [H3 H4]; [reflexivity | ].
  repeat split; assumption.
Defined.

(* ================================================================= *)
(** ** Or *)

Lemma Or_call_from_app (ms1 ms2 : list matcher) (s : stream) :
  finish_of (Or_call_from ms1 s) = Exhausted ->
  Or_call_from (ms1 ++ ms2) s
  = Gen (yielded (Or_call_from ms1 s) ++ yielded (Or_call_from ms2 s))
        (finish_of (Or_call_from ms2 s)).
Proof.
  induction ms1 as [ | m ms1 IH]; simpl.
  - intros _; destruct (Or_call_from ms2 s); reflexivity.
  - unfold then_ at 1 2 3.
    destruct (finish_of (iter (m s))) eqn:Em; simpl; try discriminate.
    intros Hfin; rewrite (IH Hfin); simpl.
    now rewrite app_assoc.
Qed.

Lemma Or_call_from_all (ms : list matcher) (s : stream) :
  (forall m, In m ms -> finish_of (run m s) = Exhausted) ->
  Or_call_from ms s = Gen (flat_map (fun m => yielded (run m s)) ms) Exhausted.
Proof.
  induction ms as [ | m ms IH]; simpl; intros Hall.
  - reflexivity.
  - rewrite IH by (intros m' Hm'; apply Hall; now right).
    unfold then_; fold (run m s); rewrite (Hall m) by now left.
    reflexivity.
Qed.

(** C5: when every alternative is exhausted on [s], [Or(m1, ..., mk)]
    yields on [s] the attempts of [m1] on [s], then those of [m2] on [s],
    and so on to [mk], and is then exhausted; the attempts of the
    alternatives in front come before those of the alternatives behind;
    and [Or(m)] has the attempts of [m], ending as [m] ends. *)
Theorem Or_attempts_in_order :
  (forall (ms : list marg) (s : stream),
      (forall a, In a ms -> finish_of (run (coerce a) s) = Exhausted) ->
      run (Or ms) s
      = Gen (flat_map (fun a => yielded (run (coerce a) s)) ms) Exhausted)
  /\ (forall (ms1 ms2 : list marg) (s : stream),
      finish_of (run (Or ms1) s) = Exhausted ->
      yielded (run (Or (ms1 ++ ms2)) s)
      = yielded (run (Or ms1) s) ++ yielded (run (Or ms2) s))
  /\ (forall (m : marg) (s : stream), run (Or [m]) s = run (coerce m) s).
Proof.
  split; [ | split].
  - intros ms s Hall; unfold Or, Or_call, managed, run; simpl.
    rewrite Or_call_from_all.
    + now rewrite flat_map_concat_map, map_map, <- flat_map_concat_map.
    + intros m Hm; apply in_map_iff in Hm as [a [<- Ha]]; now apply Hall.
  - intros ms1 ms2 s; unfold Or, Or_call, managed, run; simpl.
    intros Hfin; rewrite map_app, Or_call_from_app by exact Hfin.
    reflexivity.
  - intros m s; unfold Or, Or_call, managed, run; simpl.
    apply then_exhausted_r.
Qed.

Lemma Or_attempts_in_order_witness :
  run (Or [Text "a"; Match (Any None); Text "ab"]) (plain "abc")
  = Gen [([VStr "a"], plain "bc"); ([VStr "a"], plain "bc");
         ([VStr "ab"], plain "c")] Exhausted
  /\ yielded (run (Or ([Text "a"] ++ [Text "ab"])) (plain "abc"))
     = [([VStr "a"], plain "bc")] ++ [([VStr "ab"], plain "c")].
Proof.
  destruct Or_attempts_in_order as [Hall [Hsplit _]].
  split.
  - rewrite Hall; [reflexivity | ].
    intros a [<- | [<- | [<- | []]]]; reflexivity.
  - rewrite Hsplit; reflexivity.
Defined.

(* ================================================================= *)
(** ** KApply on a stream without a core *)

Lemma for_yield_all {A B} (body : A -> exn + B) (out : A -> B)
    (items : list A) (fin : finish) :
  (forall a, In a items -> body a = inr (out a)) ->
  for_yield body items fin = Gen (map out items) fin.
Proof.
  induction items as [ | a items IH]; simpl; intros Hall.
  - reflexivity.
  - rewrite (Hall a) by now left.
    rewrite IH by (intros a' Ha'; apply Hall; now right).
    reflexivity.
Qed.

(** C10: on a stream without a core, [KApply(m, f)] calls [f] with
    [core=None] for each attempt of [m]; when those calls of [f] return,
    [KApply(m, f)] yields one attempt [([f(...)], stream_out)] for each
    attempt of [m], in the same order, and ends as [m] ends: the missing
    [core] attribute raises nothing. *)
Theorem KApply_without_core (m : marg) (f : kargs -> exn + value)
    (s : stream) (found : list attempt) (fin : finish) :
  core s = None ->
  run (coerce m) s = Gen found fin ->
  (forall r s', In (r, s') found ->
     exists v, f (Kargs s None s' r) = inr v) ->
  run (KApply m false f) s
  = Gen (map (fun '(r, s') => ([returned_value (f (Kargs s None s' r))], s'))
             found)
        fin.
Proof.
  intros Hcore Hrun Hf.
  unfold KApply, KApply_call, managed, run in *; simpl.
  unfold getattr_core; rewrite Hcore, Hrun; unfold for_in; simpl.
  apply for_yield_all.
  intros [r s'] Hin; destruct (Hf r s' Hin) as [v Hv]; rewrite Hv.
  reflexivity.
Qed.

Lemma KApply_without_core_witness :
  run (KApply (Text "ab") false
         (fun k => inr (match karg_core k with
                        | None => VStr "no core"
                        | Some _ => VStr "core"
                        end)))
      (plain "abc")
  = Gen [([VStr "no core"], plain "c")] Exhausted.
Proof.
  exact (KApply_without_core (Text "ab")
           (fun k => inr (match karg_core k with
                          | None => VStr "no core"
                          | Some _ => VStr "core"
                          end))
           (plain "abc") [([VStr "ab"], plain "c")] Exhausted
           eq_refl eq_refl
           (fun r s' _ => ex_intro _ (VStr "no core") eq_refl)).
Defined.

(* ================================================================= *)
(** ** The constructor of Repeat *)

(** C7: [Repeat.__init__] raises exactly when the parameters are
    invalid; otherwise it returns the object with the parameters it was
    given, which then satisfy [start >= 0], [stop >= start] when there is
    a stop, and [|direction| <= 1].  All checks are in the constructor. *)
Theorem Repeat_init_raises_iff_invalid (fuel : nat) (m : marg)
    (start stop direction : pyarg) (separator : option marg) :
  ((exists e, Repeat_init fuel m start stop direction separator = inl e)
   <-> Repeat_invalid start stop direction = true)
  /\ (Repeat_invalid start stop direction = false ->
      exists self,
        Repeat_init fuel m start stop direction separator = inr self
        /\ _start self = int_of start 0
        /\ _stop self = match stop with PInt z => Some z | _ => None end
        /\ _direction self = int_of direction 0
        /\ 0 <= _start self
        /\ (forall z, _stop self = Some z -> _start self <= z)
        /\ Z.abs (_direction self) <= 1).
Proof.
  unfold Repeat_init, Repeat_invalid, Repeat_wrong_type, assert_type.
  destruct start as [ | a | a | a a'], stop as [ | b | b | b b'],
      direction as [ | d | d | d d']; simpl;
    try (split; [split; [intros _; reflexivity
                        | intros _; eexists; reflexivity]
                | discriminate]);
    rewrite ?orb_false_r;
    repeat match goal with
    | |- context [?x <? ?y] => destruct (Z.ltb_spec x y)
    | |- context [?x >? ?y] =>
        let E := fresh "E" in
        destruct (x >? y) eqn:E;
        [apply Z.gtb_gt in E | rewrite Z.gtb_ltb in E; apply Z.ltb_ge in E]
    end; simpl;
    (split;
     [split; [intros [e He]; first [reflexivity | discriminate]
             | intros He; first [discriminate | eexists; reflexivity]]
     | intros He;
       first [discriminate
             | eexists; (split; [reflexivity | ]); simpl;
               repeat split; try lia;
               try (intros z Hz;
                    first [discriminate | injection Hz as <-; lia])]]).
Qed.

Lemma Repeat_init_raises_iff_invalid_witness :
  (exists e, Repeat_init 3 (Text "a") (PInt 2) (PInt 1) (PInt 0) None = inl e)
  /\ exists self,
       Repeat_init 3 (Text "a") PNone (PInt 4) (PInt (-1)) None = inr self
       /\ _start self = 0 /\ _stop self = Some 4 /\ _direction self = -1.
Proof.
  split.
  - apply (proj1 (Repeat_init_raises_iff_invalid 3 (Text "a")
                    (PInt 2) (PInt 1) (PInt 0) None)).
    reflexivity.
  - destruct (proj2 (Repeat_init_raises_iff_invalid 3 (Text "a")
                       PNone (PInt 4) (PInt (-1)) None) eq_refl)
      as [self [H1 [H2 [H3 [H4 _]]]]].
    exists self; repeat split; assumption.
Defined.

(* ================================================================= *)
(** ** Repeat, depth first *)

(** C2, on the code: with [start = 0], [stop = 0] and [direction = 0],
    and whatever the child and the stream, [Repeat] yields no attempt and
    ends in an exception.  In [__depth_first] the first pass of the loop
    skips the assignment of [count2] (because [count1 < self._stop]
    fails) and then reads [count2]: an [UnboundLocalError], unless the
    call of the child has raised before.  For instance [Any()[0:0]] on
    the stream "a". *)
Theorem Repeat_zero_zero_depth_first_raises (fuel fuel' : nat) (m : marg)
    (separator : option marg) (s : stream) :
  (exists self,
     Repeat_init fuel m (PInt 0) (PInt 0) (PInt 0) separator = inr self
     /\ yielded (run (Repeat_call (S fuel') self) s) = []
     /\ (finish_of (run (Repeat_call (S fuel') self) s)
         = Raises UnboundLocalError
         \/ exists e,
              coerce m s = Raised e
              /\ finish_of (run (Repeat_call (S fuel') self) s) = Raises e))
  /\ run_of (Repeat 5 (Match (Any None)) (PInt 0) (PInt 0) (PInt 0) None)
            (plain "a")
     = inr (raising UnboundLocalError).
Proof.
  split; [ | reflexivity].
  eexists; split; [reflexivity | ].
  unfold Repeat_call, managed, run; simpl.
  unfold Repeat_depth_first, Repeat_matcher; simpl.
  destruct (coerce m s) as [e | g]; simpl.
  - split; [reflexivity | right; exists e; split; reflexivity].
  - split; [reflexivity | left; reflexivity].
Qed.

(** C4, on the code: [Any()[1:1:0]], that is [Repeat(Any(), 1, 1, 0)], on
    the stream "a" yields the attempt with one occurrence and then an
    attempt with none; [__depth_first] tests [count2], the count of the
    frame it would push, when it yields the frame of [count1].  With the
    bounds [2, 2] on the empty stream the loop neither yields nor pops,
    and with [0, 0] it raises. *)
Theorem Repeat_exactly_depth_first_off_by_one :
  run_of (Repeat 10 (Match (Any None)) (PInt 1) (PInt 1) (PInt 0) None)
         (plain "a")
  = inr (Gen [([VStr "a"], plain ""); ([], plain "a")] Exhausted)
  /\ (forall fuel,
        run_of (Repeat fuel (Match (Any None)) (PInt 2) (PInt 2) (PInt 0) None)
               (plain "")
        = inr unfinished).
Proof.
  split; [reflexivity | ].
  intros fuel; unfold run_of, Repeat; simpl; f_equal.
  unfold Repeat_call, managed, run; simpl.
  unfold Repeat_depth_first; simpl.
  generalize (@None Z) at 1.
  induction fuel as [ | fuel IH]; intros c2; [reflexivity | ].
  simpl. unfold within; simpl. apply IH.
Qed.

(* ================================================================= *)
(** ** SignedEFloat *)

(** C3, on the code: on every stream [SignedEFloat()] yields no attempt
    and raises [TypeError].  Its first child in [And] is the function
    [SignedFloat] itself; [And.__call__] calls it with the stream, gets a
    matcher back and asks it for [next].  On "-1.5e3" in particular there
    is no attempt ["-1.5e3"]. *)
Theorem SignedEFloat_raises_TypeError (fuel : nat)
    (decimal exponent : option string) (s : stream) :
  run_of (SignedEFloat (S fuel) decimal exponent) s = inr (raising TypeError)
  /\ run_of (SignedEFloat 50 (Some ".") (Some "eE"))%string (plain "-1.5e3")
     = inr (raising TypeError).
Proof.
  split; reflexivity.
Qed.

(** The matcher that the docstring describes does match "-1.5e3", and
    what it yields first is the shorter ["-1."]: the first alternative of
    [UnsignedFloat] is an integer and an optional decimal point. *)
Lemma SignedEFloat_spec_first_attempt :
  option_map (fun g : attempts => hd_error (yielded g))
    (match run_of (SignedEFloat_spec 100 (Some ".") (Some "eE"))%string
                  (plain "-1.5e3") with
     | inr g => Some g
     | inl _ => None
     end)
  = Some (Some ([VStr "-1."], plain "5e3")).
Proof. vm_compute. reflexivity. Qed.

(* ================================================================= *)
(** ** What is left of the stream *)

Lemma drop_chars_add (n m : nat) (s : string) :
  drop_chars n (drop_chars m s) = drop_chars (m + n) s.
Proof.
  revert s; induction m as [ | m IH]; intros s; simpl.
  - reflexivity.
  - destruct s as [ | c s]; simpl.
    + destruct n; reflexivity.
    + apply IH.
Qed.

Lemma from_from (n m : nat) (s : stream) : from n (from m s) = from (m + n) s.
Proof. unfold from; simpl; now rewrite drop_chars_add. Qed.

Lemma suffix_of_refl (s : stream) : suffix_of s s.
Proof. exists 0%nat; destruct s; reflexivity. Qed.

Lemma suffix_of_from (n : nat) (s : stream) : suffix_of (from n s) s.
Proof. now exists n. Qed.

Lemma suffix_of_trans (s1 s2 s3 : stream) :
  suffix_of s1 s2 -> suffix_of s2 s3 -> suffix_of s1 s3.
Proof.
  intros [n ->] [m ->]; exists (m + n)%nat; apply from_from.
Qed.

Lemma drop_chars_length (n : nat) (s : string) :
  (String.length (drop_chars n s) <= String.length s)%nat.
Proof.
  revert s; induction n as [ | n IH]; intros [ | c s]; simpl; try lia.
  specialize (IH s); lia.
Qed.

Lemma suffix_of_length (s' s : stream) :
  suffix_of s' s -> (String.length (text s') <= String.length (text s))%nat.
Proof. intros [n ->]; apply drop_chars_length. Qed.

Create HintDb suffix.
#[local] Hint Resolve suffix_of_refl suffix_of_from : suffix.

Lemma in_for_yield {A B} (body : A -> exn + B) (items : list A)
    (fin : finish) (b : B) :
  In b (yielded (for_yield body items fin)) ->
  exists a, In a items /\ body a = inr b.
Proof.
  induction items as [ | a items IH]; simpl; [intros [] | ].
  destruct (body a) as [e | b'] eqn:Ea; simpl; [intros [] | ].
  intros [<- | Hin].
  - exists a; split; [now left | exact Ea].
  - destruct (IH Hin) as [a' [Ha' Hb]]; exists a'; split; [now right | exact Hb].
Qed.

Lemma in_for_in {A B} (g : generator A) (body : A -> exn + B) (b : B) :
  In b (yielded (for_in g body)) ->
  exists a, In a (yielded g) /\ body a = inr b.
Proof. apply in_for_yield. Qed.

Lemma Any_suffix_preserving restrict : suffix_preserving (Any restrict).
Proof.
  intros s r s'; unfold Any, managed, run; simpl.
  destruct (text s) as [ | head rest]; simpl; [intros [] | ].
  destruct (_ || _); simpl; [ | intros []].
  intros [H | []]; injection H as _ <-; auto with suffix.
Qed.

Lemma Literal_suffix_preserving text_ : suffix_preserving (Literal text_).
Proof.
  intros s r s'; unfold Literal, managed, run; simpl.
  destruct (String.eqb _ _); simpl; [ | intros []].
  intros [H | []]; injection H as _ <-; auto with suffix.
Qed.

Lemma Empty_suffix_preserving : suffix_preserving Empty.
Proof.
  intros s r s' [H | []]; injection H as _ <-; auto with suffix.
Qed.

Lemma Regexp_suffix_preserving pattern_ : suffix_preserving (Regexp pattern_).
Proof.
  intros s r s'; unfold Regexp, managed, run; simpl.
  destruct (pattern_ (text s)) as [match_ | ]; simpl; [ | intros []].
  destruct (groups match_); simpl;
    intros [H | []]; injection H as _ <-; auto with suffix.
Qed.

Lemma Lookahead_suffix_preserving m negated :
  suffix_preserving (Lookahead m negated).
Proof.
  intros s r s' Hin.
  destruct (Lookahead_attempts_all m negated s r s' Hin) as [_ ->].
  auto with suffix.
Qed.

Lemma within_stream_run (m : matcher) (s s0 : stream) :
  suffix_preserving m -> suffix_of s s0 -> within_stream s0 (run m s).
Proof.
  intros Hm Hs r s' Hin; eapply suffix_of_trans; [eapply Hm, Hin | exact Hs].
Qed.

Lemma within_stream_called (m : matcher) (s s0 : stream) (g : attempts) :
  suffix_preserving m -> suffix_of s s0 -> m s = Returned g ->
  within_stream s0 g.
Proof.
  intros Hm Hs Hcall; generalize (within_stream_run m s s0 Hm Hs).
  unfold run; now rewrite Hcall.
Qed.

Lemma within_stream_next (s0 : stream) (g g' : attempts) (e : event attempt) :
  within_stream s0 g -> next g = (e, g') ->
  within_stream s0 g'
  /\ (forall r s', e = Item (r, s') -> suffix_of s' s0).
Proof.
  unfold next, within_stream; destruct g as [[ | a ys] fin]; simpl.
  - destruct fin; intros Hg H; injection H as <- <-; split;
      simpl; try discriminate; try contradiction; exact Hg.
  - intros Hg H; injection H as <- <-; split; simpl.
    + intros r s' Hin; apply (Hg r s'); now right.
    + intros r s' H; injection H as ->; apply (Hg r s'); now left.
Qed.

Lemma Or_suffix_preserving (ms : list marg) :
  (forall a, In a ms -> suffix_preserving (coerce a)) ->
  suffix_preserving (Or ms).
Proof.
  intros Hms s r s'; unfold Or, Or_call, managed, run; simpl.
  induction ms as [ | a ms IH]; simpl; [intros [] | ].
  intros Hin; apply yielded_then_incl in Hin as [Hin | Hin].
  - apply (Hms a (or_introl eq_refl) s r s' Hin).
  - apply IH; [ | exact Hin].
    intros a' Ha'; apply Hms; now right.
Qed.

Lemma And_loop_within_stream (s0 : stream) (fuel : nat) :
  forall stack : list And_frame,
    Forall (And_frame_ok s0) stack ->
    within_stream s0 (And_loop fuel stack).
Proof.
  induction fuel as [ | fuel IH]; intros stack Hstack; [intros r s' [] | ].
  destruct stack as [ | [[result_ generator_] matchers] stack'];
    [intros r s' [] | ].
  apply Forall_cons_iff in Hstack as [[Hgen Hms] Hstack'].
  simpl.
  destruct (next generator_) as [[[value stream_] | | e | ] generator'] eqn:En;
    try (intros r s' []).
  - destruct (within_stream_next s0 _ _ _ Hgen En) as [Hgen' Hitem].
    specialize (Hitem value stream_ eq_refl).
    assert (Hstack1 : Forall (And_frame_ok s0)
                        ((result_, generator', matchers) :: stack'))
      by (constructor; [split | ]; assumption).
    destruct matchers as [ | next_matcher others].
    + intros r s' [H | Hin].
      * injection H as _ <-; exact Hitem.
      * eapply IH; [exact Hstack1 | exact Hin].
    + apply Forall_cons_iff in Hms as [Hnext Hothers].
      destruct (next_matcher stream_) as [e | g] eqn:Ecall;
        [intros r s' [] | ].
      apply IH; constructor; [split | exact Hstack1].
      * eapply within_stream_called; eassumption.
      * exact Hothers.
  - apply IH; exact Hstack'.
Qed.

Lemma And_suffix_preserving (fuel : nat) (ms : list marg) :
  (forall a, In a ms -> suffix_preserving (coerce a)) ->
  suffix_preserving (And fuel ms).
Proof.
  intros Hms s; unfold And, And_call, managed, run; simpl.
  assert (Hall : Forall suffix_preserving (map coerce ms)).
  { apply Forall_forall; intros m Hm.
    apply in_map_iff in Hm as [a [<- Ha]]; now apply Hms. }
  destruct (map coerce ms) as [ | first others]; [intros r s' [] | ].
  apply Forall_cons_iff in Hall as [Hfirst Hothers].
  destruct (first s) as [e | g] eqn:Ecall; [intros r s' [] | ].
  apply And_loop_within_stream; constructor; [split | constructor].
  - exact (within_stream_called first s s g Hfirst (suffix_of_refl s) Ecall).
  - exact Hothers.
Qed.

Lemma Apply_suffix_preserving (m : marg) (raw : bool)
    (function : string + callable (Apply_returns raw)) (args : bool) :
  suffix_preserving (coerce m) ->
  suffix_preserving (Apply m raw function args).
Proof.
  intros Hm s r s'; unfold Apply, Apply_call, managed, run; simpl.
  intros Hin; apply in_for_in in Hin as [[r0 s0] [Hin Hbody]].
  destruct (if args then _ else _); simpl in Hbody; [discriminate | ].
  injection Hbody as _ <-; exact (Hm s r0 s0 Hin).
Qed.

Lemma KApply_suffix_preserving (m : marg) (function : kargs -> exn + value) :
  suffix_preserving (coerce m) ->
  suffix_preserving (KApply m false function).
Proof.
  intros Hm s r s'; unfold KApply, KApply_call, managed, run; simpl.
  intros Hin; apply in_for_in in Hin as [[r0 s0] [Hin Hbody]].
  destruct (function _); simpl in Hbody; [discriminate | ].
  injection Hbody as _ <-; exact (Hm s r0 s0 Hin).
Qed.

Lemma KApply_raw_suffix_preserving (m : marg)
    (function : kargs -> exn + attempt) :
  suffix_preserving (coerce m) ->
  raw_keeps_suffix function ->
  suffix_preserving (KApply m true function).
Proof.
  intros Hm Hf s r s'; unfold KApply, KApply_call, managed, run; simpl.
  intros Hin; apply in_for_in in Hin as [[r0 s0] [Hin Hbody]].
  apply Hf in Hbody; simpl in Hbody.
  eapply suffix_of_trans; [exact Hbody | exact (Hm s r0 s0 Hin)].
Qed.

Lemma Delayed_suffix_preserving (self : Delayed) :
  (forall m, self = Some m -> suffix_preserving m) ->
  suffix_preserving (Delayed_call self).
Proof.
  intros Hself s r s'; unfold Delayed_call, managed, run.
  destruct self as [m | ]; [ | intros []].
  apply (Hself m eq_refl).
Qed.

Lemma Repeat_with_depth_for_eq (self : Repeat_obj) (count2 : Z) (acc1 : result)
    (found : list attempt) (queue : list counted) :
  Repeat_with_depth_for self count2 acc1 found queue
  = (if within self count2 then map (extend count2 acc1) found else [],
     queue ++ if below_stop self count2 then map (extend count2 acc1) found
              else []).
Proof.
  revert queue; induction found as [ | [value stream2] found IH];
    intros queue; simpl.
  - destruct (within self count2), (below_stop self count2);
      now rewrite app_nil_r.
  - rewrite IH; unfold extend at 3 6; simpl.
    destruct (within self count2), (below_stop self count2); simpl;
      rewrite <- ?app_assoc; reflexivity.
Qed.

Lemma Repeat_matcher_suffix_preserving (self : Repeat_obj) (count : Z) :
  suffix_preserving (first_ self) -> suffix_preserving (second_ self) ->
  suffix_preserving (Repeat_matcher self count).
Proof. intros H1 H2; unfold Repeat_matcher; now destruct (0 =? count). Qed.

Lemma extend_within (s0 stream1 : stream) (m : matcher) (count2 : Z)
    (acc1 : result) (c : counted) :
  suffix_preserving m -> suffix_of stream1 s0 ->
  In c (map (extend count2 acc1) (yielded (iter (m stream1)))) ->
  counted_within s0 c.
Proof.
  intros Hm Hs Hin; apply in_map_iff in Hin as [[value stream2] [<- Hin]].
  exact (within_stream_run m stream1 s0 Hm Hs value stream2 Hin).
Qed.

Lemma Repeat_with_depth_loop_within (self : Repeat_obj) (s0 : stream)
    (fuel : nat) :
  suffix_preserving (first_ self) -> suffix_preserving (second_ self) ->
  forall queue : list counted,
    Forall (counted_within s0) queue ->
    Forall (counted_within s0)
           (yielded (Repeat_with_depth_loop fuel self queue)).
Proof.
  intros H1 H2; induction fuel as [ | fuel IH]; intros queue Hqueue;
    [constructor | ].
  destruct queue as [ | [[count1 acc1] stream1] queue]; [constructor | ].
  apply Forall_cons_iff in Hqueue as [Hs Hqueue]; simpl in Hs.
  simpl; rewrite Repeat_with_depth_for_eq.
  pose proof (Repeat_matcher_suffix_preserving self count1 H1 H2) as Hm.
  assert (Hnew : Forall (counted_within s0)
                   (map (extend (count1 + 1) acc1)
                        (yielded (iter (Repeat_matcher self count1 stream1))))).
  { apply Forall_forall; intros c Hc; eapply extend_within; eassumption. }
  apply Forall_forall; intros c Hc.
  apply yielded_then_incl in Hc as [Hc | Hc]; simpl in Hc.
  - destruct (within self (count1 + 1)); [ | contradiction].
    exact (proj1 (Forall_forall _ _) Hnew c Hc).
  - refine (proj1 (Forall_forall _ _) (IH _ _) c Hc).
    apply Forall_app; split; [exact Hqueue | ].
    destruct (below_stop self (count1 + 1)); [exact Hnew | constructor].
Qed.

Lemma Repeat_with_depth_within (self : Repeat_obj) (s : stream) (fuel : nat) :
  suffix_preserving (first_ self) -> suffix_preserving (second_ self) ->
  Forall (counted_within s) (yielded (Repeat_with_depth fuel self s)).
Proof.
  intros H1 H2; apply Forall_forall; intros c Hc.
  assert (Hs : counted_within s (0, [], s)) by apply suffix_of_refl.
  apply yielded_then_incl in Hc as [Hc | Hc]; cbn [yielded] in Hc.
  - destruct (0 =? _start self); [ | contradiction].
    now destruct Hc as [<- | []].
  - refine (proj1 (Forall_forall _ _)
              (Repeat_with_depth_loop_within self s fuel H1 H2 _ _) c Hc).
    now constructor.
Qed.

Lemma all_append_in (all : list (Z * list attempt)) (depth : Z)
    (found : attempt) (d : Z) (values : list attempt) (a : attempt) :
  In (d, values) (all_append all depth found) -> In a values ->
  (d = depth /\ a = found)
  \/ exists values', In (d, values') all /\ In a values'.
Proof.
  induction all as [ | [key values0] all IH]; simpl.
  - intros [H | []] Ha; injection H as <- <-.
    destruct Ha as [<- | []]; now left.
  - destruct (Z.eqb_spec key depth) as [-> | Hne]; simpl.
    + intros [H | Hin] Ha.
      * injection H as <- <-; apply in_app_or in Ha as [Ha | [<- | []]].
        -- right; exists values0; split; [now left | exact Ha].
        -- now left.
      * right; exists values; split; [now right | exact Ha].
    + intros [H | Hin] Ha.
      * injection H as <- <-.
        right; exists values0; split; [now left | exact Ha].
      * destruct (IH Hin Ha) as [Hl | [values' [Hin' Ha']]]; [now left | ].
        right; exists values'; split; [now right | exact Ha'].
Qed.

Lemma Repeat_collect_snoc (found : list counted) (depth : Z) (r : result)
    (s' : stream) :
  Repeat_collect (found ++ [(depth, r, s')])
  = all_append (Repeat_collect found) depth (r, s').
Proof. unfold Repeat_collect; now rewrite fold_left_app. Qed.

Lemma Repeat_collect_in (found : list counted) (d : Z)
    (values : list attempt) (a : attempt) :
  In (d, values) (Repeat_collect found) -> In a values ->
  In (d, fst a, snd a) found.
Proof.
  revert d values a; induction found as [ | [[depth r] s'] found IH]
    using rev_ind; intros d values a.
  - intros [].
  - rewrite Repeat_collect_snoc; intros Hin Ha.
    apply in_or_app.
    destruct (all_append_in _ _ _ _ _ _ Hin Ha)
      as [[-> ->] | [values' [Hin' Ha']]].
    + right; now left.
    + left; eapply IH; eassumption.
Qed.

Lemma Repeat_exhaustive_in (fuel : nat) (self : Repeat_obj) (s : stream)
    (a : attempt) :
  In a (yielded (Repeat_exhaustive fuel self s)) ->
  exists d, In (d, fst a, snd a) (yielded (Repeat_with_depth fuel self s)).
Proof.
  unfold Repeat_exhaustive.
  destruct (finish_of (Repeat_with_depth fuel self s)); simpl;
    [ | intros [] | intros []].
  intros Hin; apply in_flat_map in Hin as [[d values] [Hin Ha]].
  apply in_rev in Hin; exists d; eapply Repeat_collect_in; eassumption.
Qed.

Lemma Repeat_depth_first_loop_within (self : Repeat_obj) (s0 : stream)
    (fuel : nat) :
  suffix_preserving (first_ self) -> suffix_preserving (second_ self) ->
  forall (stack : list Repeat_frame) (count2 : option Z),
    Forall (Repeat_frame_ok s0) stack ->
    within_stream s0 (Repeat_depth_first_loop fuel self stack count2).
Proof.
  intros H1 H2; induction fuel as [ | fuel IH]; intros stack count2 Hstack;
    [intros r s' [] | ].
  destruct stack as [ | [[[count1 acc1] stream1] generator_] below];
    [intros r s' [] | ].
  apply Forall_cons_iff in Hstack as [[Hs Hgen] Hbelow].
  assert (Hnot : forall g c2,
             within_stream s0 g ->
             within_stream s0
               match c2 with
               | None => raising UnboundLocalError
               | Some c =>
                   if within self c
                   then yield_then (acc1, stream1)
                          (Repeat_depth_first_loop fuel self below c2)
                   else Repeat_depth_first_loop fuel self
                          ((count1, acc1, stream1, g) :: below) c2
               end).
  { intros g [c | ] Hg; [ | intros r s' []].
    destruct (within self c).
    - intros r s' Hin; simpl in Hin; destruct Hin as [H | Hin];
        [injection H as _ <-; exact Hs | ].
      eapply IH; eassumption.
    - apply IH; constructor; [split | ]; assumption. }
  simpl.
  destruct (below_stop self count1);
    [ | exact (Hnot generator_ count2 Hgen)].
  destruct (next generator_) as [[[value stream2] | | e | ] generator'] eqn:En;
    try (destruct (within_stream_next s0 _ _ _ Hgen En) as [Hgen' Hitem]);
    try exact (Hnot generator' (Some (count1 + 1)) Hgen');
    [ | intros r s' []].
  specialize (Hitem value stream2 eq_refl).
  destruct (Repeat_matcher self (count1 + 1) stream2) as [e | g2] eqn:Ecall;
    [exact (Hnot generator' (Some (count1 + 1)) Hgen') | ].
  apply IH; constructor; [split | constructor; [split | ]]; try assumption.
  eapply within_stream_called; [ | exact Hitem | exact Ecall].
  now apply Repeat_matcher_suffix_preserving.
Qed.

Lemma Repeat_call_suffix_preserving (fuel : nat) (self : Repeat_obj) :
  suffix_preserving (first_ self) -> suffix_preserving (second_ self) ->
  suffix_preserving (Repeat_call fuel self).
Proof.
  intros H1 H2 s r s'; unfold Repeat_call, managed, run; simpl.
  pose proof (Repeat_with_depth_within self s fuel H1 H2) as Hwd.
  rewrite Forall_forall in Hwd.
  destruct (_direction self >? 0); [ | destruct (_direction self =? 0)].
  - unfold Repeat_breadth_first; intros Hin.
    apply in_for_in in Hin as [[[d r0] s0] [Hin Hbody]].
    injection Hbody as _ <-; exact (Hwd _ Hin).
  - unfold Repeat_depth_first.
    destruct (Repeat_matcher self 0 s) as [e | g] eqn:Ecall; [intros [] | ].
    apply Repeat_depth_first_loop_within; try assumption.
    constructor; [split | constructor]; [apply suffix_of_refl | ].
    eapply within_stream_called; [ | apply suffix_of_refl | exact Ecall].
    now apply Repeat_matcher_suffix_preserving.
  - intros Hin; apply Repeat_exhaustive_in in Hin as [d Hin].
    exact (Hwd _ Hin).
Qed.

Lemma Repeat_suffix_preserving (fuel : nat) (m : marg)
    (start stop direction : pyarg) (separator : option marg)
    (repeat_ : matcher) :
  suffix_preserving (coerce m) ->
  (forall a, separator = Some a -> suffix_preserving (coerce a)) ->
  Repeat fuel m start stop direction separator = inr repeat_ ->
  suffix_preserving repeat_.
Proof.
  intros Hm Hsep; unfold Repeat.
  destruct (Repeat_init fuel m start stop direction separator)
    as [e | self] eqn:Einit; simpl; [discriminate | ].
  intros H; injection H as <-.
  assert (first_ self = coerce m
          /\ second_ self
             = match separator with
               | None => coerce m
               | Some separator_ => And fuel [separator_; m]
               end) as [Hfirst Hsecond].
  { revert Einit; unfold Repeat_init.
    destruct (assert_type _ int false); simpl; [discriminate | ].
    destruct (assert_type stop int true); simpl; [discriminate | ].
    destruct (assert_type direction int false); simpl; [discriminate | ].
    destruct (if is_None start then PInt 0 else start); try discriminate.
    destruct direction; try discriminate.
    destruct (_ <? 0); [discriminate | ].
    destruct (_ && _); [discriminate | ].
    destruct (_ >? 1); [discriminate | ].
    intros H; injection H as <-; split; reflexivity. }
  apply Repeat_call_suffix_preserving; [now rewrite Hfirst | ].
  rewrite Hsecond; destruct separator as [separator_ | ]; [ | exact Hm].
  apply And_suffix_preserving.
  intros a [<- | [<- | []]]; [now apply Hsep | exact Hm].
Qed.

(** C8, as the code has it: every attempt of a matcher built from the
    classes of the module leaves a suffix of the stream the matcher was
    given, and so a stream that is not longer, provided that the
    functions given to [KApply] with [raw=True] return a suffix of
    [stream_out]; the attempt of such a function is yielded as it is. *)
Theorem library_matcher_suffix (m : matcher) (s : stream) (r : result)
    (s' : stream) :
  library_matcher m ->
  In (r, s') (yielded (run m s)) ->
  suffix_of s' s
  /\ (String.length (text s') <= String.length (text s))%nat.
Proof.
  intros Hm Hin.
  assert (Hsuffix : suffix_of s' s); [ | split; [exact Hsuffix | ]].
  - revert s r s' Hin; fold (suffix_preserving m).
    induction Hm.
    + apply Any_suffix_preserving.
    + apply Literal_suffix_preserving.
    + apply Empty_suffix_preserving.
    + apply Regexp_suffix_preserving.
    + now apply And_suffix_preserving.
    + now apply Or_suffix_preserving.
    + eapply Repeat_suffix_preserving; eassumption.
    + apply Lookahead_suffix_preserving.
    + now apply Apply_suffix_preserving.
    + now apply KApply_suffix_preserving.
    + now apply KApply_raw_suffix_preserving.
    + apply Delayed_suffix_preserving; discriminate.
    + apply Delayed_suffix_preserving.
      intros m0 ->; injection H as <-; exact IHHm.
  - now apply suffix_of_length.
Qed.

Lemma library_matcher_suffix_witness :
  suffix_of (plain "c") (plain "abc")
  /\ (String.length "c" <= String.length "abc")%nat.
Proof.
  apply (library_matcher_suffix
           (And 10 [Text "a"; Match (Any None)]) (plain "abc")
           [VStr "a"; VStr "b"] (plain "c")).
  - apply lib_And; intros a [<- | [<- | []]]; constructor.
  - simpl; left; reflexivity.
Defined.

(** C8, as stated, fails: [KApply(Empty(), f, raw=True)] with an [f]
    that returns [([], "zzz")] is built from the classes of the module
    and, on the empty stream, yields an attempt whose stream "zzz" is no
    suffix of the empty stream and is longer. *)
Lemma KApply_raw_leaves_stream :
  let m := KApply (Match Empty) true (fun _ => inr ([], plain "zzz")) in
  In ([], plain "zzz") (yielded (run m (plain "")))
  /\ ~ suffix_of (plain "zzz") (plain "")
  /\ (String.length (text (plain "zzz")) > String.length (text (plain "")))%nat.
Proof.
  simpl; split; [now left | split; [ | lia]].
  intros [n H]; destruct n; discriminate.
Qed.

(* ================================================================= *)
(** ** Repeat, breadth first and exhaustive: the order of the counts *)

Lemma StronglySorted_app {A} (R : A -> A -> Prop) (l1 l2 : list A) :
  StronglySorted R l1 -> StronglySorted R l2 ->
  (forall a b, In a l1 -> In b l2 -> R a b) ->
  StronglySorted R (l1 ++ l2).
Proof.
  induction l1 as [ | a l1 IH]; simpl; intros H1 H2 H12; [exact H2 | ].
  apply StronglySorted_inv in H1 as [H1 Ha]; constructor.
  - apply IH; [exact H1 | exact H2 | ].
    intros a' b Ha' Hb; apply H12; [now right | exact Hb].
  - apply Forall_app; split; [exact Ha | ].
    apply Forall_forall; intros b Hb; apply H12; [now left | exact Hb].
Qed.

Lemma StronglySorted_const (c : Z) (l : list Z) :
  (forall x, In x l -> x = c) -> StronglySorted Z.le l.
Proof.
  induction l as [ | x l IH]; intros Hall; constructor.
  - apply IH; intros y Hy; apply Hall; now right.
  - apply Forall_forall; intros y Hy.
    rewrite (Hall x (or_introl eq_refl)), (Hall y (or_intror Hy)); lia.
Qed.

Lemma counts_extend (count2 : Z) (acc1 : result) (found : list attempt) (x : Z) :
  In x (counts (map (extend count2 acc1) found)) -> x = count2.
Proof.
  unfold counts; rewrite map_map; intros Hin.
  apply in_map_iff in Hin as [a [<- _]]; reflexivity.
Qed.

(** The queue of [__with_depth] holds counts in non-decreasing order,
    none of them more than one above the first; what the loop yields
    from there on has counts in non-decreasing order, all of them above
    the lower bound of the queue. *)
Lemma Repeat_with_depth_loop_sorted (self : Repeat_obj) (fuel : nat) :
  forall (queue : list counted) (lo : Z),
    StronglySorted Z.le (counts queue) ->
    (forall x, In x (counts queue) -> lo <= x <= lo + 1) ->
    StronglySorted Z.le (counts (yielded (Repeat_with_depth_loop fuel self queue)))
    /\ (forall x,
          In x (counts (yielded (Repeat_with_depth_loop fuel self queue))) ->
          lo + 1 <= x).
Proof.
  induction fuel as [ | fuel IH]; intros queue lo Hsorted Hrange;
    [split; [constructor | intros x []] | ].
  destruct queue as [ | [[count1 acc1] stream1] queue];
    [split; [constructor | intros x []] | ].
  simpl in Hsorted; apply StronglySorted_inv in Hsorted as [Hsorted Hhead].
  rewrite Forall_forall in Hhead.
  change (count_of (count1, acc1, stream1)) with count1 in Hhead.
  assert (Hlo : lo <= count1 <= lo + 1) by (apply Hrange; now left).
  simpl; rewrite Repeat_with_depth_for_eq.
  set (g := iter (Repeat_matcher self count1 stream1)).
  set (new := map (extend (count1 + 1) acc1) (yielded g)).
  set (queue' := queue ++ if below_stop self (count1 + 1) then new else []).
  assert (Hnew : forall x, In x (counts new) -> x = count1 + 1)
    by (intros x; apply counts_extend).
  assert (Hq : forall x, In x (counts queue') -> count1 <= x <= count1 + 1).
  { intros x Hx; unfold queue', counts in Hx; rewrite map_app in Hx.
    apply in_app_or in Hx as [Hx | Hx].
    - specialize (Hhead x Hx).
      assert (lo <= x <= lo + 1) by (apply Hrange; now right); lia.
    - destruct (below_stop self (count1 + 1)); [ | contradiction].
      rewrite (Hnew x Hx); lia. }
  assert (Hsq : StronglySorted Z.le (counts queue')).
  { unfold queue', counts; rewrite map_app.
    apply StronglySorted_app; [exact Hsorted | | ].
    - destruct (below_stop self (count1 + 1)); [ | constructor].
      now apply (StronglySorted_const (count1 + 1)).
    - intros a b Ha Hb.
      destruct (below_stop self (count1 + 1)); [ | contradiction].
      rewrite (Hnew b Hb).
      assert (lo <= a <= lo + 1) by (apply Hrange; now right); lia. }
  destruct (IH queue' count1 Hsq Hq) as [IHs IHr].
  set (now := if within self (count1 + 1) then new else []).
  assert (Hnow : forall x, In x (counts now) -> x = count1 + 1).
  { intros x Hx; unfold now in Hx.
    destruct (within self (count1 + 1)); [now apply Hnew | contradiction]. }
  unfold then_; simpl.
  destruct (finish_of g); simpl.
  - unfold counts; rewrite map_app; split.
    + apply StronglySorted_app;
        [now apply (StronglySorted_const (count1 + 1)) | exact IHs | ].
      intros a b Ha Hb; rewrite (Hnow a Ha); now apply IHr.
    + intros x Hx; apply in_app_or in Hx as [Hx | Hx].
      * rewrite (Hnow x Hx); lia.
      * specialize (IHr x Hx); lia.
  - split; [now apply (StronglySorted_const (count1 + 1)) | ].
    intros x Hx; rewrite (Hnow x Hx); lia.
  - split; [now apply (StronglySorted_const (count1 + 1)) | ].
    intros x Hx; rewrite (Hnow x Hx); lia.
Qed.

Lemma Repeat_with_depth_sorted (fuel : nat) (self : Repeat_obj) (s : stream) :
  StronglySorted Z.le (counts (yielded (Repeat_with_depth fuel self s))).
Proof.
  unfold Repeat_with_depth, then_; cbn [yielded finish_of].
  destruct (Repeat_with_depth_loop_sorted self fuel [(0, [], s)] 0)
    as [Hs Hr].
  - repeat constructor.
  - intros x [<- | []]; unfold count_of; simpl; lia.
  - unfold counts; rewrite map_app; apply StronglySorted_app; [ | exact Hs | ].
    + destruct (0 =? _start self); repeat constructor.
    + intros a b Ha Hb; specialize (Hr b Hb).
      destruct (0 =? _start self); [ | contradiction].
      destruct Ha as [<- | []]; unfold count_of; simpl; lia.
Qed.

(** The part of C4 on [direction = +1]: [__breadth_first] yields the
    attempts of [__with_depth] in their order, and the numbers of
    occurrences of these never decrease from one to the next. *)
Lemma Repeat_breadth_first_counts (fuel : nat) (self : Repeat_obj) (s : stream) :
  Repeat_breadth_first fuel self s
  = Gen (map strip (yielded (Repeat_with_depth fuel self s)))
        (finish_of (Repeat_with_depth fuel self s))
  /\ StronglySorted Z.le (counts (yielded (Repeat_with_depth fuel self s))).
Proof.
  split; [ | apply Repeat_with_depth_sorted].
  unfold Repeat_breadth_first, for_in; apply for_yield_all.
  intros [[d r] s'] _; reflexivity.
Qed.

Lemma StronglySorted_app_inv {A} (R : A -> A -> Prop) (l1 l2 : list A) :
  StronglySorted R (l1 ++ l2) ->
  StronglySorted R l1 /\ StronglySorted R l2
  /\ (forall a b, In a l1 -> In b l2 -> R a b).
Proof.
  induction l1 as [ | a l1 IH]; simpl; intros H.
  - repeat split; [constructor | exact H | intros a b []].
  - apply StronglySorted_inv in H as [H Ha].
    destruct (IH H) as [H1 [H2 H12]].
    apply Forall_app in Ha as [Ha1 Ha2]; rewrite Forall_forall in Ha2.
    repeat split; [now constructor | exact H2 | ].
    intros a' b [<- | Ha'] Hb; [now apply Ha2 | now apply H12].
Qed.

Lemma tagged_app (all1 all2 : list (Z * list attempt)) :
  tagged (all1 ++ all2) = tagged all1 ++ tagged all2.
Proof. apply flat_map_app. Qed.

Lemma counts_tagged (all : list (Z * list attempt)) (x : Z) :
  In x (counts (tagged all)) -> In x (map fst all).
Proof.
  unfold counts, tagged; intros Hin.
  apply in_map_iff in Hin as [c [<- Hc]].
  apply in_flat_map in Hc as [[depth values] [Hall Hc]].
  apply in_map_iff in Hc as [a [<- _]].
  apply in_map_iff; now exists (depth, values).
Qed.

Lemma strip_tagged (all : list (Z * list attempt)) :
  map strip (tagged all) = flat_map snd all.
Proof.
  induction all as [ | [depth values] all IH]; [reflexivity | ].
  change (tagged ((depth, values) :: all))
    with (map (fun a : attempt => (depth, fst a, snd a)) values ++ tagged all).
  change (flat_map snd ((depth, values) :: all))
    with (values ++ flat_map snd all).
  rewrite map_app; f_equal; [ | exact IH].
  rewrite map_map; rewrite <- (map_id values) at 2.
  apply map_ext; now intros [r s'].
Qed.

(** Filing an attempt under a key that is not below any key of the
    dictionary, the keys being in increasing order: the attempt comes
    last, and the keys stay in increasing order. *)
Lemma all_append_sorted (all : list (Z * list attempt)) (depth : Z)
    (found : attempt) :
  StronglySorted Z.lt (map fst all) ->
  (forall k, In k (map fst all) -> k <= depth) ->
  tagged (all_append all depth found)
  = tagged all ++ [(depth, fst found, snd found)]
  /\ StronglySorted Z.lt (map fst (all_append all depth found))
  /\ (forall k, In k (map fst (all_append all depth found)) ->
        k = depth \/ In k (map fst all)).
Proof.
  induction all as [ | [key values] all IH]; simpl; intros Hsorted Hle.
  - repeat split; [repeat constructor | intros k [<- | []]; now left].
  - apply StronglySorted_inv in Hsorted as [Hsorted Hkey].
    rewrite Forall_forall in Hkey.
    destruct (Z.eqb_spec key depth) as [-> | Hne]; simpl.
    + assert (all = []) as ->.
      { destruct all as [ | [key' values'] all]; [reflexivity | exfalso].
        specialize (Hkey key' (or_introl eq_refl)).
        specialize (Hle key' (or_intror (or_introl eq_refl))); lia. }
      simpl; rewrite !app_nil_r, map_app; simpl.
      repeat split; [repeat constructor | intros k [<- | []]; now left].
    + fold (tagged all); fold (tagged (all_append all depth found)).
      destruct (IH Hsorted) as [IHt [IHs IHk]];
        [intros k Hk; apply Hle; now right | ].
      rewrite IHt, app_assoc; repeat split.
      * constructor; [exact IHs | ].
        apply Forall_forall; intros k Hk.
        destruct (IHk k Hk) as [-> | Hk']; [ | now apply Hkey].
        specialize (Hle key (or_introl eq_refl)); lia.
      * intros k [<- | Hk]; [right; now left | ].
        destruct (IHk k Hk) as [-> | Hk']; [now left | right; now right].
Qed.

(** On counts in non-decreasing order the dictionary [all] holds the
    attempts in the order in which they came, in runs of equal count,
    the keys in increasing order. *)
Lemma Repeat_collect_sorted (found : list counted) :
  StronglySorted Z.le (counts found) ->
  tagged (Repeat_collect found) = found
  /\ StronglySorted Z.lt (map fst (Repeat_collect found))
  /\ (forall k, In k (map fst (Repeat_collect found)) -> In k (counts found)).
Proof.
  induction found as [ | [[depth r] s'] found IH] using rev_ind; intros Hsorted.
  - repeat split; [constructor | intros k []].
  - unfold counts in Hsorted; rewrite map_app in Hsorted.
    apply StronglySorted_app_inv in Hsorted as [Hs [_ Hle]].
    destruct (IH Hs) as [IHt [IHs IHk]].
    rewrite Repeat_collect_snoc.
    destruct (all_append_sorted (Repeat_collect found) depth (r, s') IHs)
      as [Ht [Hs' Hk]].
    { intros k Hk; apply (Hle k depth); [now apply IHk | now left]. }
    rewrite Ht, IHt; repeat split; [exact Hs' | ].
    intros k Hk'; unfold counts; rewrite map_app; apply in_or_app.
    destruct (Hk k Hk') as [-> | Hin]; [right; now left | left; now apply IHk].
Qed.

Lemma tagged_rev_permutation (all : list (Z * list attempt)) :
  Permutation (tagged (rev all)) (tagged all).
Proof.
  induction all as [ | entry all IH]; simpl; [constructor | ].
  rewrite tagged_app; simpl; rewrite app_nil_r.
  fold (tagged all).
  etransitivity; [apply Permutation_app_comm | ].
  now apply Permutation_app_head.
Qed.

Lemma tagged_rev_sorted (all : list (Z * list attempt)) :
  StronglySorted Z.lt (map fst all) ->
  StronglySorted Z.ge (counts (tagged (rev all))).
Proof.
  induction all as [ | [depth values] all IH]; simpl; intros Hsorted;
    [constructor | ].
  apply StronglySorted_inv in Hsorted as [Hsorted Hkey].
  rewrite Forall_forall in Hkey.
  rewrite tagged_app; unfold counts; rewrite map_app.
  apply StronglySorted_app; [now apply IH | | ].
  - simpl; rewrite app_nil_r, map_map; simpl.
    induction values as [ | a values IHv]; simpl; constructor; [exact IHv | ].
    apply Forall_forall; intros x Hx.
    apply in_map_iff in Hx as [a' [<- _]]; unfold count_of; simpl; lia.
  - intros a b Ha Hb.
    apply counts_tagged in Ha; rewrite map_rev in Ha; apply in_rev in Ha.
    apply counts_tagged in Hb; simpl in Hb; destruct Hb as [<- | []].
    specialize (Hkey a Ha); lia.
Qed.

(** The part of C4 on [direction = -1]: once [__with_depth] has
    returned, [__exhaustive] yields the attempts that [__with_depth] has
    yielded, each once, rearranged so that the numbers of occurrences
    never increase from one to the next. *)
Lemma Repeat_exhaustive_counts (fuel : nat) (self : Repeat_obj) (s : stream) :
  finish_of (Repeat_with_depth fuel self s) = Exhausted ->
  exists found : list counted,
    Permutation found (yielded (Repeat_with_depth fuel self s))
    /\ StronglySorted Z.ge (counts found)
    /\ Repeat_exhaustive fuel self s = Gen (map strip found) Exhausted.
Proof.
  intros Hfin.
  destruct (Repeat_collect_sorted _ (Repeat_with_depth_sorted fuel self s))
    as [Ht [Hs _]].
  exists (tagged (rev (Repeat_collect (yielded (Repeat_with_depth fuel self s))))).
  repeat split.
  - rewrite <- Ht at 2; apply tagged_rev_permutation.
  - now apply tagged_rev_sorted.
  - unfold Repeat_exhaustive; rewrite Hfin, strip_tagged; reflexivity.
Qed.

(** The part of C2 on [direction = +1] and [direction = -1]: when the
    attempts of the child on [s] come to an end, [Repeat(m, 0, 0, d)]
    yields the one attempt [([], s)].  (The child is run once, although
    nothing can come of it.) *)
Lemma Repeat_zero_zero_breadth_first (fuel : nat) (m : marg)
    (separator : option marg) (d : Z) (s : stream) :
  d = 1 \/ d = -1 ->
  finish_of (run (coerce m) s) = Exhausted ->
  run_of (Repeat (S (S fuel)) m (PInt 0) (PInt 0) (PInt d) separator) s
  = inr (Gen [([], s)] Exhausted).
Proof.
  intros Hd Hfin; unfold run in Hfin.
  assert (Hwd : forall self,
             first_ self = coerce m -> _start self = 0 -> _stop self = Some 0 ->
             Repeat_with_depth (S (S fuel)) self s
             = Gen [(0, [], s)] Exhausted).
  { intros self Hfirst Hstart Hstop.
    unfold Repeat_with_depth; rewrite Hstart; simpl.
    rewrite Repeat_with_depth_for_eq.
    unfold within, below_stop, Repeat_matcher; rewrite Hstart, Hstop, Hfirst.
    simpl; unfold then_; simpl; rewrite Hfin; reflexivity. }
  destruct Hd as [-> | ->]; unfold run_of, Repeat; simpl; f_equal;
    unfold Repeat_call, managed, run; simpl.
  - unfold Repeat_breadth_first; rewrite Hwd; reflexivity.
  - unfold Repeat_exhaustive; rewrite Hwd; reflexivity.
Qed.

(* ================================================================= *)
(** ** Recursive grammars *)

(** A grammar that refers to itself through [Delayed] keeps within the
    stream when its body does, to whatever depth the calls are
    followed. *)
Lemma Delayed_recursive_suffix_preserving (depth : nat)
    (body : matcher -> marg) :
  (forall d, suffix_preserving d -> suffix_preserving (coerce (body d))) ->
  suffix_preserving (Delayed_recursive depth body).
Proof.
  intros Hbody; induction depth as [ | depth IH]; simpl.
  - intros s r s' [].
  - apply Delayed_suffix_preserving.
    intros m H; injection H as <-; now apply Hbody.
Qed.

Example Delayed_recursive_run :
  run (Delayed_recursive 4
         (fun d => Match (Or [Match (And 20 [Match (Any None); Match d]);
                              Match Empty])))
      (plain "ab")
  = Gen [([VStr "a"; VStr "b"], plain ""); ([VStr "a"], plain "b");
         ([], plain "ab")] Exhausted.
Proof. reflexivity. Qed.

(* ================================================================= *)
(** ** The scenarios of the specification *)

Example scenario_digits :
  first_attempt (UnsignedInteger 50) "123abc"
  = inr (Some ([VStr "123"], plain "abc")).
Proof. reflexivity. Qed.

Example scenario_letters_eof :
  first_attempt (do l <- Plus 50 (Match Letter); inr (and_ 50 l (Match Eof)))
                "abc"
  = inr (Some ([VStr "a"; VStr "b"; VStr "c"], plain "")).
Proof. reflexivity. Qed.

Example scenario_letters_no_parse :
  first_attempt (do l <- Plus 50 (Match Letter); inr (and_ 50 l (Match Eof)))
                "ab1"
  = inr None.
Proof. reflexivity. Qed.

Example scenario_alternatives :
  first_attempt (getitem 50 (or_ (Literal "a") (Text "b"))
                   [ISlice (PInt 1) PNone PNone; IEllipsis])
                "abba"
  = inr (Some ([VStr "abba"], plain "")).
Proof. reflexivity. Qed.

Example scenario_signed_integer :
  first_attempt (SignedInteger 50) "-42" = inr (Some ([VStr "-42"], plain "")).
Proof. reflexivity. Qed.

Example scenario_smallest_first :
  first_attempt (do l <- getitem 50 (Any None) [ISlice PNone PNone (PInt 1)];
                 inr (and_ 50 l (Text "b")))
                "aaab"
  = inr (Some ([VStr "a"; VStr "a"; VStr "a"; VStr "b"], plain "")).
Proof. reflexivity. Qed.

(* ================================================================= *)
(** ** FastFifo *)

Lemma list_pop_last_snoc (l : list value) (x : value) :
  list_pop_last (l ++ [x]) = inr (x, l).
Proof.
  unfold list_pop_last; rewrite rev_app_distr; simpl.
  now rewrite rev_involutive.
Qed.

(** A [FastFifo] is a queue.  [append] puts the value behind what the
    queue holds; [pop()] on an empty queue raises [IndexError], and
    otherwise returns the oldest value and leaves the rest in order;
    [len] is the number of values held; [pop(i)] with [i != 0] raises. *)
Theorem FastFifo_is_queue (self : FastFifo) :
  (forall v,
      FastFifo_contents (FastFifo_append self v)
      = FastFifo_contents self ++ [v])
  /\ (FastFifo_contents self = [] -> FastFifo_pop self 0 = inl IndexError)
  /\ (forall oldest others,
        FastFifo_contents self = oldest :: others ->
        exists self',
          FastFifo_pop self 0 = inr (oldest, self')
          /\ FastFifo_contents self' = others)
  /\ FastFifo_len self = Z.of_nat (List.length (FastFifo_contents self))
  /\ (forall index, index <> 0 -> FastFifo_pop self index = inl IndexError).
Proof.
  destruct self as [front back]; unfold FastFifo_contents; simpl.
  split; [ | split; [ | split; [ | split]]].
  - intros v; now rewrite app_assoc.
  - intros H; apply app_eq_nil in H as [Hb ->].
    destruct back as [ | b back]; [reflexivity | ].
    simpl in Hb; now apply app_eq_nil in Hb as [_ Hb].
  - intros oldest others H; unfold FastFifo_pop; simpl.
    destruct back as [ | b back].
    + simpl in *; subst front; simpl.
      rewrite list_pop_last_snoc; eexists; split; [reflexivity | ].
      simpl; now rewrite rev_involutive, app_nil_r.
    + assert (Hback : b :: back = rev (rev (b :: back)))
        by (now rewrite rev_involutive).
      destruct (rev (b :: back)) as [ | x others'] eqn:Erev;
        [discriminate | ].
      simpl in H; injection H as -> <-.
      rewrite Hback; simpl; rewrite list_pop_last_snoc.
      eexists; split; [reflexivity | ].
      simpl; now rewrite rev_involutive.
  - unfold FastFifo_len; simpl.
    rewrite length_app, length_rev; lia.
  - intros index Hne; unfold FastFifo_pop.
    destruct (Z.eqb_spec index 0); [contradiction | reflexivity].
Qed.

Lemma FastFifo_is_queue_witness :
  FastFifo_pop (FastFifoObj [VInt 3] [VInt 2; VInt 1]) 0
  = inr (VInt 1, FastFifoObj [VInt 3] [VInt 2])
  /\ FastFifo_pop FastFifo_init 0 = inl IndexError
  /\ FastFifo_pop FastFifo_init 1 = inl IndexError.
Proof.
  split; [reflexivity | split].
  - apply (proj1 (proj2 (FastFifo_is_queue FastFifo_init))); reflexivity.
  - apply (proj2 (proj2 (proj2 (proj2 (FastFifo_is_queue FastFifo_init))))).
    discriminate.
Defined.

(* ================================================================= *)
(** ** CircularFifo *)

Lemma length_list_update (j : nat) (v : value) (l : list value) :
  List.length (list_update j v l) = List.length l.
Proof.
  revert j; induction l as [ | x l IH]; intros [ | j]; simpl; auto.
Qed.

Lemma nth_list_update_eq (j : nat) (v : value) (l : list value) :
  (j < List.length l)%nat -> nth j (list_update j v l) VNone = v.
Proof.
  revert j; induction l as [ | x l IH]; intros [ | j]; simpl; try lia; auto.
  intros H; apply IH; lia.
Qed.

Lemma nth_list_update_ne (i j : nat) (v : value) (l : list value) :
  i <> j -> nth i (list_update j v l) VNone = nth i l VNone.
Proof.
  revert i j; induction l as [ | x l IH]; intros [ | i] [ | j]; simpl;
    try congruence; auto.
Qed.

Lemma list_position_within (l : list value) (i : Z) :
  0 <= i < Z.of_nat (List.length l) ->
  list_position l i = inr (Z.to_nat i).
Proof.
  intros H; unfold list_position.
  destruct (Z.ltb_spec i 0); [lia | ].
  destruct (Z.leb_spec 0 i); [ | lia].
  destruct (Z.ltb_spec i (Z.of_nat (List.length l))); [reflexivity | lia].
Qed.

Lemma py_mod_positive (a b : Z) : 0 < b -> py_mod a b = inr (a mod b).
Proof.
  intros H; unfold py_mod; destruct (Z.eqb_spec b 0); [lia | reflexivity].
Qed.

Lemma mod_add_l (a b n : Z) : (a mod n + b) mod n = (a + b) mod n.
Proof. apply Zplus_mod_idemp_l. Qed.

(** Going back from [next] by less than the capacity does not come back
    to [next]. *)
Lemma mod_back_ne (next_ d n : Z) :
  0 <= next_ < n -> 0 < d < n -> (next_ - d) mod n <> next_.
Proof.
  intros Hn Hd.
  destruct (Z_lt_le_dec (next_ - d) 0) as [Hneg | Hpos].
  - replace (next_ - d) with (next_ - d + n + (-1) * n) by lia.
    rewrite Z_mod_plus_full, Z.mod_small; lia.
  - rewrite Z.mod_small; lia.
Qed.

Lemma CircularFifo_iter_loop_ok (buffer : list value) (count : nat) :
  let capacity := Z.of_nat (List.length buffer) in
  forall index,
    0 <= index < capacity ->
    CircularFifo_iter_loop count buffer capacity index
    = (map (fun k => nth (Z.to_nat ((index + Z.of_nat k) mod capacity))
                         buffer VNone)
           (seq 0 count),
       None).
Proof.
  intros capacity; induction count as [ | count IH]; intros index Hi;
    [reflexivity | ].
  assert (Hc : 0 < capacity) by lia.
  simpl; unfold list_getitem.
  rewrite list_position_within by exact Hi.
  rewrite py_mod_positive by exact Hc.
  rewrite IH by (apply Z.mod_pos_bound; exact Hc).
  f_equal; f_equal.
  - change (Z.of_nat 0) with 0.
    now rewrite Z.add_0_r, Z.mod_small by exact Hi.
  - rewrite <- seq_shift, map_map; apply map_ext; intros k.
    rewrite mod_add_l; do 3 f_equal; lia.
Qed.

Lemma CircularFifo_iter_contents (self : CircularFifo) :
  CircularFifo_ok self ->
  CircularFifo_iter self = (CircularFifo_contents self, None).
Proof.
  intros [Hc [Hn Hs]]; unfold CircularFifo_iter.
  rewrite py_mod_positive by exact Hc.
  rewrite CircularFifo_iter_loop_ok by (apply Z.mod_pos_bound; exact Hc).
  unfold CircularFifo_contents, CircularFifo_slot; f_equal.
  apply map_ext; intros k; now rewrite mod_add_l.
Qed.

Lemma length_CircularFifo_contents (self : CircularFifo) :
  List.length (CircularFifo_contents self) = Z.to_nat (cf_size self).
Proof.
  unfold CircularFifo_contents; now rewrite length_map, length_seq.
Qed.

Lemma cf_index_shift (next_ size' i n : Z) :
  ((next_ + 1) mod n - size' + i) mod n = (next_ - (size' - 1 - i)) mod n.
Proof.
  replace ((next_ + 1) mod n - size' + i)
    with ((next_ + 1) mod n + (i - size')) by lia.
  rewrite mod_add_l; f_equal; lia.
Qed.

Lemma nth_update_back (buffer : list value) (next_ d : Z) (v : value) :
  let n := Z.of_nat (List.length buffer) in
  0 <= next_ < n -> 0 < d < n ->
  nth (Z.to_nat ((next_ - d) mod n))
      (list_update (Z.to_nat next_) v buffer) VNone
  = nth (Z.to_nat ((next_ - d) mod n)) buffer VNone.
Proof.
  intros n Hn Hd; apply nth_list_update_ne.
  intros H; apply Z2Nat.inj in H; [ | | lia].
  - now apply mod_back_ne in H.
  - apply Z.mod_pos_bound; lia.
Qed.

Lemma nth_update_here (buffer : list value) (next_ : Z) (v : value) :
  let n := Z.of_nat (List.length buffer) in
  0 <= next_ < n ->
  nth (Z.to_nat ((next_ - 0) mod n))
      (list_update (Z.to_nat next_) v buffer) VNone
  = v.
Proof.
  intros n Hn; rewrite Z.sub_0_r, Z.mod_small by exact Hn.
  apply nth_list_update_eq; lia.
Qed.

(** What [append] does to a [CircularFifo] in a state that the methods
    keep. *)
Lemma CircularFifo_append_ok (self : CircularFifo) (v : value) :
  CircularFifo_ok self ->
  exists dropped self',
    CircularFifo_append self v = CfReturn dropped self'
    /\ CircularFifo_ok self'
    /\ List.length (cf_buffer self') = List.length (cf_buffer self)
    /\ if cf_size self =? Z.of_nat (List.length (cf_buffer self))
       then CircularFifo_contents self = dropped :: tl (CircularFifo_contents self)
            /\ CircularFifo_contents self'
               = tl (CircularFifo_contents self) ++ [v]
       else dropped = VNone
            /\ CircularFifo_contents self' = CircularFifo_contents self ++ [v].
Proof.
  destruct self as [size next_ buffer]; intros [Hc [Hn Hs]]; simpl in *.
  unfold CircularFifo_append; simpl.
  destruct (Z.eqb_spec size (Z.of_nat (List.length buffer))) as [-> | Hne].
  - unfold list_getitem, list_setitem.
    rewrite list_position_within by exact Hn; simpl.
    rewrite list_position_within by exact Hn.
    rewrite py_mod_positive by exact Hc.
    eexists; eexists; split; [reflexivity | ].
    split; [ | split; [apply length_list_update | ]].
    { unfold CircularFifo_ok; simpl; rewrite length_list_update.
      split; [exact Hc | split; [apply Z.mod_pos_bound; exact Hc | lia]]. }
    unfold CircularFifo_contents, CircularFifo_slot; simpl.
    rewrite length_list_update, Nat2Z.id.
    set (m := (List.length buffer - 1)%nat).
    assert (Hhead : seq 0 (List.length buffer) = 0%nat :: seq 1 m)
      by (replace (List.length buffer) with (S m) by lia; reflexivity).
    assert (Hlast : seq 0 (List.length buffer) = seq 0 m ++ [m])
      by (replace (List.length buffer) with (S m) by lia; apply seq_S).
    split.
    + rewrite Hhead; cbn [map tl]; f_equal.
      replace (next_ - Z.of_nat (List.length buffer) + Z.of_nat 0)
        with (next_ + (-1) * Z.of_nat (List.length buffer)) by lia.
      now rewrite Z_mod_plus_full, Z.mod_small by exact Hn.
    + rewrite Hlast at 1; rewrite Hhead.
      cbn [map tl]; rewrite map_app; cbn [map]; f_equal.
      * rewrite <- seq_shift, map_map; apply map_ext_in; intros i Hi.
        apply in_seq in Hi.
        rewrite cf_index_shift, (nth_update_back buffer) by lia.
        do 3 f_equal; lia.
      * f_equal; rewrite cf_index_shift.
        replace (Z.of_nat (List.length buffer) - 1 - Z.of_nat m)
          with 0 by lia.
        now apply nth_update_here.
  - unfold list_setitem; simpl.
    rewrite list_position_within by exact Hn.
    rewrite py_mod_positive by exact Hc.
    eexists; eexists; split; [reflexivity | ].
    split; [ | split; [apply length_list_update | ]].
    { unfold CircularFifo_ok; simpl; rewrite length_list_update.
      split; [exact Hc | split; [apply Z.mod_pos_bound; exact Hc | lia]]. }
    split; [reflexivity | ].
    unfold CircularFifo_contents, CircularFifo_slot; simpl.
    rewrite length_list_update.
    replace (Z.to_nat (size + 1)) with (S (Z.to_nat size)) by lia.
    rewrite seq_S, map_app; cbn [map]; f_equal.
    + apply map_ext_in; intros i Hi; apply in_seq in Hi.
      rewrite cf_index_shift, (nth_update_back buffer) by lia.
      do 3 f_equal; lia.
    + f_equal; rewrite cf_index_shift.
      replace (size + 1 - 1 - Z.of_nat (0 + Z.to_nat size)) with 0 by lia.
      now apply nth_update_here.
Qed.

Lemma last_n_short (n : nat) (l : list value) :
  (List.length l <= n)%nat -> last_n n l = l.
Proof.
  intros H; unfold last_n.
  replace (List.length l - n)%nat with 0%nat by lia; reflexivity.
Qed.

Lemma last_n_app (n : nat) (l r : list value) :
  last_n n (last_n n l ++ r) = last_n n (l ++ r).
Proof.
  unfold last_n.
  rewrite !skipn_app, skipn_skipn, !length_app, !length_skipn.
  f_equal; f_equal; lia.
Qed.

Lemma last_n_full_snoc (n : nat) (c : list value) (v : value) :
  List.length c = n -> (0 < n)%nat -> last_n n (c ++ [v]) = tl c ++ [v].
Proof.
  intros Hlen Hn; unfold last_n.
  rewrite length_app; simpl.
  replace (List.length c + 1 - n)%nat with 1%nat by lia.
  destruct c; [simpl in Hlen; lia | reflexivity].
Qed.

Lemma CircularFifo_init_ok (size : Z) :
  0 < size ->
  CircularFifo_ok (CircularFifo_init size)
  /\ CircularFifo_contents (CircularFifo_init size) = []
  /\ Z.of_nat (List.length (cf_buffer (CircularFifo_init size))) = size.
Proof.
  intros H; unfold CircularFifo_ok, CircularFifo_init; simpl.
  rewrite repeat_length; repeat split; try lia.
Qed.

Lemma CircularFifo_appends_ok (values : list value) :
  forall self : CircularFifo,
    CircularFifo_ok self ->
    exists self',
      CircularFifo_appends self values = Some self'
      /\ CircularFifo_ok self'
      /\ List.length (cf_buffer self') = List.length (cf_buffer self)
      /\ CircularFifo_contents self'
         = last_n (List.length (cf_buffer self))
                  (CircularFifo_contents self ++ values).
Proof.
  induction values as [ | v values IH]; intros self Hok; simpl.
  - exists self.
    split; [reflexivity | split; [exact Hok | split; [reflexivity | ]]].
    rewrite app_nil_r, last_n_short; [reflexivity | ].
    rewrite length_CircularFifo_contents.
    destruct Hok as [_ [_ Hs]]; lia.
  - destruct (CircularFifo_append_ok self v Hok)
      as [dropped [self1 [Happend [Hok1 [Hlen1 Hcontents]]]]].
    rewrite Happend.
    destruct (IH self1 Hok1) as [self' [Happends [Hok' [Hlen' Hc']]]].
    exists self'; split; [exact Happends | split; [exact Hok' | ]].
    split; [now rewrite Hlen', Hlen1 | ].
    rewrite Hc', Hlen1.
    replace (CircularFifo_contents self ++ v :: values)
      with ((CircularFifo_contents self ++ [v]) ++ values)
      by (now rewrite <- app_assoc).
    rewrite <- (last_n_app _ (CircularFifo_contents self ++ [v])).
    do 2 f_equal.
    pose proof (length_CircularFifo_contents self) as Hsize.
    destruct Hok as [Hc [_ Hs]].
    destruct (Z.eqb_spec (cf_size self)
                (Z.of_nat (List.length (cf_buffer self)))) as [Hfull | Hnot].
    + destruct Hcontents as [_ ->].
      symmetry; apply last_n_full_snoc; lia.
    + destruct Hcontents as [_ ->].
      symmetry; apply last_n_short; rewrite length_app; simpl; lia.
Qed.

(** A [CircularFifo] of positive size keeps the latest values: after any
    appends to a new one, iterating yields the last [size] values
    appended, oldest first, and raises nothing; [len] is the size given
    to the constructor, however many values are held. *)
Theorem CircularFifo_latest_window (size : Z) (values : list value) :
  0 < size ->
  exists self,
    CircularFifo_appends (CircularFifo_init size) values = Some self
    /\ CircularFifo_iter self = (last_n (Z.to_nat size) values, None)
    /\ CircularFifo_len self = size.
Proof.
  intros Hsize.
  destruct (CircularFifo_init_ok size Hsize) as [Hok [Hempty Hcap]].
  destruct (CircularFifo_appends_ok values _ Hok)
    as [self [Happends [Hok' [Hlen Hcontents]]]].
  exists self; split; [exact Happends | split].
  - rewrite CircularFifo_iter_contents, Hcontents, Hempty by exact Hok'.
    replace (Z.to_nat size)
      with (List.length (cf_buffer (CircularFifo_init size))) by lia.
    reflexivity.
  - unfold CircularFifo_len; rewrite Hlen; exact Hcap.
Qed.

Lemma CircularFifo_latest_window_witness :
  exists self,
    CircularFifo_appends (CircularFifo_init 2) [VInt 1; VInt 2; VInt 3]
    = Some self
    /\ CircularFifo_iter self = ([VInt 2; VInt 3], None)
    /\ CircularFifo_len self = 2.
Proof.
  exact (CircularFifo_latest_window 2 [VInt 1; VInt 2; VInt 3] eq_refl).
Defined.

(** [append] on a [CircularFifo] in a state that the methods keep: when
    the buffer is full it returns the oldest value held, which leaves,
    and otherwise [None]; the new value comes last, and the capacity
    stays. *)
Theorem CircularFifo_append_drops_oldest (self : CircularFifo) (v : value) :
  CircularFifo_ok self ->
  exists dropped self',
    CircularFifo_append self v = CfReturn dropped self'
    /\ CircularFifo_ok self'
    /\ CircularFifo_len self' = CircularFifo_len self
    /\ (cf_size self = CircularFifo_len self ->
        CircularFifo_contents self = dropped :: tl (CircularFifo_contents self)
        /\ CircularFifo_contents self'
           = tl (CircularFifo_contents self) ++ [v])
    /\ (cf_size self <> CircularFifo_len self ->
        dropped = VNone
        /\ CircularFifo_contents self' = CircularFifo_contents self ++ [v]).
Proof.
  intros Hok.
  destruct (CircularFifo_append_ok self v Hok)
    as [dropped [self' [Happend [Hok' [Hlen Hcontents]]]]].
  exists dropped, self'; unfold CircularFifo_len.
  split; [exact Happend | split; [exact Hok' | split; [now rewrite Hlen | ]]].
  destruct (Z.eqb_spec (cf_size self)
              (Z.of_nat (List.length (cf_buffer self)))) as [Hfull | Hnot];
    split; intros H; try contradiction; exact Hcontents.
Qed.

Lemma CircularFifo_append_drops_oldest_witness :
  CircularFifo_append (CircularFifoObj 2 1 [VInt 8; VInt 7]) (VInt 9)
  = CfReturn (VInt 7) (CircularFifoObj 2 0 [VInt 8; VInt 9]).
Proof.
  destruct (CircularFifo_append_drops_oldest
              (CircularFifoObj 2 1 [VInt 8; VInt 7]) (VInt 9))
    as [dropped [self' [Happend _]]].
  - unfold CircularFifo_ok; simpl; lia.
  - reflexivity.
Defined.

(** [pop] on a [CircularFifo] in a state that the methods keep: with no
    value held it raises [IndexError]; otherwise it returns the oldest
    value and the others stay, in order; with an index other than 0 it
    raises [IndexError]. *)
Theorem CircularFifo_pop_oldest (self : CircularFifo) :
  CircularFifo_ok self ->
  (CircularFifo_contents self = [] ->
   CircularFifo_pop self 0 = CfRaise IndexError self)
  /\ (forall oldest others,
        CircularFifo_contents self = oldest :: others ->
        exists self',
          CircularFifo_pop self 0 = CfReturn oldest self'
          /\ CircularFifo_ok self'
          /\ CircularFifo_contents self' = others
          /\ CircularFifo_len self' = CircularFifo_len self)
  /\ (forall index, index <> 0 ->
        CircularFifo_pop self index = CfRaise IndexError self).
Proof.
  intros Hok; pose proof (length_CircularFifo_contents self) as Hlen.
  destruct self as [size next_ buffer]; destruct Hok as [Hc [Hn Hs]];
    simpl in *.
  split; [ | split].
  - intros Hempty; rewrite Hempty in Hlen; simpl in Hlen.
    unfold CircularFifo_pop; simpl.
    destruct (Z.ltb_spec size 1); [reflexivity | lia].
  - intros oldest others Hcontents.
    rewrite Hcontents in Hlen; simpl in Hlen.
    unfold CircularFifo_pop; simpl.
    destruct (Z.ltb_spec size 1); [lia | ].
    rewrite py_mod_positive by exact Hc.
    unfold list_getitem.
    rewrite list_position_within by (apply Z.mod_pos_bound; exact Hc).
    revert Hcontents; unfold CircularFifo_contents, CircularFifo_slot; simpl.
    replace (Z.to_nat size) with (S (Z.to_nat (size - 1))) by lia.
    cbn [seq map]; intros Hcontents; injection Hcontents as Hold Hothers.
    exists (CircularFifoObj (size - 1) next_ buffer).
    split; [ | split; [ | split; [ | reflexivity]]].
    + rewrite <- Hold; do 4 f_equal; lia.
    + unfold CircularFifo_ok; simpl; lia.
    + rewrite <- Hothers, <- seq_shift, map_map.
      unfold CircularFifo_contents, CircularFifo_slot.
      cbn [cf_next cf_size cf_buffer].
      apply map_ext; intros i; cbv beta.
      replace (next_ - (size - 1) + Z.of_nat i)
        with (next_ - size + Z.of_nat (S i)) by lia.
      reflexivity.
  - intros index Hne; unfold CircularFifo_pop.
    destruct (Z.eqb_spec index 0); [contradiction | reflexivity].
Qed.

Lemma CircularFifo_pop_oldest_witness :
  CircularFifo_pop (CircularFifoObj 2 1 [VInt 8; VInt 7]) 0
  = CfReturn (VInt 7) (CircularFifoObj 1 1 [VInt 8; VInt 7])
  /\ CircularFifo_pop (CircularFifoObj 0 1 [VInt 8; VInt 7]) 0
     = CfRaise IndexError (CircularFifoObj 0 1 [VInt 8; VInt 7]).
Proof.
  split.
  - reflexivity.
  - apply (proj1 (CircularFifo_pop_oldest
                    (CircularFifoObj 0 1 [VInt 8; VInt 7])
                    ltac:(unfold CircularFifo_ok; simpl; lia))).
    reflexivity.
Defined.

(** A [CircularFifo] built with a size of zero or less has an empty
    buffer: [append] raises [IndexError] and changes nothing, [pop]
    raises [IndexError], iterating raises [ZeroDivisionError] before it
    yields anything, and [len] is 0. *)
Theorem CircularFifo_without_capacity (size : Z) (v : value) :
  size <= 0 ->
  CircularFifo_append (CircularFifo_init size) v
  = CfRaise IndexError (CircularFifo_init size)
  /\ CircularFifo_pop (CircularFifo_init size) 0
     = CfRaise IndexError (CircularFifo_init size)
  /\ CircularFifo_iter (CircularFifo_init size) = ([], Some ZeroDivisionError)
  /\ CircularFifo_len (CircularFifo_init size) = 0.
Proof.
  intros H; unfold CircularFifo_init.
  replace (Z.to_nat size) with 0%nat by lia.
  repeat split.
Qed.

Lemma CircularFifo_without_capacity_witness :
  CircularFifo_append (CircularFifo_init 0) (VInt 1)
  = CfRaise IndexError (CircularFifo_init 0).
Proof.
  apply (CircularFifo_without_capacity 0 (VInt 1)); lia.
Defined.

(* ================================================================= *)
(** ** And as nested loops *)

Lemma then_assoc {A} (a b c : generator A) :
  then_ (then_ a b) c = then_ a (then_ b c).
Proof.
  destruct a as [ya fa], b as [yb fb], c as [yc fc]; unfold then_; simpl.
  destruct fa; simpl; try reflexivity.
  destruct fb; simpl; try reflexivity.
  now rewrite app_assoc.
Qed.

Lemma then_raising {A} (e : exn) (k : generator A) :
  then_ (raising e) k = raising e.
Proof. reflexivity. Qed.

Lemma then_unfinished {A} (k : generator A) : then_ unfinished k = unfinished.
Proof. reflexivity. Qed.

Lemma yield_then_is_then {A} (a : A) (k : generator A) :
  yield_then a k = then_ (Gen [a] Exhausted) k.
Proof. reflexivity. Qed.

Lemma And_frame_attempts_nil (matchers : list matcher) (result_ : result)
    (fin : finish) :
  And_frame_attempts matchers result_ (Gen [] fin) = Gen [] fin.
Proof. destruct matchers; reflexivity. Qed.

Lemma And_frame_attempts_cons (matchers : list matcher) (result_ value_ : result)
    (stream_ : stream) (rest : list attempt) (fin : finish) :
  And_frame_attempts matchers result_ (Gen ((value_, stream_) :: rest) fin)
  = then_
      match matchers with
      | [] => Gen [(result_ ++ value_, stream_)] Exhausted
      | next_matcher :: others =>
          match next_matcher stream_ with
          | Raised e => raising e
          | Returned g' => And_frame_attempts others (result_ ++ value_) g'
          end
      end
      (And_frame_attempts matchers result_ (Gen rest fin)).
Proof. destruct matchers; reflexivity. Qed.

Lemma And_frame_steps_nil (matchers : list matcher) (fin : finish) :
  And_frame_steps matchers (Gen [] fin) = 1%nat.
Proof. destruct matchers; reflexivity. Qed.

Lemma And_frame_steps_cons (matchers : list matcher) (value_ : result)
    (stream_ : stream) (rest : list attempt) (fin : finish) :
  And_frame_steps matchers (Gen ((value_, stream_) :: rest) fin)
  = (1 + match matchers with
         | [] => 0
         | next_matcher :: others =>
             match next_matcher stream_ with
             | Raised _ => 0
             | Returned g' => And_frame_steps others g'
             end
         end
     + And_frame_steps matchers (Gen rest fin))%nat.
Proof. destruct matchers; reflexivity. Qed.

(** With enough passes, the loop of [And.__call__] yields what the nested
    loops yield, and ends as they end. *)
Lemma And_loop_attempts (fuel : nat) :
  forall stack : list And_frame,
    (And_stack_steps stack < fuel)%nat ->
    And_loop fuel stack = And_stack_attempts stack.
Proof.
  induction fuel as [ | fuel IH]; intros stack Hfuel; [lia | ].
  destruct stack as [ | [[result_ [found fin]] matchers] below];
    [reflexivity | ].
  cbn [And_stack_steps And_stack_attempts] in *.
  destruct found as [ | [value_ stream_] rest].
  - rewrite And_frame_steps_nil in Hfuel.
    rewrite And_frame_attempts_nil.
    simpl; destruct fin; simpl; try reflexivity.
    rewrite IH by lia.
    now destruct (And_stack_attempts below).
  - rewrite And_frame_steps_cons in Hfuel.
    rewrite And_frame_attempts_cons, then_assoc.
    cbn [And_loop next yielded finish_of].
    destruct matchers as [ | next_matcher others].
    + rewrite IH by (cbn [And_stack_steps]; lia).
      reflexivity.
    + destruct (next_matcher stream_) as [e | g'] eqn:Ecall.
      * reflexivity.
      * rewrite IH by (cbn [And_stack_steps]; lia).
        reflexivity.
Qed.

(** [And], run for more passes than the nested loops take, yields every
    combination of attempts of its children, each child on the stream
    that the one before it leaves, in the order of the nested loops (the
    first child's attempts outermost), the results put end to end; it
    ends as the nested loops end. *)
Theorem And_enumerates_combinations (fuel : nat) (matchers : list marg)
    (s : stream) :
  (And_steps (map coerce matchers) s < fuel)%nat ->
  run (And fuel matchers) s = And_attempts (map coerce matchers) s.
Proof.
  unfold And, And_call, managed, run, And_attempts, And_steps; simpl.
  destruct (map coerce matchers) as [ | first others]; [reflexivity | ].
  destruct (first s) as [e | g]; [reflexivity | ].
  intros Hfuel; rewrite And_loop_attempts by (simpl; lia).
  simpl; apply then_exhausted_r.
Qed.

Lemma And_enumerates_combinations_witness :
  run (And 20 [Match (Or [Text "a"; Text "ab"]); Match (Any None)])
      (plain "abc")
  = Gen [([VStr "a"; VStr "b"], plain "c");
         ([VStr "ab"; VStr "c"], plain "")] Exhausted.
Proof.
  rewrite And_enumerates_combinations; [reflexivity | ].
  vm_compute; lia.
Defined.

Lemma And_call_attempts (fuel : nat) (matchers : list marg) (s : stream) :
  (And_steps (map coerce matchers) s < fuel)%nat ->
  run (And fuel matchers) s = And_attempts (map coerce matchers) s.
Proof.
  unfold And, And_call, managed, run, And_attempts, And_steps; simpl.
  destruct (map coerce matchers) as [ | first others]; [reflexivity | ].
  destruct (first s) as [e | g]; [reflexivity | ].
  intros Hfuel; rewrite And_loop_attempts by (simpl; lia).
  simpl; apply then_exhausted_r.
Qed.

Lemma And_frame_attempts_last (result_ : result) (g : attempts) :
  And_frame_attempts [] result_ g
  = Gen (map (fun '(value_, stream_) => (result_ ++ value_, stream_))
             (yielded g))
        (finish_of g).
Proof.
  destruct g as [found fin]; induction found as [ | [value_ stream_] rest IH].
  - reflexivity.
  - rewrite And_frame_attempts_cons, IH; reflexivity.
Qed.

Lemma And_frame_steps_last (g : attempts) :
  And_frame_steps [] g = S (List.length (yielded g)).
Proof.
  destruct g as [found fin]; induction found as [ | [value_ stream_] rest IH].
  - reflexivity.
  - rewrite And_frame_steps_cons, IH; simpl; lia.
Qed.

Lemma map_app_nil_l (found : list attempt) :
  map (fun '(value_, stream_) => ([] ++ value_, stream_)) found = found.
Proof.
  induction found as [ | [value_ stream_] rest IH]; [reflexivity | ].
  cbn [map]; rewrite IH; reflexivity.
Qed.

Lemma And_single_attempts (m : matcher) (s : stream) :
  And_attempts [m] s = run m s
  /\ (And_steps [m] s <= S (List.length (yielded (run m s))))%nat.
Proof.
  unfold And_attempts, And_steps, run.
  destruct (m s) as [e | g]; [simpl; split; [reflexivity | lia] | ].
  cbv beta iota; unfold iter.
  rewrite And_frame_attempts_last, And_frame_steps_last, map_app_nil_l.
  split; [now destruct g | lia].
Qed.

Lemma And_Empty_r_frame (g : attempts) :
  And_frame_attempts [Empty] [] g = g
  /\ And_frame_steps [Empty] g = S (3 * List.length (yielded g)).
Proof.
  destruct g as [found fin]; induction found as [ | [value_ stream_] rest IH].
  - split; reflexivity.
  - destruct IH as [IHa IHs].
    rewrite And_frame_attempts_cons, And_frame_steps_cons, IHa, IHs.
    split; [ | simpl; lia].
    simpl; unfold then_; simpl; now rewrite app_nil_r.
Qed.

(** [Empty] is neutral in a sequence and a sequence of one matcher is
    that matcher: run for enough passes, [And(m)], [And(m, Empty())] and
    [And(Empty(), m)] yield on [s] the attempts of [m] on [s], with the
    same results, and end as [m] ends. *)
Theorem And_Empty_is_neutral (fuel : nat) (m : marg) (s : stream) :
  (3 * List.length (yielded (run (coerce m) s)) + 3 < fuel)%nat ->
  run (And fuel [m]) s = run (coerce m) s
  /\ run (And fuel [m; Match Empty]) s = run (coerce m) s
  /\ run (And fuel [Match Empty; m]) s = run (coerce m) s.
Proof.
  intros Hfuel.
  destruct (And_single_attempts (coerce m) s) as [Hone Hsteps].
  split; [ | split].
  - rewrite And_call_attempts; [exact Hone | ].
    cbn [map]; lia.
  - rewrite And_call_attempts;
      cbn [map]; change (coerce (Match Empty)) with Empty;
      unfold And_attempts, And_steps, run in *.
    + destruct (coerce m s) as [e | g]; [reflexivity | ].
      apply And_Empty_r_frame.
    + destruct (coerce m s) as [e | g]; [lia | ].
      rewrite (proj2 (And_Empty_r_frame g)); unfold iter in Hfuel; lia.
  - rewrite And_call_attempts;
      cbn [map]; change (coerce (Match Empty)) with Empty;
      unfold And_attempts, And_steps;
      change (Empty s) with (Returned (Gen [([], s)] Exhausted) : called attempt);
      cbv beta iota.
    + rewrite And_frame_attempts_cons, And_frame_attempts_nil.
      change (Gen [] Exhausted) with (@exhausted attempt).
      rewrite then_exhausted_r.
      change ([] ++ []) with (@nil value).
      fold (And_attempts [coerce m] s); exact Hone.
    + rewrite And_frame_steps_cons, And_frame_steps_nil.
      fold (And_steps [coerce m] s); lia.
Qed.

Lemma And_Empty_is_neutral_witness :
  run (And 10 [Text "ab"; Match Empty]) (plain "abc")
  = Gen [([VStr "ab"], plain "c")] Exhausted.
Proof.
  rewrite (proj1 (proj2 (And_Empty_is_neutral 10 (Text "ab") (plain "abc")
                           ltac:(simpl; lia)))).
  reflexivity.
Defined.

(* ================================================================= *)
(** ** Or, Drop, Literal, Eof, Add, Delayed *)

Lemma Or_call_from_then (ms1 ms2 : list matcher) (s : stream) :
  Or_call_from (ms1 ++ ms2) s
  = then_ (Or_call_from ms1 s) (Or_call_from ms2 s).
Proof.
  induction ms1 as [ | m ms1 IH]; simpl.
  - now rewrite then_exhausted_l.
  - now rewrite IH, then_assoc.
Qed.

(** Alternatives nest: [Or(Or(a...), Or(b...))] yields what
    [Or(a..., b...)] yields, and ends as it ends, whatever the children
    do. *)
Theorem Or_of_Or_flattens (ms1 ms2 : list marg) (s : stream) :
  run (Or [Match (Or ms1); Match (Or ms2)]) s = run (Or (ms1 ++ ms2)) s.
Proof.
  unfold Or, Or_call, managed, run; simpl.
  now rewrite map_app, Or_call_from_then, then_exhausted_r.
Qed.

(** [Drop(m)] yields, for each attempt [(r, s')] of [m] and in the same
    order, the attempt [([], s')], and ends as [m] ends. *)
Theorem Drop_keeps_streams (m : marg) (s : stream) :
  run (Drop m) s
  = Gen (map (fun '(_, s') => ([], s')) (yielded (run (coerce m) s)))
        (finish_of (run (coerce m) s)).
Proof.
  unfold Drop, Apply, Apply_call, managed, run, for_in; simpl.
  apply for_yield_all; now intros [r s'] _.
Qed.

Lemma take_chars_prefix (t rest : string) :
  take_chars (String.length t) (t ++ rest)%string = t.
Proof. induction t as [ | c t IH]; simpl; [now destruct rest | now rewrite IH]. Qed.

Lemma drop_chars_prefix (t rest : string) :
  drop_chars (String.length t) (t ++ rest)%string = rest.
Proof. induction t as [ | c t IH]; simpl; [reflexivity | exact IH]. Qed.

Lemma take_drop_chars (n : nat) (x : string) :
  (take_chars n x ++ drop_chars n x)%string = x.
Proof.
  revert x; induction n as [ | n IH]; intros [ | c x]; simpl;
    try reflexivity.
  now rewrite IH.
Qed.

(** [Literal(text)] yields one attempt, [([text], rest)], on a stream
    whose text is [text] followed by [rest], and no attempt on a stream
    that does not start with [text]. *)
Theorem Literal_matches_prefix (t : string) :
  (forall rest c,
      run (Literal t) (Stream (t ++ rest) c)
      = Gen [([VStr t], Stream rest c)] Exhausted)
  /\ (forall s,
        (forall rest, text s <> (t ++ rest)%string) ->
        run (Literal t) s = Gen [] Exhausted).
Proof.
  split.
  - intros rest c; unfold Literal, managed, run, upto, from; simpl.
    now rewrite take_chars_prefix, String.eqb_refl, drop_chars_prefix.
  - intros s Hno; unfold Literal, managed, run, upto; simpl.
    destruct (String.eqb_spec t (take_chars (String.length t) (text s)))
      as [Heq | Hne]; [ | reflexivity].
    exfalso; apply (Hno (drop_chars (String.length t) (text s))).
    rewrite Heq at 1; symmetry; apply take_drop_chars.
Qed.

Lemma Literal_matches_prefix_witness :
  run (Literal "ab") (plain "ba") = Gen [] Exhausted.
Proof.
  apply (proj2 (Literal_matches_prefix "ab") (plain "ba")).
  intros rest; simpl; discriminate.
Defined.

(** [Eof()] yields the one attempt [([], s)] on an empty stream and no
    attempt on any other. *)
Theorem Eof_on_empty_stream_only (s : stream) :
  run Eof s
  = if nonempty s then Gen [] Exhausted else Gen [([], s)] Exhausted.
Proof.
  unfold Eof, Lookahead_invert, Lookahead, Lookahead_call, Any, managed,
    run, nonempty; simpl.
  now destruct (text s).
Qed.

Lemma add_loop_strings (first : string) (extras : list string) :
  add_loop (VStr first) (map VStr extras)
  = inr (VStr (first ++ fold_right String.append EmptyString extras)).
Proof.
  revert first; induction extras as [ | x extras IH]; intros first; simpl.
  - f_equal; f_equal.
    induction first as [ | c first IHf]; simpl; [ | rewrite <- IHf];
      reflexivity.
  - rewrite IH; do 2 f_equal.
    induction first as [ | c first IHf]; simpl; [ | rewrite IHf];
      reflexivity.
Qed.

Lemma add_joins (r : result) :
  forallb is_VStr r = true -> add [VList r] = inr (joined r).
Proof.
  intros Hall; unfold add.
  destruct r as [ | v r]; [reflexivity | ].
  simpl in Hall; apply andb_true_iff in Hall as [Hv Hr].
  destruct v as [ | | first | | ]; try discriminate.
  assert (Hmap : r = map VStr (map text_of r)).
  { clear Hv; induction r as [ | x r IH]; [reflexivity | ].
    simpl in Hr; apply andb_true_iff in Hr as [Hx Hr].
    destruct x; try discriminate; simpl; f_equal; now apply IH. }
  cbn [truthy py_iter bind]; rewrite Hmap, add_loop_strings.
  rewrite <- Hmap; reflexivity.
Qed.

Lemma Add_joins_strings_helper (m : marg) (s : stream) :
  (forall r s', In (r, s') (yielded (run (coerce m) s)) ->
                forallb is_VStr r = true) ->
  run (Add m) s
  = Gen (map (fun '(r, s') => (joined r, s')) (yielded (run (coerce m) s)))
        (finish_of (run (coerce m) s)).
Proof.
  intros Hall; unfold Add, Apply, Apply_call, managed, run, for_in in *.
  change (Apply_function true (inr add)) with add.
  cbn [iter]; apply for_yield_all.
  intros [r s'] Hin; now rewrite (add_joins r (Hall r s' Hin)).
Qed.

(** [Add(m)] joins strings: when the results of every attempt of [m] are
    strings, [Add(m)] yields, for each attempt of [m] and in the same
    order, the one string that they make end to end (and no result for an
    attempt without results), on the same stream, and ends as [m]
    ends. *)
Theorem Add_joins_strings (m : marg) (s : stream) :
  (forall r s', In (r, s') (yielded (run (coerce m) s)) ->
                forallb is_VStr r = true) ->
  run (Add m) s
  = Gen (map (fun '(r, s') => (joined r, s')) (yielded (run (coerce m) s)))
        (finish_of (run (coerce m) s)).
Proof.
  intros Hall; unfold Add, Apply, Apply_call, managed, run, for_in in *.
  change (Apply_function true (inr add)) with add.
  cbn [iter]; apply for_yield_all.
  intros [r s'] Hin; now rewrite (add_joins r (Hall r s' Hin)).
Qed.

Lemma Add_joins_strings_witness :
  run (Add (Match (And 10 [Text "ab"; Match (Any None)]))) (plain "abc")
  = Gen [([VStr "abc"], plain "")] Exhausted.
Proof.
  rewrite Add_joins_strings; [reflexivity | ].
  intros r s' [H | []]; injection H as <- _; reflexivity.
Defined.

(** The life of a [Delayed]: called before it is bound, it raises
    [ValueError]; bound to [m] it does, on every stream, what [m] does;
    and binding it a second time raises [ValueError]. *)
Theorem Delayed_bound_once (m m' : marg) (s : stream) :
  Delayed_call Delayed_init s = Raised ValueError
  /\ exists bound,
       Delayed_iadd Delayed_init m = inr bound
       /\ Delayed_call bound s = coerce m s
       /\ Delayed_iadd bound m' = inl ValueError.
Proof.
  split; [reflexivity | ].
  eexists; split; [reflexivity | split; reflexivity].
Qed.

(* ================================================================= *)
(** ** Repeat: the indexing surface and the bounds *)

Lemma Repeat_init_cases (fuel : nat) (m : marg)
    (start stop direction : pyarg) (separator : option marg) :
  (Repeat_invalid start stop direction = true ->
   exists e, Repeat_init fuel m start stop direction separator = inl e)
  /\ (Repeat_invalid start stop direction = false ->
      exists self,
        Repeat_init fuel m start stop direction separator = inr self
        /\ first_ self = coerce m
        /\ second_ self = match separator with
                          | None => coerce m
                          | Some separator_ => And fuel [separator_; m]
                          end
        /\ _start self = int_of start 0
        /\ _stop self = match stop with PInt z => Some z | _ => None end
        /\ _direction self = int_of direction 0
        /\ Repeat_obj_valid self).
Proof.
  unfold Repeat_init, Repeat_invalid, Repeat_wrong_type, assert_type,
    Repeat_obj_valid.
  destruct start as [ | a | a | a a'], stop as [ | b | b | b b'],
      direction as [ | d | d | d d']; simpl;
    try (split; [intros _; eexists; reflexivity | discriminate]);
    rewrite ?orb_false_r;
    repeat match goal with
    | |- context [?x <? ?y] => destruct (Z.ltb_spec x y)
    | |- context [?x >? ?y] =>
        let E := fresh "E" in
        destruct (x >? y) eqn:E;
        [apply Z.gtb_gt in E | rewrite Z.gtb_ltb in E; apply Z.ltb_ge in E]
    end; simpl;
    (split;
     [intros He; first [discriminate | eexists; reflexivity]
     | intros He;
       first [discriminate
             | eexists; (split; [reflexivity | ]); simpl;
               repeat split; try lia;
               try (intros z Hz;
                    first [discriminate | injection Hz as <-; lia])]]).
Qed.

Lemma Repeat_raises_iff (fuel : nat) (m : marg)
    (start stop direction : pyarg) (separator : option marg) :
  (exists e, Repeat fuel m start stop direction separator = inl e)
  <-> Repeat_invalid start stop direction = true.
Proof.
  destruct (Repeat_init_cases fuel m start stop direction separator)
    as [Hbad Hgood]; unfold Repeat.
  destruct (Repeat_invalid start stop direction).
  - destruct (Hbad eq_refl) as [e ->]; split; [reflexivity | ].
    intros _; now exists e.
  - destruct (Hgood eq_refl) as [self [-> _]]; simpl.
    split; [intros [e He]; discriminate | discriminate].
Qed.

(** The indexing surface checks its bounds when the matcher is built:
    [m[start:stop:step]] raises exactly when [start], [stop] and [step]
    (0 when omitted) are invalid parameters of [Repeat]; [m[i]] raises
    exactly when [i < 0]; and two separators raise [TypeError]. *)
Theorem getitem_raises_iff_invalid (fuel : nat) (self : matcher) :
  (forall start stop step,
      (exists e, getitem fuel self [ISlice start stop step] = inl e)
      <-> Repeat_invalid start stop (if is_None step then PInt 0 else step)
          = true)
  /\ (forall i, (exists e, getitem fuel self [IInt i] = inl e) <-> i < 0)
  /\ (forall a b rest,
        getitem fuel self (IOther a :: IOther b :: rest) = inl TypeError).
Proof.
  assert (Hget : forall start stop step,
             (exists e,
                 getitem fuel self
                   [ISlice start stop step] = inl e)
             <-> exists e,
                 Repeat fuel (Match self)
                   (if is_None start then PInt 0 else start) stop
                   (if is_None step then PInt 0 else step) None = inl e).
  { intros start stop step; unfold getitem; simpl.
    destruct (Repeat fuel (Match self) _ stop _ None) as [e | r]; simpl.
    - split; intros _; now exists e.
    - split; intros [e He]; discriminate. }
  split; [ | split].
  - intros start stop step; rewrite Hget, Repeat_raises_iff.
    now destruct start.
  - intros i; unfold getitem; simpl.
    destruct (Repeat_raises_iff fuel (Match self) (PInt i) (PInt i)
                (PInt (-1)) None) as [H1 H2].
    destruct (Repeat fuel (Match self) (PInt i) (PInt i) (PInt (-1)) None)
      as [e | r]; simpl.
    + split; [intros _ | intros _; now exists e].
      specialize (H1 (ex_intro _ e eq_refl)).
      destruct (Z.ltb_spec i 0) as [Hlt | Hge]; [exact Hlt | exfalso].
      revert H1; unfold Repeat_invalid, Repeat_wrong_type; simpl.
      destruct (Z.ltb_spec i 0); [lia | ].
      rewrite Z.ltb_irrefl; discriminate.
    + split; [intros [e He]; discriminate | intros Hi].
      destruct H2 as [e He]; [ | discriminate].
      unfold Repeat_invalid, Repeat_wrong_type; simpl.
      apply Z.ltb_lt in Hi; now rewrite Hi.
  - reflexivity.
Qed.

Lemma getitem_raises_iff_invalid_witness :
  (exists e, getitem 5 (Any None) [ISlice (PInt 2) (PInt 1) PNone] = inl e)
  /\ (exists e, getitem 5 (Any None) [IInt (-1)] = inl e).
Proof.
  destruct (getitem_raises_iff_invalid 5 (Any None)) as [Hslice [Hint _]].
  split.
  - apply Hslice; reflexivity.
  - apply Hint; lia.
Defined.

Lemma Repeat_with_depth_loop_in_range (self : Repeat_obj) (fuel : nat) :
  forall (queue : list counted) (c : counted),
    In c (yielded (Repeat_with_depth_loop fuel self queue)) ->
    within self (count_of c) = true.
Proof.
  induction fuel as [ | fuel IH]; intros queue c; [intros [] | ].
  destruct queue as [ | [[count1 acc1] stream1] queue]; [intros [] | ].
  simpl; rewrite Repeat_with_depth_for_eq.
  intros Hin; apply yielded_then_incl in Hin as [Hin | Hin].
  - cbn [yielded] in Hin.
    destruct (within self (count1 + 1)) eqn:Ew; [ | contradiction].
    apply in_map_iff in Hin as [a [<- _]]; exact Ew.
  - exact (IH _ c Hin).
Qed.

Lemma Repeat_with_depth_in_range (fuel : nat) (self : Repeat_obj) (s : stream)
    (c : counted) :
  Repeat_obj_valid self ->
  In c (yielded (Repeat_with_depth fuel self s)) ->
  _start self <= count_of c
  /\ forall stop, _stop self = Some stop -> count_of c <= stop.
Proof.
  intros [Hstart [Hstop _]] Hin.
  assert (Hw : within self (count_of c) = true).
  { apply yielded_then_incl in Hin as [Hin | Hin]; cbn [yielded] in Hin.
    - destruct (Z.eqb_spec 0 (_start self)) as [H0 | ]; [ | contradiction].
      destruct Hin as [<- | []]; unfold within, count_of; simpl.
      rewrite <- H0; simpl.
      destruct (_stop self) as [stop | ] eqn:Es; [ | reflexivity].
      apply Z.leb_le; specialize (Hstop stop eq_refl); lia.
    - eapply Repeat_with_depth_loop_in_range; exact Hin. }
  unfold within in Hw; apply andb_true_iff in Hw as [H1 H2].
  split; [now apply Z.leb_le | ].
  intros stop Hs; rewrite Hs in H2; now apply Z.leb_le.
Qed.

(** With [direction] +1 or -1, every attempt that a [Repeat] built by the
    constructor yields comes from a number of occurrences between
    [start] and [stop]. *)
Theorem Repeat_breadth_first_within_bounds (fuel fuel' : nat) (m : marg)
    (start stop direction : pyarg) (separator : option marg)
    (self : Repeat_obj) (s : stream) (a : attempt) :
  Repeat_init fuel m start stop direction separator = inr self ->
  _direction self <> 0 ->
  In a (yielded (run (Repeat_call fuel' self) s)) ->
  exists c,
    In c (yielded (Repeat_with_depth fuel' self s))
    /\ a = strip c
    /\ _start self <= count_of c
    /\ forall k, _stop self = Some k -> count_of c <= k.
Proof.
  intros Hinit Hdir Hin.
  assert (Hvalid : Repeat_obj_valid self).
  { destruct (Repeat_init_cases fuel m start stop direction separator)
      as [Hbad Hgood].
    destruct (Repeat_invalid start stop direction).
    - destruct (Hbad eq_refl) as [e He]; congruence.
    - destruct (Hgood eq_refl) as [self' [He [_ [_ [_ [_ [_ Hv]]]]]]].
      congruence. }
  assert (Hc : exists c, In c (yielded (Repeat_with_depth fuel' self s))
                         /\ a = strip c).
  { revert Hin; unfold Repeat_call, managed, run; simpl.
    destruct (_direction self >? 0).
    - unfold Repeat_breadth_first; intros Hin.
      apply in_for_in in Hin as [[[d r] s'] [Hin Hbody]].
      injection Hbody as <-; now exists (d, r, s').
    - destruct (Z.eqb_spec (_direction self) 0); [contradiction | ].
      intros Hin; apply Repeat_exhaustive_in in Hin as [d Hin].
      exists (d, fst a, snd a); split; [exact Hin | now destruct a]. }
  destruct Hc as [c [Hc ->]]; exists c.
  split; [exact Hc | split; [reflexivity | ]].
  now apply (Repeat_with_depth_in_range fuel' self s c).
Qed.

Lemma Repeat_breadth_first_within_bounds_witness :
  exists c,
    In c (yielded (Repeat_with_depth 10
                     (RepeatObj (Any None) (Any None) 1 (Some 2) 1)
                     (plain "abc")))
    /\ ([VStr "a"; VStr "b"], plain "c") = strip c
    /\ 1 <= count_of c
    /\ forall k, Some 2 = Some k -> count_of c <= k.
Proof.
  exact (Repeat_breadth_first_within_bounds 10 10 (Match (Any None))
           (PInt 1) (PInt 2) (PInt 1) None
           (RepeatObj (Any None) (Any None) 1 (Some 2) 1) (plain "abc")
           ([VStr "a"; VStr "b"], plain "c")
           eq_refl ltac:(discriminate)
           ltac:(vm_compute; right; left; reflexivity)).
Defined.

(* ================================================================= *)
(** ** Repeat, depth first: Optional, and a child without attempts *)

(** The loop of [__depth_first] with the bounds 0 and 1, from the frame
    of count 0. *)
Lemma Repeat_depth_first_loop_optional (self : Repeat_obj) (s : stream)
    (fin : finish) :
  _start self = 0 -> _stop self = Some 1 -> fin <> Unfinished ->
  forall (found : list attempt) (fuel : nat) (count2 : option Z),
    (forall r s2, In (r, s2) found -> exists g2, second_ self s2 = Returned g2) ->
    (2 * List.length found + 2 <= fuel)%nat ->
    Repeat_depth_first_loop fuel self [(0, [], s, Gen found fin)] count2
    = Gen (found ++ [([], s)]) Exhausted.
Proof.
  intros Hstart Hstop Hfin.
  assert (Hw : within self 1 = true)
    by (unfold within; now rewrite Hstart, Hstop).
  assert (Hb0 : below_stop self 0 = true)
    by (unfold below_stop; now rewrite Hstop).
  assert (Hb1 : below_stop self 1 = false)
    by (unfold below_stop; now rewrite Hstop).
  induction found as [ | [value_ stream2] found IH];
    intros fuel count2 Hcalls Hfuel.
  - destruct fuel as [ | [ | fuel]]; try (simpl in Hfuel; lia).
    cbn [Repeat_depth_first_loop]; rewrite Hb0; unfold next; simpl.
    destruct fin; try contradiction; change (0 + 1) with 1; rewrite Hw;
      reflexivity.
  - destruct fuel as [ | [ | fuel]]; try (simpl in Hfuel; lia).
    destruct (Hcalls value_ stream2 (or_introl eq_refl)) as [g2 Hcall].
    cbn [Repeat_depth_first_loop]; rewrite Hb0; unfold next at 1; simpl.
    change (Repeat_matcher self 1 stream2) with (second_ self stream2).
    rewrite Hcall, Hb1, Hw.
    rewrite IH; [reflexivity | | simpl in Hfuel; lia].
    intros r s2 Hin; apply (Hcalls r s2); now right.
Qed.

(** [Optional(m)], that is [m[0:1]], yields on [s] the attempts of [m]
    on [s], in order, and then the attempt [([], s)]; an exception that
    ends the attempts of [m] is swallowed.  (The matcher is also called,
    without being run, on what each attempt leaves.) *)
Theorem Optional_attempts (fuel : nat) (m : marg) (s : stream)
    (found : list attempt) (fin : finish) :
  coerce m s = Returned (Gen found fin) ->
  fin <> Unfinished ->
  (forall r s2, In (r, s2) found -> exists g2, coerce m s2 = Returned g2) ->
  (2 * List.length found + 2 <= fuel)%nat ->
  exists optional,
    Optional fuel m = inr optional
    /\ run optional s = Gen (found ++ [([], s)]) Exhausted.
Proof.
  intros Hcall Hfin Hcalls Hfuel.
  exists (Repeat_call fuel (RepeatObj (coerce m) (coerce m) 0 (Some 1) 0)).
  split; [reflexivity | ].
  unfold Repeat_call, managed, run; cbn [iter _direction].
  change (0 >? 0) with false; change (0 =? 0) with true; cbv iota.
  unfold Repeat_depth_first, Repeat_matcher; cbn [first_ second_].
  change (0 =? 0) with true; cbv iota; rewrite Hcall.
  now apply Repeat_depth_first_loop_optional.
Qed.

Lemma Optional_attempts_witness :
  exists optional,
    Optional 10 (Match (Or [Text "a"; Text "ab"])) = inr optional
    /\ run optional (plain "abc")
       = Gen ([([VStr "a"], plain "bc"); ([VStr "ab"], plain "c")]
                ++ [([], plain "abc")]) Exhausted.
Proof.
  apply (Optional_attempts 10 (Match (Or [Text "a"; Text "ab"])) (plain "abc")
           [([VStr "a"], plain "bc"); ([VStr "ab"], plain "c")] Exhausted).
  - reflexivity.
  - discriminate.
  - intros r s2 _; eexists; reflexivity.
  - simpl; lia.
Defined.

Lemma Repeat_depth_first_loop_stuck (self : Repeat_obj) (s : stream) :
  below_stop self 0 = true -> within self 1 = false ->
  forall (fuel : nat) (fin : finish) (count2 : option Z),
    fin <> Unfinished ->
    (count2 = None \/ count2 = Some 1) ->
    Repeat_depth_first_loop fuel self [(0, [], s, Gen [] fin)] count2
    = unfinished.
Proof.
  intros Hb Hw; induction fuel as [ | fuel IH]; intros fin count2 Hfin Hc;
    [reflexivity | ].
  cbn [Repeat_depth_first_loop]; rewrite Hb; unfold next; simpl.
  destruct fin; try contradiction; change (0 + 1) with 1; rewrite Hw;
    apply IH; try discriminate; now right.
Qed.

(** Depth first, when the child has no attempt on [s] (and [stop] allows
    one occurrence): with [start <= 1], [Repeat] yields the one attempt
    [([], s)], also for [start = 1]; with [start >= 2] the loop goes on
    without yielding or ending, however long it is run. *)
Theorem Repeat_depth_first_child_fails (self : Repeat_obj) (s : stream)
    (fin : finish) :
  _direction self = 0 ->
  below_stop self 0 = true ->
  first_ self s = Returned (Gen [] fin) ->
  fin <> Unfinished ->
  (_start self <= 1 ->
   forall fuel, run (Repeat_call (S (S fuel)) self) s = Gen [([], s)] Exhausted)
  /\ (2 <= _start self ->
      forall fuel, run (Repeat_call fuel self) s = unfinished).
Proof.
  intros Hdir Hb Hcall Hfin.
  assert (Hstop : match _stop self with Some stop => 1 <= stop | None => True end).
  { revert Hb; unfold below_stop; destruct (_stop self); [ | trivial].
    intros H; apply Z.ltb_lt in H; lia. }
  split; intros Hstart fuel; unfold Repeat_call, managed, run; simpl;
    rewrite Hdir; simpl; unfold Repeat_depth_first, Repeat_matcher; simpl;
    rewrite Hcall.
  - assert (Hw : within self 1 = true).
    { unfold within; destruct (_stop self).
      - apply andb_true_iff; split; apply Z.leb_le; lia.
      - rewrite andb_true_r; apply Z.leb_le; lia. }
    cbn [Repeat_depth_first_loop]; rewrite Hb; unfold next; simpl.
    destruct fin; try contradiction; change (0 + 1) with 1; rewrite Hw;
      reflexivity.
  - apply Repeat_depth_first_loop_stuck; [exact Hb | | exact Hfin | now left].
    unfold within; destruct (Z.leb_spec (_start self) 1); [lia | reflexivity].
Qed.

Lemma Repeat_depth_first_child_fails_witness :
  run (Repeat_call 2 (RepeatObj Digit Digit 1 None 0)) (plain "abc")
  = Gen [([], plain "abc")] Exhausted
  /\ run (Repeat_call 1000 (RepeatObj Digit Digit 2 None 0)) (plain "abc")
     = unfinished.
Proof.
  split.
  - apply (proj1 (Repeat_depth_first_child_fails
                    (RepeatObj Digit Digit 1 None 0) (plain "abc") Exhausted
                    eq_refl eq_refl eq_refl ltac:(discriminate)));
      simpl; lia.
  - apply (proj2 (Repeat_depth_first_child_fails
                    (RepeatObj Digit Digit 2 None 0) (plain "abc") Exhausted
                    eq_refl eq_refl eq_refl ltac:(discriminate)));
      simpl; lia.
Defined.

(* ================================================================= *)
(** ** AnyBut *)

(** [AnyBut(exclude)] with a string: on a stream that starts with a token
    not in a non-empty [exclude] it yields that token and the rest of the
    stream, once; it yields nothing on the empty stream, on a token in
    [exclude] and, whatever the token, for the empty string [exclude]
    (because [Any('')] takes every token).  Without an argument it
    raises [TypeError] on every stream: [coerce] leaves [None] as the
    matcher of the [Lookahead]. *)
Theorem AnyBut_attempts (fuel : nat) (exclude : string) (s : stream) :
  (5 <= fuel)%nat ->
  run (AnyBut fuel (Some (Text exclude))) s
  = match text s with
    | EmptyString => Gen [] Exhausted
    | String head _ =>
        if not_restrict (Some exclude) || char_in head exclude
        then Gen [] Exhausted
        else Gen [([VStr (String head EmptyString)], from 1 s)] Exhausted
    end
  /\ run (AnyBut fuel None) s = raising TypeError.
Proof.
  intros Hfuel.
  do 5 (destruct fuel as [ | fuel]; [lia | ]).
  unfold AnyBut, add_, Add, Apply, Apply_call, And, And_call,
    Lookahead_invert, Lookahead, Lookahead_call, Any, managed, run; simpl.
  destruct (text s) as [ | head rest] eqn:Etext; simpl.
  - unfold next; simpl; rewrite Etext; split; reflexivity.
  - unfold next; simpl.
    destruct exclude as [ | c exclude]; simpl; [split; reflexivity | ].
    destruct (if Ascii.eqb head c then true else char_in head exclude);
      simpl; [split; reflexivity | ].
    rewrite Etext; split; reflexivity.
Qed.

Lemma AnyBut_attempts_witness :
  run (AnyBut 5 (Some (Text " "))) (plain "ab")
  = Gen [([VStr "a"], plain "b")] Exhausted
  /\ run (AnyBut 5 None) (plain "ab") = raising TypeError.
Proof.
  apply (AnyBut_attempts 5 " " (plain "ab")); lia.
Defined.

(* ================================================================= *)
(** ** Repeat, depth first, over a child that does not backtrack *)

Lemma Repeat_chain_called (self : Repeat_obj) (count : Z) (acc : result)
    (s : stream) (l : list attempt) :
  Repeat_chain self count acc s l ->
  exists g, Repeat_matcher self count s = Returned g.
Proof. intros H; destruct H; eexists; eassumption. Qed.

Lemma Repeat_depth_first_loop_chain (self : Repeat_obj) :
  _stop self = None ->
  forall count acc s l,
    Repeat_chain self count acc s l ->
    _start self <= count + 1 ->
    forall g below count2 fuel,
      Repeat_matcher self count s = Returned g ->
      Repeat_depth_first_loop (2 * List.length l + 1 + fuel) self
        ((count, acc, s, g) :: below) count2
      = then_ (Gen (rev l ++ [(acc, s)]) Exhausted)
              (Repeat_depth_first_loop fuel self below (Some (count + 1))).
Proof.
  intros Hstop.
  assert (Hb : forall c, below_stop self c = true)
    by (intros c; unfold below_stop; now rewrite Hstop).
  assert (Hw : forall c, _start self <= c -> within self c = true).
  { intros c Hc; unfold within; rewrite Hstop, andb_true_r.
    now apply Z.leb_le. }
  induction 1 as [count acc s fin Hcall Hfin
                 | count acc s value_ s' fin rest Hcall Hfin Hrest IH];
    intros Hstart g below count2 fuel Hg;
    rewrite Hcall in Hg; injection Hg as <-.
  - cbn [List.length Nat.mul Nat.add Repeat_depth_first_loop].
    rewrite Hb; unfold next; cbn [yielded finish_of].
    destruct fin; try contradiction; rewrite Hw by exact Hstart;
      reflexivity.
  - cbn [List.length].
    change (@List.length (list value * stream)%type rest)
      with (@List.length attempt rest).
    replace (2 * S (List.length rest) + 1 + fuel)%nat
      with (S (2 * List.length rest + 1 + (1 + fuel)))%nat by lia.
    cbn [Repeat_depth_first_loop].
    rewrite Hb; unfold next at 1; cbn [yielded finish_of].
    destruct (Repeat_chain_called _ _ _ _ _ Hrest) as [g2 Hg2].
    rewrite Hg2, (IH ltac:(lia) g2 _ _ _ Hg2).
    cbn [Nat.add Repeat_depth_first_loop].
    rewrite Hb; unfold next; cbn [yielded finish_of].
    assert (Hlast : forall k : attempts,
               then_ (Gen (rev rest ++ [(acc ++ value_, s')]) Exhausted)
                     (yield_then (acc, s) k)
               = then_ (Gen (rev ((acc ++ value_, s') :: rest) ++ [(acc, s)])
                            Exhausted) k).
    { intros [ys f]; unfold then_, yield_then; simpl.
      now rewrite <- !app_assoc. }
    destruct fin; try contradiction; rewrite Hw by exact Hstart;
      apply Hlast.
Qed.

Lemma Repeat_depth_first_chain_run (self : Repeat_obj) (s : stream)
    (l : list attempt) (fuel : nat) :
  _direction self = 0 ->
  _stop self = None ->
  _start self <= 1 ->
  Repeat_chain self 0 [] s l ->
  (2 * List.length l + 2 <= fuel)%nat ->
  run (Repeat_call fuel self) s = Gen (rev l ++ [([], s)]) Exhausted.
Proof.
  intros Hdir Hstop Hstart Hchain Hfuel.
  unfold Repeat_call, managed, run; cbn [iter]; rewrite Hdir.
  change (0 >? 0) with false; change (0 =? 0) with true; cbv iota.
  unfold Repeat_depth_first.
  destruct (Repeat_chain_called _ _ _ _ _ Hchain) as [g Hg]; rewrite Hg.
  replace fuel with (2 * List.length l + 1 + S (fuel - 2 * List.length l - 2))%nat
    by lia.
  rewrite (Repeat_depth_first_loop_chain self Hstop 0 [] s l Hchain
             ltac:(lia) g [] None _ Hg).
  cbn [Repeat_depth_first_loop]; apply then_exhausted_r.
Qed.

(** Depth first without an upper bound, over a child that yields at most
    one attempt on each stream: [Repeat] follows the child as far as it
    goes and yields the longest chain first, then the shorter ones in
    turn, down to [([], s)].  This holds for [start] 0 and 1 alike: with
    [start = 1] the attempt without any occurrence is yielded too. *)
Theorem Repeat_depth_first_greedy (self : Repeat_obj) (s : stream)
    (l : list attempt) (fuel : nat) :
  _direction self = 0 ->
  _stop self = None ->
  _start self <= 1 ->
  Repeat_chain self 0 [] s l ->
  (2 * List.length l + 2 <= fuel)%nat ->
  run (Repeat_call fuel self) s = Gen (rev l ++ [([], s)]) Exhausted.
Proof.
  intros Hdir Hstop Hstart Hchain Hfuel.
  unfold Repeat_call, managed, run; cbn [iter]; rewrite Hdir.
  change (0 >? 0) with false; change (0 =? 0) with true; cbv iota.
  unfold Repeat_depth_first.
  destruct (Repeat_chain_called _ _ _ _ _ Hchain) as [g Hg]; rewrite Hg.
  replace fuel with (2 * List.length l + 1 + S (fuel - 2 * List.length l - 2))%nat
    by lia.
  rewrite (Repeat_depth_first_loop_chain self Hstop 0 [] s l Hchain
             ltac:(lia) g [] None _ Hg).
  cbn [Repeat_depth_first_loop]; apply then_exhausted_r.
Qed.

Lemma Repeat_depth_first_greedy_witness :
  run (Repeat_call 6 (RepeatObj (Any None) (Any None) 1 None 0)) (plain "ab")
  = Gen [([VStr "a"; VStr "b"], plain ""); ([VStr "a"], plain "b");
         ([], plain "ab")] Exhausted.
Proof.
  apply (Repeat_depth_first_greedy
           (RepeatObj (Any None) (Any None) 1 None 0) (plain "ab")
           [([VStr "a"], plain "b"); ([VStr "a"; VStr "b"], plain "")] 6).
  - reflexivity.
  - reflexivity.
  - simpl; lia.
  - apply (chain_step _ 0 [] (plain "ab") [VStr "a"] (plain "b") Exhausted);
      [reflexivity | discriminate | ].
    apply (chain_step _ (0 + 1) ([] ++ [VStr "a"]) (plain "b") [VStr "b"]
             (plain "") Exhausted);
      [reflexivity | discriminate | ].
    apply (chain_end _ _ _ _ Exhausted); [reflexivity | discriminate].
  - simpl; lia.
Defined.

Lemma Repeat_exhaustive_counts_witness :
  exists found : list counted,
    Permutation found
      (yielded (Repeat_with_depth 10 (RepeatObj (Any None) (Any None) 0 None (-1))
                  (plain "ab")))
    /\ StronglySorted Z.ge (counts found)
    /\ Repeat_exhaustive 10 (RepeatObj (Any None) (Any None) 0 None (-1))
         (plain "ab")
       = Gen (map strip found) Exhausted.
Proof.
  exact (Repeat_exhaustive_counts 10
           (RepeatObj (Any None) (Any None) 0 None (-1)) (plain "ab") eq_refl).
Defined.

Lemma Repeat_zero_zero_breadth_first_witness :
  run_of (Repeat 2 (Match (Any None)) (PInt 0) (PInt 0) (PInt 1) None)
         (plain "a")
  = inr (Gen [([], plain "a")] Exhausted).
Proof.
  exact (Repeat_zero_zero_breadth_first 0 (Match (Any None)) None 1 (plain "a")
           (or_introl eq_refl) eq_refl).
Defined.

(* ================================================================= *)
(** ** Apply with [args=True] *)

(** [Apply(m, f, args=True)] (the operator [*]) with a function [f]:
    the function kept by the constructor is a lambda of one argument, and
    [__call__] passes it the results as separate arguments.  So an
    attempt of [m] with exactly one result [x] gives [[f(x)]], and the
    first attempt with no result or with several raises [TypeError]. *)
Theorem Apply_args_one_result (m : marg) (f : callable value) (s : stream) :
  (forall found fin,
      run (coerce m) s = Gen found fin ->
      (forall r s', In (r, s') found -> exists x v, r = [x] /\ f [x] = inr v) ->
      run (Apply m false (inr f) true) s
      = Gen (map (fun '(r, s') => ([returned_value (f r)], s')) found) fin)
  /\ (forall r s' rest fin,
        run (coerce m) s = Gen ((r, s') :: rest) fin ->
        List.length r <> 1%nat ->
        run (Apply m false (inr f) true) s = raising TypeError).
Proof.
  unfold Apply, Apply_call, managed, run, for_in; cbn [iter]; split.
  - intros found fin -> Hone; cbn [yielded finish_of].
    apply for_yield_all; intros [r s'] Hin.
    destruct (Hone r s' Hin) as [x [v [-> Hv]]]; simpl; now rewrite Hv.
  - intros r s' rest fin -> Hlen; cbn [yielded finish_of for_yield].
    destruct r as [ | x [ | y r]]; simpl in *; try reflexivity; lia.
Qed.

Lemma Apply_args_one_result_witness :
  run (Apply (Match (And 10 [Text "a"; Text "b"])) false
         (inr (fun _ => inr VNone)) true)
      (plain "abc")
  = raising TypeError.
Proof.
  apply (proj2 (Apply_args_one_result (Match (And 10 [Text "a"; Text "b"]))
                  (fun _ => inr VNone) (plain "abc"))
           [VStr "a"; VStr "b"] (plain "c") [] Exhausted).
  - reflexivity.
  - simpl; lia.
Defined.

(* ================================================================= *)
(** ** UnsignedInteger *)

Lemma chars_of_snoc (taken : string) (head : ascii) :
  chars_of (taken ++ String head EmptyString)
  = chars_of taken ++ [VStr (String head EmptyString)].
Proof. induction taken as [ | c taken IH]; simpl; [ | rewrite IH]; reflexivity. Qed.

Lemma joined_chars_of (taken : string) (head : ascii) :
  joined (chars_of (taken ++ String head EmptyString))
  = [VStr (taken ++ String head EmptyString)].
Proof.
  assert (H : forall t, fold_right String.append EmptyString
                          (map text_of (chars_of t)) = t)
    by (induction t as [ | c t IH]; simpl; [ | rewrite IH]; reflexivity).
  unfold joined.
  destruct (chars_of (taken ++ String head EmptyString)) eqn:E.
  - destruct taken; discriminate.
  - now rewrite <- E, H.
Qed.

Lemma forallb_is_VStr_chars_of (t : string) :
  forallb is_VStr (chars_of t) = true.
Proof. induction t as [ | c t IH]; simpl; [reflexivity | exact IH]. Qed.

(** A [Repeat] over [Any(allowed)] follows the tokens of [allowed] at the
    head of the stream, one frame for each. *)
Lemma Repeat_chain_tokens (self : Repeat_obj) (allowed rest : string)
    (c : option core_handle) :
  first_ self = Any (Some allowed) -> second_ self = Any (Some allowed) ->
  not_restrict (Some allowed) = false ->
  starts_outside allowed rest = true ->
  forall tokens count taken,
    all_in allowed tokens = true ->
    Repeat_chain self count (chars_of taken) (Stream (tokens ++ rest) c)
                 (token_chain taken tokens rest c).
Proof.
  intros Hfirst Hsecond Hnot Hrest.
  assert (Hm : forall count, Repeat_matcher self count = Any (Some allowed))
    by (intros count; unfold Repeat_matcher; now destruct (0 =? count)).
  induction tokens as [ | head tokens IH]; intros count taken Hall; simpl.
  - apply (chain_end _ _ _ _ Exhausted); [ | discriminate].
    rewrite Hm; unfold Any, managed.
    destruct rest as [ | x rest]; [reflexivity | ].
    cbn -[not_restrict char_in]; rewrite Hnot.
    unfold starts_outside in Hrest.
    now destruct (char_in x allowed).
  - simpl in Hall; apply andb_true_iff in Hall as [Hhead Hall].
    rewrite chars_of_snoc.
    apply (chain_step _ _ _ _ _ _ Exhausted); [ | discriminate | ].
    + rewrite Hm; unfold Any, managed.
      cbn -[not_restrict char_in]; now rewrite Hhead, orb_true_r.
    + rewrite <- chars_of_snoc; apply IH; exact Hall.
Qed.

Lemma map_joined_token_chain (taken tokens rest : string)
    (c : option core_handle) :
  map (fun '(r, s') => (joined r, s')) (token_chain taken tokens rest c)
  = prefix_chain taken tokens rest c.
Proof.
  revert taken; induction tokens as [ | head tokens IH]; intros taken; simpl.
  - reflexivity.
  - now rewrite joined_chars_of, IH.
Qed.

Lemma token_chain_strings (taken tokens rest : string)
    (c : option core_handle) (r : result) (s' : stream) :
  In (r, s') (token_chain taken tokens rest c) -> forallb is_VStr r = true.
Proof.
  revert taken; induction tokens as [ | head tokens IH]; intros taken; simpl.
  - intros [].
  - intros [H | Hin]; [ | now apply IH in Hin].
    injection H as <- _; apply forallb_is_VStr_chars_of.
Qed.

Lemma length_token_chain (taken tokens rest : string) (c : option core_handle) :
  List.length (token_chain taken tokens rest c) = String.length tokens.
Proof.
  revert taken; induction tokens as [ | head tokens IH]; intros taken; simpl;
    [reflexivity | now rewrite IH].
Qed.

(** [UnsignedInteger()], on a stream that begins with the digits
    [digits_] followed by something that is no digit, yields every
    non-empty prefix of these digits as one string, the longest first,
    each with what is left of the stream, and then, last, an attempt
    without any result on the whole stream (also when there is no digit
    at all). *)
Theorem UnsignedInteger_attempts (fuel : nat) (digits_ rest : string)
    (c : option core_handle) :
  all_in digits digits_ = true ->
  starts_outside digits rest = true ->
  (2 * String.length digits_ + 2 <= fuel)%nat ->
  exists number,
    UnsignedInteger fuel = inr number
    /\ run number (Stream (digits_ ++ rest) c)
       = Gen (rev (prefix_chain EmptyString digits_ rest c)
                ++ [([], Stream (digits_ ++ rest) c)])
             Exhausted.
Proof.
  intros Hall Hrest Hfuel.
  set (self := RepeatObj Digit Digit 1 None 0).
  exists (Add (Match (Repeat_call fuel self))); split; [reflexivity | ].
  assert (Hrun : run (Repeat_call fuel self) (Stream (digits_ ++ rest) c)
                 = Gen (rev (token_chain EmptyString digits_ rest c)
                          ++ [([], Stream (digits_ ++ rest) c)]) Exhausted).
  { apply (Repeat_depth_first_chain_run self _
             (token_chain EmptyString digits_ rest c) fuel eq_refl eq_refl).
    - unfold self; simpl; lia.
    - apply (Repeat_chain_tokens self digits rest c eq_refl eq_refl eq_refl
               Hrest digits_ 0 EmptyString Hall).
    - now rewrite length_token_chain. }
  rewrite Add_joins_strings_helper; change (coerce (Match ?m)) with m;
    rewrite Hrun; cbn [yielded finish_of].
  - rewrite map_app, map_rev, map_joined_token_chain; reflexivity.
  - intros r s' Hin; apply in_app_or in Hin as [Hin | [H | []]].
    + apply in_rev in Hin; eapply token_chain_strings; exact Hin.
    + now injection H as <- _.
Qed.

Lemma UnsignedInteger_attempts_witness :
  exists number,
    UnsignedInteger 6 = inr number
    /\ run number (plain "12ab")
       = Gen [([VStr "12"], plain "ab"); ([VStr "1"], plain "2ab");
              ([], plain "12ab")] Exhausted.
Proof.
  exact (UnsignedInteger_attempts 6 "12" "ab" None eq_refl eq_refl
           ltac:(simpl; lia)).
Defined.

(* ================================================================= *)
(** ** Namespace *)

Lemma dict_get_set (d : pydict) (name name' : string) (v : value) :
  dict_get (dict_set d name v) name'
  = if String.eqb name name' then Some v else dict_get d name'.
Proof.
  induction d as [ | [key x] d IH]; simpl.
  - reflexivity.
  - destruct (String.eqb_spec key name) as [-> | Hne]; simpl.
    + now destruct (String.eqb name name').
    + destruct (String.eqb_spec key name') as [-> | Hne'].
      * destruct (String.eqb_spec name name'); [congruence | reflexivity].
      * exact IH.
Qed.

Lemma Namespace_set_opt_top (top : pydict) (below : list pydict)
    (extra : pydict) (n : string) :
  exists top1,
    Namespace_set_opt (top :: below) n
      (match dict_get extra n with Some v => v | None => VNone end)
    = inr (top1 :: below)
    /\ forall name,
         dict_get top1 name
         = if String.eqb n name
           then match requested extra n with
                | Some v => Some v
                | None => dict_get top n
                end
           else dict_get top name.
Proof.
  unfold Namespace_set_opt, requested.
  destruct (dict_get extra n) as [[ | z | x | k x | l] | ]; simpl;
    eexists; (split; [reflexivity | ]); intros name;
    rewrite ?dict_get_set;
    destruct (String.eqb_spec n name) as [<- | Hne]; reflexivity.
Qed.

Lemma Namespace_push_loop_frames (extra : pydict) (names : list string) :
  forall top below,
    exists top',
      Namespace_push_loop (top :: below) extra names = inr (top' :: below)
      /\ forall name,
           dict_get top' name
           = if existsb (String.eqb name) names
             then match requested extra name with
                  | Some v => Some v
                  | None => dict_get top name
                  end
             else dict_get top name.
Proof.
  induction names as [ | n names IH]; intros top below.
  - exists top; split; reflexivity.
  - cbn [Namespace_push_loop existsb].
    destruct (Namespace_set_opt_top top below extra n) as [top1 [-> Hstep]].
    destruct (IH top1 below) as [top' [Hloop Hget]].
    exists top'; split; [exact Hloop | ].
    intros name; rewrite Hget, !Hstep, (String.eqb_sym name n).
    destruct (String.eqb_spec n name) as [<- | Hne]; simpl.
    + destruct (existsb (String.eqb n) names); [ | reflexivity].
      now destruct (requested extra n).
    + reflexivity.
Qed.

Lemma dict_get_keys (extra : pydict) (name : string) :
  existsb (String.eqb name) (map fst extra) = false ->
  dict_get extra name = None.
Proof.
  induction extra as [ | [key v] extra IH]; simpl; [reflexivity | ].
  rewrite String.eqb_sym.
  destruct (String.eqb key name); simpl; [discriminate | exact IH].
Qed.

Lemma Namespace_push_frames (self : Namespace) (top : pydict)
    (below : list pydict) (extra : pydict) :
  self = top :: below ->
  exists top',
    Namespace_push self extra = inr (top' :: self)
    /\ forall name,
         dict_get top' name
         = match requested extra name with
           | Some v => Some v
           | None => dict_get top name
           end.
Proof.
  intros ->; unfold Namespace_push; simpl.
  destruct (Namespace_push_loop_frames extra (map fst extra) top (top :: below))
    as [top' [Hloop Hget]].
  exists top'; split; [exact Hloop | ].
  intros name; rewrite Hget.
  destruct (existsb (String.eqb name) (map fst extra)) eqn:Ein;
    [reflexivity | ].
  unfold requested; now rewrite (dict_get_keys extra name Ein).
Qed.

Lemma Namespace_sets_top (updates : list (string * value)) :
  forall top below,
    exists top', Namespace_sets (top :: below) updates = inr (top' :: below).
Proof.
  induction updates as [ | [name v] updates IH]; intros top below; simpl.
  - now exists top.
  - apply IH.
Qed.

(** A scope of a [Namespace]: [push(extra)] (the entry of [with]), then
    any calls of [set], then [pop()] (the exit) leave the namespace as it
    was before, whatever was set meanwhile. *)
Theorem Namespace_scope_restores (self : Namespace) (extra : pydict)
    (updates : list (string * value)) :
  self <> [] ->
  exists pushed inner,
    Namespace_push self extra = inr pushed
    /\ Namespace_sets pushed updates = inr inner
    /\ Namespace_pop inner = inr self.
Proof.
  intros Hne; destruct self as [ | top below]; [contradiction | ].
  destruct (Namespace_push_frames _ top below extra eq_refl)
    as [top' [Hpush _]].
  destruct (Namespace_sets_top updates top' (top :: below)) as [top'' Hsets].
  exists (top' :: top :: below), (top'' :: top :: below).
  split; [exact Hpush | split; [exact Hsets | reflexivity]].
Qed.

Lemma Namespace_scope_restores_witness :
  exists pushed inner,
    Namespace_push Namespace_init [("+"%string, VInt 1)] = inr pushed
    /\ Namespace_sets pushed [("&"%string, VInt 2)] = inr inner
    /\ Namespace_pop inner = inr Namespace_init.
Proof.
  apply (Namespace_scope_restores Namespace_init [("+"%string, VInt 1)]
           [("&"%string, VInt 2)]).
  discriminate.
Defined.

(** Inside a scope, [get] sees the value that [push(extra)] was given
    for the name, when [extra] has one that is not [None], and otherwise
    what [get] saw before the [push]; on a namespace whose stack has been
    emptied by [pop], [get], [set], [push] and [pop] raise
    [IndexError]. *)
Theorem Namespace_push_inherits (self : Namespace) (extra : pydict)
    (name : string) (default : value) :
  (self <> [] ->
   exists pushed,
     Namespace_push self extra = inr pushed
     /\ Namespace_get pushed name default
        = match requested extra name with
          | Some v => inr v
          | None => Namespace_get self name default
          end)
  /\ Namespace_pop Namespace_init = inr []
  /\ Namespace_get [] name default = inl IndexError
  /\ Namespace_set [] name default = inl IndexError
  /\ Namespace_push [] extra = inl IndexError
  /\ Namespace_pop [] = inl IndexError.
Proof.
  split; [ | repeat split].
  intros Hne; destruct self as [ | top below]; [contradiction | ].
  destruct (Namespace_push_frames _ top below extra eq_refl)
    as [top' [Hpush Hget]].
  exists (top' :: top :: below); split; [exact Hpush | ].
  unfold Namespace_get; simpl; rewrite Hget.
  now destruct (requested extra name).
Qed.

Lemma Namespace_push_inherits_witness :
  exists pushed,
    Namespace_push [[("+"%string, VInt 1); ("&"%string, VInt 2)]]
                   [("+"%string, VInt 7); ("&"%string, VNone)]
    = inr pushed
    /\ Namespace_get pushed "+" VNone = inr (VInt 7)
    /\ Namespace_get pushed "&" VNone = inr (VInt 2).
Proof.
  destruct (proj1 (Namespace_push_inherits
                     [[("+"%string, VInt 1); ("&"%string, VInt 2)]]
                     [("+"%string, VInt 7); ("&"%string, VNone)]
                     "+" VNone) ltac:(discriminate)) as [pushed [Hpush Hplus]].
  exists pushed; split; [exact Hpush | split; [exact Hplus | ]].
  injection Hpush as <-; reflexivity.
Defined.

(* ================================================================= *)
(** ** Repeat, breadth first, level by level *)

Lemma then_Gen_Exhausted {A} (l1 l2 : list A) (f : finish) :
  then_ (Gen l1 Exhausted) (Gen l2 f) = Gen (l1 ++ l2) f.
Proof. reflexivity. Qed.

(** One round of the loop of [__with_depth] over the front part of the
    queue. *)
Lemma Repeat_with_depth_loop_round (self : Repeat_obj) :
  forall (front back : list counted) (fuel : nat),
    Forall (Repeat_child_ends self) front ->
    Repeat_with_depth_loop (List.length front + fuel) self (front ++ back)
    = then_ (Gen (flat_map (Repeat_yields_of self) front) Exhausted)
            (Repeat_with_depth_loop fuel self
               (back ++ flat_map (Repeat_queues_of self) front)).
Proof.
  induction front as [ | [[count1 acc1] stream1] front IH];
    intros back fuel Hends.
  - simpl; rewrite app_nil_r.
    now destruct (Repeat_with_depth_loop fuel self back).
  - apply Forall_cons_iff in Hends as [Hend Hends].
    cbn [List.length Nat.add app Repeat_with_depth_loop].
    rewrite Repeat_with_depth_for_eq.
    unfold Repeat_child_ends in Hend; rewrite Hend.
    rewrite <- app_assoc, IH by exact Hends.
    cbn [flat_map].
    unfold Repeat_yields_of at 2, Repeat_queues_of at 2, Repeat_expand,
      count_of; cbn [fst].
    rewrite <- then_assoc, <- app_assoc.
    destruct (within self (count1 + 1)); reflexivity.
Qed.

Lemma Repeat_with_depth_loop_levels (self : Repeat_obj) (levels : nat) :
  forall (queue : list counted) (fuel : nat),
    Repeat_children_end levels self queue ->
    Repeat_frontier levels self queue = [] ->
    (Repeat_visited levels self queue < fuel)%nat ->
    Repeat_with_depth_loop fuel self queue
    = Gen (Repeat_levels levels self queue) Exhausted.
Proof.
  induction levels as [ | levels IH]; intros queue fuel Hends Hfront Hfuel.
  - simpl in Hfront; subst queue.
    destruct fuel; [simpl in Hfuel; lia | reflexivity].
  - destruct Hends as [Hends Hnext]; cbn [Repeat_visited] in Hfuel.
    pose proof (Repeat_with_depth_loop_round self queue []
                  (fuel - List.length queue) Hends) as E.
    rewrite app_nil_r in E; cbn [app] in E.
    replace (List.length queue + (fuel - List.length queue))%nat
      with fuel in E by lia.
    rewrite E, IH; [reflexivity | exact Hnext | exact Hfront | lia].
Qed.

(** Breadth first is level by level: when the child comes to an end on
    every stream it is tried on and the queue runs empty after some
    rounds, [__with_depth] yields, after the attempt without occurrence
    (if [start] is 0), the attempts with one occurrence, then all those
    with two, and so on, each level in the order of the level before it
    and, for one entry, of the child's attempts; [__breadth_first] yields
    these attempts without their counts. *)
Theorem Repeat_breadth_first_by_levels (levels fuel : nat)
    (self : Repeat_obj) (s : stream) :
  Repeat_children_end levels self [(0, [], s)] ->
  Repeat_frontier levels self [(0, [], s)] = [] ->
  (Repeat_visited levels self [(0%Z, [], s)] < fuel)%nat ->
  Repeat_with_depth fuel self s
  = Gen ((if 0 =? _start self then [(0, [], s)] else [])
           ++ Repeat_levels levels self [(0, [], s)])
        Exhausted
  /\ Repeat_breadth_first fuel self s
     = Gen (map strip
              ((if 0 =? _start self then [(0, [], s)] else [])
                 ++ Repeat_levels levels self [(0, [], s)]))
           Exhausted.
Proof.
  intros Hends Hfront Hfuel.
  assert (Hwd : Repeat_with_depth fuel self s
                = Gen ((if 0 =? _start self then [(0, [], s)] else [])
                         ++ Repeat_levels levels self [(0, [], s)])
                      Exhausted).
  { unfold Repeat_with_depth.
    now rewrite (Repeat_with_depth_loop_levels self levels _ fuel
                   Hends Hfront Hfuel). }
  split; [exact Hwd | ].
  unfold Repeat_breadth_first, for_in; rewrite Hwd; cbn [yielded finish_of].
  apply for_yield_all; now intros [[d r] s'] _.
Qed.

Lemma Repeat_breadth_first_by_levels_witness :
  Repeat_breadth_first 10 (RepeatObj (Any None) (Any None) 1 None 1)
                       (plain "ab")
  = Gen [([VStr "a"], plain "b"); ([VStr "a"; VStr "b"], plain "")] Exhausted.
Proof.
  apply (proj2 (Repeat_breadth_first_by_levels 3 10
                  (RepeatObj (Any None) (Any None) 1 None 1) (plain "ab")
                  ltac:(simpl; repeat constructor)
                  eq_refl
                  ltac:(simpl; lia))).
Defined.

(* ================================================================= *)
(** ** And of And *)

Lemma And_frame_attempts_then (matchers : list matcher) (result_ : result)
    (g1 g2 : attempts) :
  And_frame_attempts matchers result_ (then_ g1 g2)
  = then_ (And_frame_attempts matchers result_ g1)
          (And_frame_attempts matchers result_ g2).
Proof.
  destruct g1 as [found fin].
  induction found as [ | [value_ stream_] rest IH].
  - rewrite And_frame_attempts_nil.
    destruct fin;
      [ | unfold then_; cbn [yielded finish_of];
          apply And_frame_attempts_nil .. ].
    change (Gen [] Exhausted) with (@exhausted attempt).
    rewrite !then_exhausted_l; reflexivity.
  - rewrite And_frame_attempts_cons, then_assoc, <- IH.
    destruct fin; try reflexivity;
      unfold then_ at 1 3; cbn [yielded finish_of app];
      now rewrite And_frame_attempts_cons.
Qed.

(** The frames of an inner [And], gone through by the matchers that
    follow it in an outer one. *)
Lemma And_frame_attempts_nested (outer : list matcher) :
  forall (inner : list matcher) (result0 result_ : result) (g : attempts),
    And_frame_attempts outer result0 (And_frame_attempts inner result_ g)
    = And_frame_attempts (inner ++ outer) (result0 ++ result_) g.
Proof.
  induction inner as [ | next_matcher others IH]; intros result0 result_ g;
    destruct g as [found fin];
    induction found as [ | [value_ stream_] rest IHrest].
  - now rewrite !And_frame_attempts_nil.
  - rewrite (And_frame_attempts_cons []), And_frame_attempts_then, IHrest.
    cbn [app]; rewrite (And_frame_attempts_cons outer (result0 ++ result_)).
    f_equal.
    change (Gen [(result_ ++ value_, stream_)] Exhausted)
      with (Gen ((result_ ++ value_, stream_) :: []) Exhausted).
    rewrite And_frame_attempts_cons, And_frame_attempts_nil, app_assoc.
    apply then_exhausted_r.
  - now rewrite !And_frame_attempts_nil.
  - rewrite And_frame_attempts_cons, And_frame_attempts_then, IHrest.
    cbn [app];
      rewrite (And_frame_attempts_cons (next_matcher :: others ++ outer)).
    f_equal.
    destruct (next_matcher stream_) as [e | g'].
    + apply And_frame_attempts_nil.
    + now rewrite IH, app_assoc.
Qed.

(** A nested [And], as [a & b & c] builds it: [And(And(m, ...), ...)]
    yields what the flat [And] of the same matchers yields, in the same
    order, and ends as it ends, when each loop is run for more passes
    than it takes.  The inner [And] has at least one matcher (an [And]
    without matchers yields nothing, and so does an [And] around it). *)
Theorem And_of_And_flattens (fuel : nat) (first : marg)
    (inner outer : list marg) (s : stream) :
  (And_steps (map coerce (first :: inner)) s < fuel)%nat ->
  (And_steps (map coerce (Match (And fuel (first :: inner)) :: outer)) s
   < fuel)%nat ->
  (And_steps (map coerce (first :: inner ++ outer)) s < fuel)%nat ->
  run (And fuel (Match (And fuel (first :: inner)) :: outer)) s
  = run (And fuel (first :: inner ++ outer)) s.
Proof.
  intros Hinner Houter Hflat.
  rewrite (And_call_attempts fuel (_ :: outer) s Houter),
    (And_call_attempts fuel (first :: inner ++ outer) s Hflat).
  pose proof (And_call_attempts fuel (first :: inner) s Hinner) as Hrun.
  unfold run in Hrun.
  cbn [map And_attempts coerce coerce_with] in *.
  change (And fuel (first :: inner) s)
    with (Returned (iter (And fuel (first :: inner) s))).
  rewrite Hrun, map_app.
  destruct (coerce first s) as [e | g]; [apply And_frame_attempts_nil | ].
  apply And_frame_attempts_nested.
Qed.

Lemma And_of_And_flattens_witness :
  run (And 20 [Match (And 20 [Match (Or [Text "a"; Text "ab"]); Match (Any None)]);
               Match (Any None)])
      (plain "abcd")
  = run (And 20 [Match (Or [Text "a"; Text "ab"]); Match (Any None);
                 Match (Any None)])
        (plain "abcd").
Proof.
  apply (And_of_And_flattens 20 (Match (Or [Text "a"; Text "ab"]))
           [Match (Any None)] [Match (Any None)] (plain "abcd"));
    vm_compute; lia.
Defined.

(* ================================================================= *)
(** ** Word *)

(** [Any(allowed)[start:,...]] for [start] 0 or 1, on a stream that
    begins with tokens of [allowed]. *)
Lemma Repeat_tokens_joined_run (fuel : nat) (start : Z)
    (allowed tokens rest : string) (c : option core_handle) :
  0 <= start <= 1 ->
  not_restrict (Some allowed) = false ->
  all_in allowed tokens = true ->
  starts_outside allowed rest = true ->
  (2 * String.length tokens + 2 <= fuel)%nat ->
  run (Add (Match (Repeat_call fuel
                     (RepeatObj (Any (Some allowed)) (Any (Some allowed))
                                start None 0))))
      (Stream (tokens ++ rest) c)
  = Gen (rev (prefix_chain EmptyString tokens rest c)
           ++ [([], Stream (tokens ++ rest) c)])
        Exhausted.
Proof.
  intros Hstart Hnot Hall Hrest Hfuel.
  set (self := RepeatObj (Any (Some allowed)) (Any (Some allowed))
                         start None 0).
  assert (Hrun : run (Repeat_call fuel self) (Stream (tokens ++ rest) c)
                 = Gen (rev (token_chain EmptyString tokens rest c)
                          ++ [([], Stream (tokens ++ rest) c)]) Exhausted).
  { apply (Repeat_depth_first_chain_run self _
             (token_chain EmptyString tokens rest c) fuel eq_refl eq_refl).
    - unfold self; simpl; lia.
    - apply (Repeat_chain_tokens self allowed rest c eq_refl eq_refl Hnot
               Hrest tokens 0 EmptyString Hall).
    - now rewrite length_token_chain. }
  rewrite Add_joins_strings_helper; change (coerce (Match ?m)) with m;
    rewrite Hrun; cbn [yielded finish_of].
  - rewrite map_app, map_rev, map_joined_token_chain; reflexivity.
  - intros r s' Hin; apply in_app_or in Hin as [Hin | [H | []]].
    + apply in_rev in Hin; eapply token_chain_strings; exact Hin.
    + now injection H as <- _.
Qed.

Lemma prefix_chain_strings (taken tokens rest : string)
    (c : option core_handle) (r : result) (s' : stream) :
  In (r, s') (prefix_chain taken tokens rest c) -> forallb is_VStr r = true.
Proof.
  revert taken; induction tokens as [ | head tokens IH]; intros taken; simpl.
  - intros [].
  - intros [H | Hin]; [ | now apply IH in Hin].
    now injection H as <- _.
Qed.

Lemma length_prefix_chain (taken tokens rest : string)
    (c : option core_handle) :
  List.length (prefix_chain taken tokens rest c) = String.length tokens.
Proof.
  revert taken; induction tokens as [ | head tokens IH]; intros taken; simpl;
    [reflexivity | now rewrite IH].
Qed.

Lemma string_app_nil_r (t : string) : (t ++ "")%string = t.
Proof. induction t as [ | c t IH]; simpl; [ | rewrite IH]; reflexivity. Qed.

Lemma string_app_assoc (a b c : string) :
  ((a ++ b) ++ c)%string = (a ++ (b ++ c))%string.
Proof. induction a as [ | x a IH]; simpl; [ | rewrite IH]; reflexivity. Qed.

(** A string in front of each prefix of the chain. *)
Lemma map_joined_prefix_chain (front taken tokens rest : string)
    (c : option core_handle) :
  map (fun '(r, s') => (joined r, s'))
      (map (fun '(value_, stream_) => ([VStr front] ++ value_, stream_))
           (prefix_chain taken tokens rest c))
  = prefix_chain (front ++ taken) tokens rest c.
Proof.
  revert taken; induction tokens as [ | head tokens IH]; intros taken;
    cbn [prefix_chain map]; [reflexivity | ].
  rewrite IH, string_app_assoc; cbn [app joined map text_of fold_right].
  now rewrite string_app_nil_r.
Qed.

(** [Word(chars, body)] with strings for [chars] and [body]: on a stream
    that begins with a token of [chars], followed by tokens of [body] (of
    [chars] when no [body] is given) and then by something that is none,
    [Word] yields every prefix of these tokens from the first one on, as
    one string, the longest first, each with what is left of the
    stream. *)
Theorem Word_attempts (fuel : nat) (chars : string) (body : option string)
    (head : ascii) (tokens rest : string) (c : option core_handle) :
  let allowed := match body with Some b => b | None => chars end in
  char_in head chars = true ->
  not_restrict (Some allowed) = false ->
  all_in allowed tokens = true ->
  starts_outside allowed rest = true ->
  (2 * String.length tokens + 5 <= fuel)%nat ->
  exists word,
    Word fuel (Text chars) (option_map Text body) = inr word
    /\ run word (Stream (String head (tokens ++ rest)) c)
       = Gen (rev (prefix_chain (String head EmptyString) tokens rest c)
                ++ [([VStr (String head EmptyString)],
                     Stream (tokens ++ rest) c)])
             Exhausted.
Proof.
  intros allowed Hhead Hnot Hall Hrest Hfuel.
  pose proof (Repeat_tokens_joined_run fuel 0 allowed tokens rest c
                ltac:(lia) Hnot Hall Hrest ltac:(lia)) as Hrun.
  set (body_ := Add (Match (Repeat_call fuel
                              (RepeatObj (Any (Some allowed))
                                         (Any (Some allowed)) 0 None 0)))) in *.
  exists (add_ fuel (Any (Some chars)) (Match body_)); split.
  - unfold allowed in body_; destruct body; reflexivity.
  - assert (Hand : run (And fuel [Match (Any (Some chars)); Match body_])
                       (Stream (String head (tokens ++ rest)) c)
                   = Gen (map (fun '(value_, stream_) =>
                                 ([VStr (String head EmptyString)] ++ value_,
                                  stream_))
                            (rev (prefix_chain EmptyString tokens rest c)
                               ++ [([], Stream (tokens ++ rest) c)]))
                         Exhausted).
    { assert (Hany : Any (Some chars) (Stream (String head (tokens ++ rest)) c)
                     = Returned (Gen [([VStr (String head EmptyString)],
                                       Stream (tokens ++ rest) c)] Exhausted)).
      { unfold Any, managed; cbn -[not_restrict char_in].
        now rewrite Hhead, orb_true_r. }
      assert (Hcall : body_ (Stream (tokens ++ rest) c)
                      = Returned (run body_ (Stream (tokens ++ rest) c)))
        by reflexivity.
      rewrite And_call_attempts;
        unfold And_attempts, And_steps;
        cbn [map coerce coerce_with]; rewrite Hany.
      - rewrite And_frame_attempts_cons, And_frame_attempts_nil, Hcall, Hrun.
        rewrite And_frame_attempts_last; cbn [yielded finish_of app].
        apply then_exhausted_r.
      - rewrite And_frame_steps_cons, And_frame_steps_nil, Hcall, Hrun.
        rewrite And_frame_steps_last; cbn [yielded].
        rewrite length_app, length_rev, length_prefix_chain; simpl; lia. }
    unfold add_; rewrite Add_joins_strings_helper;
      change (coerce (Match ?m)) with m; rewrite Hand; cbn [yielded finish_of].
    + rewrite !map_app, !map_rev, map_joined_prefix_chain.
      reflexivity.
    + intros r s' Hin; apply in_map_iff in Hin as [[r0 s0] [H Hin]].
      injection H as <- _; cbn [app forallb is_VStr andb].
      apply in_app_or in Hin as [Hin | [H | []]].
      * apply in_rev in Hin; eapply prefix_chain_strings; exact Hin.
      * now injection H as <- _.
Qed.

Lemma Word_attempts_witness :
  exists word,
    Word 20 (Text "abc") (Some (Text "xyz")) = inr word
    /\ run word (plain "axy z")
       = Gen [([VStr "axy"], plain " z"); ([VStr "ax"], plain "y z");
              ([VStr "a"], plain "xy z")] Exhausted.
Proof.
  exact (Word_attempts 20 "abc" (Some "xyz"%string) "a" "xy" " z" None
           eq_refl eq_refl eq_refl eq_refl ltac:(simpl; lia)).
Defined.

(* ================================================================= *)
(** ** SignedInteger *)

(** [m[0:1]] on a stream: the attempts of [m], then the attempt without
    any occurrence. *)
Lemma Repeat_optional_run (fuel : nat) (m : matcher) (s : stream)
    (found : list attempt) (fin : finish) :
  m s = Returned (Gen found fin) ->
  fin <> Unfinished ->
  (forall r s2, In (r, s2) found -> exists g2, m s2 = Returned g2) ->
  (2 * List.length found + 2 <= fuel)%nat ->
  run (Repeat_call fuel (RepeatObj m m 0 (Some 1) 0)) s
  = Gen (found ++ [([], s)]) Exhausted.
Proof.
  intros Hcall Hfin Hcalls Hfuel.
  unfold Repeat_call, managed, run; cbn [iter _direction].
  change (0 >? 0) with false; change (0 =? 0) with true; cbv iota.
  unfold Repeat_depth_first, Repeat_matcher; cbn [first_ second_].
  change (0 =? 0) with true; cbv iota; rewrite Hcall.
  now apply Repeat_depth_first_loop_optional.
Qed.

(** [SignedInteger()] on a stream that begins with a sign, followed by
    digits and then by something that is no digit: the sign with every
    non-empty prefix of the digits, as one string, the longest first;
    then the sign alone; then, last, an attempt without any result on
    the whole stream. *)
Theorem SignedInteger_attempts (fuel : nat) (sign : ascii)
    (digits_ rest : string) (c : option core_handle) :
  char_in sign "+-" = true ->
  all_in digits digits_ = true ->
  starts_outside digits rest = true ->
  (2 * String.length digits_ + 8 <= fuel)%nat ->
  exists number,
    SignedInteger fuel = inr number
    /\ run number (Stream (String sign (digits_ ++ rest)) c)
       = Gen (rev (prefix_chain (String sign EmptyString) digits_ rest c)
                ++ [([VStr (String sign EmptyString)],
                     Stream (digits_ ++ rest) c);
                    ([], Stream (String sign (digits_ ++ rest)) c)])
             Exhausted.
Proof.
  intros Hsign Hall Hrest Hfuel.
  set (s0 := Stream (String sign (digits_ ++ rest)) c).
  set (s1 := Stream (digits_ ++ rest) c).
  set (sign_ := Repeat_call fuel
                  (RepeatObj (Any (Some "+-"%string)) (Any (Some "+-"%string))
                             0 (Some 1) 0)).
  set (number_ := Add (Match (Repeat_call fuel
                                (RepeatObj Digit Digit 1 None 0)))).
  exists (add_ fuel sign_ (Match number_)); split; [reflexivity | ].
  assert (Houtside : starts_outside digits (String sign (digits_ ++ rest))
                     = true).
  { unfold char_in in Hsign; unfold starts_outside.
    destruct (Ascii.eqb_spec sign "+") as [-> | _]; [reflexivity | ].
    destruct (Ascii.eqb_spec sign "-") as [-> | _]; [reflexivity | ].
    discriminate. }
  assert (Hsign_run : run sign_ s0
                      = Gen [([VStr (String sign EmptyString)], s1); ([], s0)]
                            Exhausted).
  { apply (Repeat_optional_run fuel (Any (Some "+-"%string)) s0
             [([VStr (String sign EmptyString)], s1)] Exhausted).
    - unfold Any, managed, s0; cbn -[not_restrict char_in].
      now rewrite Hsign, orb_true_r.
    - discriminate.
    - intros r s2 _; eexists; reflexivity.
    - simpl; lia. }
  assert (Hrun1 : run number_ s1
                  = Gen (rev (prefix_chain EmptyString digits_ rest c)
                           ++ [([], s1)]) Exhausted)
    by (apply Repeat_tokens_joined_run; [lia | reflexivity | assumption ..
                                         | lia]).
  assert (Hrun0 : run number_ s0 = Gen [([], s0)] Exhausted)
    by (apply (Repeat_tokens_joined_run fuel 1 digits EmptyString
                 (String sign (digits_ ++ rest)) c);
        [lia | reflexivity | reflexivity | exact Houtside | simpl; lia]).
  assert (Hand : run (And fuel [Match sign_; Match number_]) s0
                 = Gen (map (fun '(value_, stream_) =>
                               ([VStr (String sign EmptyString)] ++ value_,
                                stream_))
                          (rev (prefix_chain EmptyString digits_ rest c)
                             ++ [([], s1)])
                          ++ [([], s0)])
                       Exhausted).
  { assert (Hcall : forall s, number_ s = Returned (run number_ s))
      by reflexivity.
    assert (Hcall_sign : sign_ s0 = Returned (run sign_ s0)) by reflexivity.
    rewrite And_call_attempts;
      unfold And_attempts, And_steps;
      cbn [map coerce coerce_with]; rewrite Hcall_sign, Hsign_run.
    - rewrite !And_frame_attempts_cons, And_frame_attempts_nil, !Hcall,
        Hrun1, Hrun0, !And_frame_attempts_last.
      cbn [yielded finish_of app map].
      reflexivity.
    - rewrite !And_frame_steps_cons, And_frame_steps_nil, !Hcall,
        Hrun1, Hrun0, !And_frame_steps_last; cbn [yielded].
      rewrite length_app, length_rev, length_prefix_chain; simpl; lia. }
  unfold add_; rewrite Add_joins_strings_helper;
    change (coerce (Match ?m)) with m; rewrite Hand; cbn [yielded finish_of].
  - rewrite !map_app, !map_rev, map_joined_prefix_chain.
    rewrite <- app_assoc; reflexivity.
  - intros r s' Hin; apply in_app_or in Hin as [Hin | [H | []]].
    + apply in_map_iff in Hin as [[r0 s2] [H Hin]].
      injection H as <- _; cbn [app forallb is_VStr andb].
      apply in_app_or in Hin as [Hin | [H | []]].
      * apply in_rev in Hin; eapply prefix_chain_strings; exact Hin.
      * now injection H as <- _.
    + now injection H as <- _.
Qed.

Lemma SignedInteger_attempts_witness :
  exists number,
    SignedInteger 12 = inr number
    /\ run number (plain "-42x")
       = Gen [([VStr "-42"], plain "x"); ([VStr "-4"], plain "2x");
              ([VStr "-"], plain "42x"); ([], plain "-42x")] Exhausted.
Proof.
  exact (SignedInteger_attempts 12 "-" "42" "x" None
           eq_refl eq_refl eq_refl ltac:(simpl; lia)).
Defined.
